(** * ActionBlockStreamer: streaming detection of writeToFile blocks

    A shallow embedding of
    [src/LLMProviders/chainRunner/utils/ActionBlockStreamer.ts] and the
    properties of its block detection and dispatch loop.

    JavaScript strings are sequences of UTF-16 code units; they are modelled
    as lists of code units.  The regular expressions of the source are
    written in a small pattern language whose matcher follows the
    backtracking order of ECMAScript (greedy and lazy quantifiers, optional
    groups, one capture group, the [^] assertion). *)

From Stdlib Require Import String Ascii.
From Stdlib Require Import List ZArith NArith Lia Bool.
Import ListNotations.
Local Open Scope list_scope.

Set Implicit Arguments.

(** ** Strings *)

Abbreviation char := N.
Abbreviation jsstring := (list char).

(** A string literal of the source, as code units. *)
Definition lit (s : string) : jsstring :=
  map N_of_ascii (list_ascii_of_string s).

(** ECMAScript WhiteSpace and LineTerminator code points: the class [\s] of
    regular expressions, and the characters removed by [String.prototype.trim]. *)
Definition is_space (c : char) : bool :=
  (N.leb 9 c && N.leb c 13) || N.eqb c 32 || N.eqb c 160 || N.eqb c 5760
  || (N.leb 8192 c && N.leb c 8202) || N.eqb c 8232 || N.eqb c 8233
  || N.eqb c 8239 || N.eqb c 8287 || N.eqb c 12288 || N.eqb c 65279.

Fixpoint starts_with (p s : jsstring) : bool :=
  match p, s with
  | [], _ => true
  | a :: p', b :: s' => N.eqb a b && starts_with p' s'
  | _ :: _, [] => false
  end.

Fixpoint jsstring_eqb (a b : jsstring) : bool :=
  match a, b with
  | [], [] => true
  | x :: a', y :: b' => N.eqb x y && jsstring_eqb a' b'
  | _, _ => false
  end.

(** [str.indexOf(needle)]: the index of the first occurrence, [-1] if none. *)
Fixpoint indexOf_from (needle s : jsstring) (i : Z) : Z :=
  if starts_with needle s then i
  else match s with
       | [] => (-1)%Z
       | _ :: s' => indexOf_from needle s' (i + 1)%Z
       end.

Definition indexOf (s needle : jsstring) : Z := indexOf_from needle s 0%Z.

(** [str.substring(start)]: a negative start counts as 0, a start beyond the
    end gives the empty string. *)
Definition substring (s : jsstring) (start : Z) : jsstring :=
  skipn (Z.to_nat start) s.

Fixpoint trimStart (s : jsstring) : jsstring :=
  match s with
  | c :: s' => if is_space c then trimStart s' else s
  | [] => []
  end.

Definition trimEnd (s : jsstring) : jsstring := rev (trimStart (rev s)).

(** [str.trim()] *)
Definition trim (s : jsstring) : jsstring := trimEnd (trimStart s).

(** ** Regular expressions *)

Module Regex.

(** Character classes used by the source: [[\s\S]] and [\s]. *)
Inductive cls := AnyChar | Space.

Definition in_cls (k : cls) (c : char) : bool :=
  match k with
  | AnyChar => true
  | Space => is_space c
  end.

(** Patterns.  Quantifiers apply to a character class, as they do in every
    pattern of the source; [Group] is capture group 1. *)
Inductive re :=
| Lit (l : jsstring)               (* literal text *)
| Seq (a b : re)                   (* a b *)
| Opt (a : re)                     (* (?:a)?   greedy *)
| Star (greedy : bool) (k : cls)   (* k*  or  k*? *)
| Group (a : re)                   (* (a) *)
| Bol.                             (* ^ *)

(** The result a continuation delivers: end index and capture 1. *)
Definition answer := option (nat * option jsstring).

(** Matcher state: index into the subject, remaining text, capture 1. *)
Definition cont := nat -> jsstring -> option jsstring -> answer.

(** Greedy quantifier: take a character when possible, and give it back
    only if the rest of the pattern fails. *)
Fixpoint star_greedy (k : cls) (i : nat) (s : jsstring)
         (kont : nat -> jsstring -> answer) : answer :=
  match s with
  | c :: s' =>
      if in_cls k c then
        match star_greedy k (S i) s' kont with
        | Some r => Some r
        | None => kont i s
        end
      else kont i s
  | [] => kont i s
  end.

(** Lazy quantifier: try the rest of the pattern first, and take a
    character only if it fails. *)
Fixpoint star_lazy (k : cls) (i : nat) (s : jsstring)
         (kont : nat -> jsstring -> answer) : answer :=
  match kont i s with
  | Some r => Some r
  | None =>
      match s with
      | c :: s' => if in_cls k c then star_lazy k (S i) s' kont else None
      | [] => None
      end
  end.

(** The backtracking matcher, in continuation-passing style. *)
Fixpoint run (r : re) (i : nat) (s : jsstring) (cap : option jsstring)
         (kont : cont) : answer :=
  match r with
  | Lit l =>
      if starts_with l s then kont (i + length l) (skipn (length l) s) cap
      else None
  | Seq a b => run a i s cap (fun i' s' cap' => run b i' s' cap' kont)
  | Opt a =>
      match run a i s cap kont with
      | Some res => Some res
      | None => kont i s cap
      end
  | Star true k => star_greedy k i s (fun i' s' => kont i' s' cap)
  | Star false k => star_lazy k i s (fun i' s' => kont i' s' cap)
  | Group a => run a i s cap (fun i' s' _ => kont i' s' (Some (firstn (i' - i) s)))
  | Bol => if Nat.eqb i 0 then kont i s cap else None
  end.

Definition accept : cont := fun i _ cap => Some (i, cap).

(** A match, as the array returned by [exec] / [match]. *)
Record match_result := MatchResult {
  index : nat;                 (* match.index *)
  matched : jsstring;          (* match[0] *)
  group1 : option jsstring     (* match[1] *)
}.

(** First match at or after index [i], where [s] is the subject from [i] on. *)
Fixpoint exec_from (r : re) (i : nat) (s : jsstring) : option match_result :=
  match run r i s None accept with
  | Some (e, cap) => Some (MatchResult i (firstn (e - i) s) cap)
  | None =>
      match s with
      | [] => None
      | _ :: s' => exec_from r (S i) s'
      end
  end.

(** [str.match(r)] for a pattern without the [g] flag. *)
Definition exec (r : re) (s : jsstring) : option match_result := exec_from r 0 s.

(** [match[1]], the empty string standing for an unset group. *)
Definition capture1 (m : match_result) : jsstring :=
  match group1 m with Some c => c | None => [] end.

(** [str.replace(r, "$1")] for a pattern with the [g] flag: every match, from
    left to right and without overlap, is replaced by its capture 1.  After
    an empty match the search resumes one code unit further. *)
Fixpoint replace_loop (fuel : nat) (r : re) (i : nat) (s : jsstring) : jsstring :=
  match fuel with
  | 0 => s
  | S fuel' =>
      match exec_from r i s with
      | None => s
      | Some mr =>
          let len := length (matched mr) in
          let before := firstn (index mr - i) s in
          let after := skipn (index mr - i + len) s in
          before ++ capture1 mr ++
            (if Nat.eqb len 0 then
               match after with
               | [] => []
               | c :: after' => c :: replace_loop fuel' r (S (index mr)) after'
               end
             else replace_loop fuel' r (index mr + len) after)
      end
  end.

Definition replace_all_group1 (r : re) (s : jsstring) : jsstring :=
  replace_loop (S (length s)) r 0 s.

End Regex.

Import Regex.

Declare Scope re_scope.
Delimit Scope re_scope with re.
Infix ";;" := Seq (at level 61, right associativity) : re_scope.

(** ** The patterns of ActionBlockStreamer *)

Definition open_tag : jsstring := lit "<writeToFile>".
Definition close_tag : jsstring := lit "</writeToFile>".
Definition fence : jsstring := lit "```".

(** [/```(?:xml)?\s*([\s\S]*?<writeToFile>[\s\S]*?<\/writeToFile>[\s\S]*?)\s*```/g] *)
Definition fence_re : re :=
  (Lit fence ;; Opt (Lit (lit "xml")) ;; Star true Space ;;
   Group (Star false AnyChar ;; Lit open_tag ;; Star false AnyChar ;;
          Lit close_tag ;; Star false AnyChar) ;;
   Star true Space ;; Lit fence)%re.

(** [/<writeToFile>[\s\S]*?<\/writeToFile>/] *)
Definition block_re : re :=
  (Lit open_tag ;; Star false AnyChar ;; Lit close_tag)%re.

(** [/^\s*```/] *)
Definition trailing_fence_re : re :=
  (Bol ;; Star true Space ;; Lit fence)%re.

(** [/<path>([\s\S]*?)<\/path>/] *)
Definition path_re : re :=
  (Lit (lit "<path>") ;; Group (Star false AnyChar) ;; Lit (lit "</path>"))%re.

(** [/<content>([\s\S]*?)<\/content>/] *)
Definition content_re : re :=
  (Lit (lit "<content>") ;; Group (Star false AnyChar) ;; Lit (lit "</content>"))%re.

(** ** stripCodeFences and findCompleteBlock *)

Definition stripCodeFences (str : jsstring) : jsstring :=
  replace_all_group1 fence_re str.

Record block_info := BlockInfo {
  block : jsstring;
  endIdx : Z
}.

Definition findCompleteBlock (str : jsstring) : option block_info :=
  let cleaned := stripCodeFences str in
  match exec block_re cleaned with
  | None => None
  | Some mt =>
      let writeToFileEnd := (indexOf str close_tag + Z.of_nat (length close_tag))%Z in
      let afterBlock := substring str writeToFileEnd in
      let fenceMatch := exec trailing_fence_re afterBlock in
      let actualEndIdx :=
        (writeToFileEnd +
         match fenceMatch with
         | Some fm => Z.of_nat (length (matched fm))
         | None => 0
         end)%Z in
      Some (BlockInfo (matched mt) actualEndIdx)
  end.

(** ** Chunks, the tool and processChunk *)

(** A value thrown by the tool: its [message] property when it has one, and
    its conversion to a string. *)
Record thrown := Thrown {
  message : option jsstring;
  to_string : jsstring
}.

Inductive outcome (A : Type) :=
| Returns (a : A)
| Throws (e : thrown).
Arguments Returns {A} a.
Arguments Throws {A} e.

(** [err?.message || err], inside a template literal. *)
Definition error_text (e : thrown) : jsstring :=
  match message e with
  | Some (c :: m) => c :: m
  | _ => to_string e
  end.

(** The argument object handed to [toolManager.callTool]. *)
Record tool_args := ToolArgs {
  path : jsstring;
  content : jsstring;
  confirmation : bool
}.

(** An element of a structured chunk payload. *)
Record item := Item {
  item_type : jsstring;
  item_text : option jsstring      (* [None]: null or undefined *)
}.

Inductive payload :=
| Absent                            (* null or undefined *)
| Text (s : jsstring)
| Segments (items : list item).

Section Streamer.

(** The fields of a chunk other than [content]. *)
Variable Extra : Type.

Record chunk := Chunk {
  chunk_content : payload;
  chunk_rest : Extra
}.

(** The tool layer: [ToolManager.callTool(writeToFileTool, args)] acts on a
    world outside the streamer and returns or throws;
    [ToolResultFormatter.format("writeToFile", result)] renders a result. *)
Variable World : Type.
Variable Result : Type.
Variable callTool : World -> tool_args -> outcome Result * World.
Variable format : jsstring -> Result -> outcome jsstring.

(** What a consumer of the generator observes, in order. *)
Inductive event :=
| Yield (c : chunk)
| Call (a : tool_args).

(** [item.type === "text"] *)
Definition is_text_item (it : item) : bool :=
  jsstring_eqb (item_type it) (lit "text").

(** Lines 61-74: the text a chunk contributes. *)
Definition chunkContent (c : chunk) : jsstring :=
  match chunk_content c with
  | Segments items =>
      fold_left
        (fun acc it =>
           if is_text_item it then
             match item_text it with
             | Some t => acc ++ t
             | None => acc
             end
           else acc)
        items []
  | Text s => s
  | Absent => []
  end.

(** [{ ...chunk, content: text }] *)
Definition with_content (c : chunk) (text : jsstring) : chunk :=
  Chunk (Text text) (chunk_rest c).

Definition newline : jsstring := lit (String (ascii_of_nat 10) EmptyString).

(** [o || ""] *)
Definition or_empty (o : option jsstring) : jsstring :=
  match o with
  | Some s => s
  | None => []
  end.

(** Lines 91-94. *)
Definition filePath (blk : jsstring) : option jsstring :=
  option_map (fun m => trim (capture1 m)) (exec path_re blk).

Definition fileContent (blk : jsstring) : option jsstring :=
  option_map (fun m => trim (capture1 m)) (exec content_re blk).

(** Lines 121-126: the text of the status chunk, after a result or after a
    thrown error. *)
Definition status_text (res : outcome Result) : jsstring :=
  match res with
  | Returns result =>
      match format (lit "writeToFile") result with
      | Returns formattedResult => newline ++ formattedResult ++ newline
      | Throws err => newline ++ lit "Error: " ++ error_text err ++ newline
      end
  | Throws err => newline ++ lit "Error: " ++ error_text err ++ newline
  end.

(** Lines 114-127: the call and the status chunk it gives. *)
Definition dispatch (c : chunk) (w : World) (a : tool_args) : list event * World :=
  let '(res, w') := callTool w a in
  ([Call a; Yield (with_content c (status_text res))], w').

(** Lines 85-134: the loop over the complete blocks of the buffer.  [None]
    means the fuel ran out before the loop ended. *)
Fixpoint blocks_loop (fuel : nat) (c : chunk) (w : World) (buffer : jsstring)
  : option (list event * World * jsstring) :=
  match findCompleteBlock buffer with
  | None => Some ([], w, buffer)
  | Some blockInfo =>
      match fuel with
      | 0 => None
      | S fuel' =>
          let blk := block blockInfo in
          match filePath blk with
          | Some (p0 :: p) =>
              let '(evs, w') :=
                dispatch c w (ToolArgs (p0 :: p) (or_empty (fileContent blk)) false) in
              match blocks_loop fuel' c w' (substring buffer (endIdx blockInfo)) with
              | Some (evs', w'', buffer') => Some (evs ++ evs', w'', buffer')
              | None => None
              end
          | _ =>
              (* [!filePath]: no match, or an empty path *)
              blocks_loop fuel' c w (substring buffer (endIdx blockInfo))
          end
      end
  end.

(** The loop started with fuel for every code unit of the buffer. *)
Definition run_blocks (c : chunk) (w : World) (buffer : jsstring) :=
  blocks_loop (S (length buffer)) c w buffer.

(** The streamer owns the buffer; the world belongs to the tool. *)
Record state := State {
  buffer : jsstring;
  world : World
}.

Definition processChunk (st : state) (c : chunk) : option (list event * state) :=
  let text := chunkContent c in
  let buf := match text with [] => buffer st | _ => buffer st ++ text end in
  match run_blocks c (world st) buf with
  | Some (evs, w, buf') => Some (Yield c :: evs, State buf' w)
  | None => None
  end.

(** A stream: the chunks are processed one after the other. *)
Fixpoint processStream (st : state) (cs : list chunk) : option (list event * state) :=
  match cs with
  | [] => Some ([], st)
  | c :: cs' =>
      match processChunk st c with
      | Some (evs, st') =>
          match processStream st' cs' with
          | Some (evs', st'') => Some (evs ++ evs', st'')
          | None => None
          end
      | None => None
      end
  end.

(** The text all the chunks of a stream contribute. *)
Definition texts (cs : list chunk) : jsstring :=
  concat (map chunkContent cs).

(** The tool invocations of a trace, in order. *)
Definition calls (evs : list event) : list tool_args :=
  flat_map (fun e => match e with Call a => [a] | Yield _ => [] end) evs.

(** The dispatch outcomes of a trace: each invocation with the payload of
    the status chunk yielded right after it. *)
Fixpoint dispatches (evs : list event) : list (tool_args * payload) :=
  match evs with
  | Call a :: evs' =>
      match evs' with
      | Yield s :: _ => [(a, chunk_content s)]
      | _ => []
      end ++ dispatches evs'
  | Yield _ :: evs' => dispatches evs'
  | [] => []
  end.

(** The event with the fields of its chunk other than [content] replaced. *)
Definition rechunk (r : Extra) (e : event) : event :=
  match e with
  | Yield s => Yield (Chunk (chunk_content s) r)
  | Call a => Call a
  end.

(** A status chunk of [c]: the chunk with its content replaced by a text. *)
Definition status_of (c : chunk) (e : event) : Prop :=
  match e with
  | Yield c' => exists text, c' = with_content c text
  | Call _ => True
  end.

(** One turn of the loop on a block: skipped without a path, dispatched
    with one. *)
Definition handle_block (c : chunk) (w : World) (blk : jsstring) : list event * World :=
  match filePath blk with
  | Some (p0 :: p) =>
      dispatch c w (ToolArgs (p0 :: p) (or_empty (fileContent blk)) false)
  | _ => ([], w)
  end.

(** What the loop is expected to dispatch for one block: nothing without a
    path, one invocation and its status text with one. *)
Definition block_outcome (w : World) (blk : jsstring) : list (tool_args * payload) :=
  match filePath blk with
  | Some (p0 :: p) =>
      let a := ToolArgs (p0 :: p) (or_empty (fileContent blk)) false in
      [(a, Text (status_text (fst (callTool w a))))]
  | _ => []
  end.

End Streamer.

Arguments Call {Extra} a.
Arguments Yield {Extra} c.

(** ** Specification vocabulary *)

(** [needle] occurs somewhere in [s]. *)
Definition occurs (needle s : jsstring) : Prop :=
  exists u v, s = u ++ needle ++ v.

(** The first occurrence of [needle] in [s] is at index [n]. *)
Definition first_at (needle s : jsstring) (n : nat) : Prop :=
  n <= length s /\
  starts_with needle (skipn n s) = true /\
  forall j, j < n -> starts_with needle (skipn j s) = false.

(** The words a pattern can match, without regard to priorities. *)
Fixpoint lang (r : re) (w : jsstring) : Prop :=
  match r with
  | Lit l => w = l
  | Seq a b => exists u v, w = u ++ v /\ lang a u /\ lang b v
  | Opt a => w = [] \/ lang a w
  | Star _ k => forallb (in_cls k) w = true
  | Group a => lang a w
  | Bol => w = []
  end.

(** What follows the run of class characters does not belong to the class. *)
Definition stops (k : cls) (rest : jsstring) : Prop :=
  match rest with
  | c :: _ => in_cls k c = false
  | [] => True
  end.

(** No code unit of [s] is [h]. *)
Definition free_of (h : char) (s : jsstring) : bool :=
  forallb (fun c => negb (N.eqb h c)) s.

(** [s] is empty or starts with "<". *)
Definition begins_with_lt (s : jsstring) : Prop :=
  match s with
  | c :: _ => c = 60%N
  | [] => True
  end.

(** [p] starts nowhere in the part [a] of [a ++ s]. *)
Definition never_starts (p a s : jsstring) : Prop :=
  forall j, j < length a -> starts_with p (skipn j (a ++ s)) = false.

(** [s] holds a complete block: an opening tag and, after it, a closing tag. *)
Definition has_block (s : jsstring) : Prop :=
  exists u b v, s = u ++ open_tag ++ b ++ close_tag ++ v.

(** A directive block: the opening tag, a body, and the first closing tag
    that follows. *)
Definition directive_block (b : jsstring) : Prop :=
  exists body,
    b = open_tag ++ body ++ close_tag /\
    first_at close_tag (body ++ close_tag) (length body).

(** The executable form of [directive_block]: [b] starts with the opening
    tag, and the first closing tag after it ends [b]. *)
Definition is_directive_block (b : jsstring) : bool :=
  starts_with open_tag b &&
  (indexOf (skipn (length open_tag) b) close_tag
   =? Z.of_nat (length (skipn (length open_tag) b) - length close_tag))%Z.

(** A directive block wrapped in a code fence: the opening marker, with or
    without the [xml] tag, white space, the block, white space, the closing
    marker. *)
Definition fenced (xml : bool) (ws1 ws2 blk : jsstring) : jsstring :=
  fence ++ (if xml then lit "xml" else []) ++ ws1 ++ blk ++ ws2 ++ fence.

(** [t] does not start with white space. *)
Definition no_space_head (t : jsstring) : Prop :=
  match t with
  | c :: _ => is_space c = false
  | [] => True
  end.

(** [t] is [raw] without its leading and trailing white space. *)
Definition is_trim_of (raw t : jsstring) : Prop :=
  exists l r,
    raw = l ++ t ++ r /\
    forallb is_space l = true /\ forallb is_space r = true /\
    no_space_head t /\ no_space_head (rev t).

(** [raw] is the text of [blk] between an opening tag [o] and the first
    closing tag [cl] after it. *)
Definition between_tags (o cl blk raw : jsstring) : Prop :=
  exists pre post,
    blk = pre ++ o ++ raw ++ cl ++ post /\
    never_starts cl raw (cl ++ post).

(** The content handed to the tool for a block: the trimmed text between
    the content tags, the empty string without a content field. *)
Definition content_argument (blk cont : jsstring) : Prop :=
  match exec content_re blk with
  | None => cont = []
  | Some cm =>
      exists raw,
        group1 cm = Some raw /\
        between_tags (lit "<content>") (lit "</content>") blk raw /\
        cont = trim raw /\
        is_trim_of raw cont /\
        (forallb is_space raw = true -> cont = [])
  end.

(** The field grammar as the specification words it: inside the block, a
    path field and then a content field.
    [/<writeToFile>[\s\S]*?<path>[\s\S]*?<\/path>[\s\S]*?<content>[\s\S]*?<\/content>[\s\S]*?<\/writeToFile>/] *)
Definition fixed_order_re : re :=
  (Lit open_tag ;; Star false AnyChar ;;
   Lit (lit "<path>") ;; Star false AnyChar ;; Lit (lit "</path>") ;;
   Star false AnyChar ;;
   Lit (lit "<content>") ;; Star false AnyChar ;; Lit (lit "</content>") ;;
   Star false AnyChar ;; Lit close_tag)%re.

Definition satisfies_fixed_order (blk : jsstring) : bool :=
  match exec fixed_order_re blk with
  | Some _ => true
  | None => false
  end.

(** Blocks with the two fields in either order, with free text around them. *)
Definition path_first (x p y c z : jsstring) : jsstring :=
  open_tag ++ x ++ lit "<path>" ++ p ++ lit "</path>" ++ y ++
  lit "<content>" ++ c ++ lit "</content>" ++ z ++ close_tag.

Definition content_first (x p y c z : jsstring) : jsstring :=
  open_tag ++ x ++ lit "<content>" ++ c ++ lit "</content>" ++ y ++
  lit "<path>" ++ p ++ lit "</path>" ++ z ++ close_tag.

(** ** Sample data *)

(** A tool that counts its invocations, returns the content it was given
    and fails on the path [full.md]. *)
Definition sample_callTool (w : nat) (a : tool_args) : outcome jsstring * nat :=
  (if jsstring_eqb (path a) (lit "full.md")
   then Throws (Thrown (Some (lit "disk full")) (lit "Error: disk full"))
   else Returns (content a),
   S w).

Definition sample_format (name : jsstring) (r : jsstring) : outcome jsstring :=
  Returns (name ++ lit ": " ++ r).

Definition sample_chunk (text : string) : chunk unit := Chunk (Text (lit text)) tt.

Definition sample_state (text : string) : state nat := State (lit text) 0.

Definition sample_processChunk := processChunk sample_callTool sample_format (Extra := unit).
Definition sample_processStream := processStream sample_callTool sample_format (Extra := unit).
Definition sample_run_blocks := run_blocks sample_callTool sample_format (Extra := unit).

(** A complete block. *)
Definition sample_block : jsstring :=
  lit "<writeToFile><path>a.md</path><content>hi</content></writeToFile>".

(** A stray closing tag followed by one complete block. *)
Definition stray_input : jsstring := close_tag ++ sample_block.

(** A complete block without a path field, followed by more text. *)
Definition nopath_block : jsstring :=
  lit "<writeToFile><content>x</content></writeToFile>".

Definition nopath_buffer : jsstring := nopath_block ++ lit "after".


(** A complete block with a path and no content field. *)
Definition nocontent_block : jsstring :=
  lit "<writeToFile><path>a.md</path></writeToFile>".

(** A block with its content field before its path field. *)
Definition content_first_block : jsstring :=
  lit "<writeToFile><content>hi</content><path>a.md</path></writeToFile>".

(** A complete block with white space around its path and content. *)
Definition padded_block : jsstring :=
  lit "<writeToFile><path> a.md </path><content>  </content></writeToFile>".


(** ** The patterns as scans *)

(** A tag pair pattern with its capture, as [path_re] and [content_re]. *)
Definition tag_pair_re (o cl : jsstring) : re :=
  (Lit o ;; Group (Star false AnyChar) ;; Lit cl)%re.

(** The scan with two indices that a lazy tag pair pattern amounts to: the
    first [o] of [s], then the first [cl] after it.  The result is the index
    of [o] and the text between the two. *)
Definition scan_between (o cl s : jsstring) : option (nat * jsstring) :=
  let n := indexOf s o in
  if (n <? 0)%Z then None
  else
    let rest := substring s (n + Z.of_nat (length o)) in
    let m := indexOf rest cl in
    if (m <? 0)%Z then None
    else Some (Z.to_nat n, firstn (Z.to_nat m) rest).

(** What [/^\s*```/] takes from the text after a closing tag: the leading
    white space and the marker when the marker follows it, nothing
    otherwise. *)
Definition fence_tail (after : jsstring) : nat :=
  if starts_with fence (trimStart after)
  then length after - length (trimStart after) + length fence
  else 0.

(** The number of backticks of [s]. *)
Definition ticks (s : jsstring) : nat :=
  length (filter (N.eqb 96) s).

(** ** Traces and buffers of well-formed streams *)

(** [t] has no white space at either end. *)
Definition trimmed (t : jsstring) : Prop :=
  no_space_head t /\ no_space_head (rev t).

(** The shape of every argument object the loop builds. *)
Definition well_formed_args (a : tool_args) : Prop :=
  path a <> [] /\ trimmed (path a) /\ trimmed (content a) /\
  confirmation a = false.

(** A status text: something between two line feeds. *)
Definition framed (text : jsstring) : Prop :=
  exists body,
    text = newline ++ body ++ newline.

(** The text of the text items of a structured payload, in order. *)
Definition segments_text (items : list item) : jsstring :=
  flat_map
    (fun it =>
       if jsstring_eqb (item_type it) (lit "text")
       then match item_text it with Some t => t | None => [] end
       else [])
    items.

(** An item of well-formed text: text without "<", then a directive block. *)
Definition plain_item (it : jsstring * jsstring) : Prop :=
  free_of 60 (fst it) = true /\ directive_block (snd it).

(** Plain text followed by a block, any number of times. *)
Definition join_items (items : list (jsstring * jsstring)) : jsstring :=
  flat_map (fun it => fst it ++ snd it) items.

Section Traces.

Variable Extra : Type.
Variable World : Type.
Variable Result : Type.
Variable callTool : World -> tool_args -> outcome Result * World.
Variable format : jsstring -> Result -> outcome jsstring.

(** An invocation and the status chunk that reports it. *)
Definition status_pair (c : chunk Extra) (d : tool_args * jsstring) : list (event Extra) :=
  [Call (fst d); Yield (with_content c (snd d))].

(** What one chunk gives: the chunk itself, then a pair per dispatch. *)
Definition chunk_trace (c : chunk Extra) (ds : list (tool_args * jsstring))
  : list (event Extra) :=
  Yield c :: flat_map (status_pair c) ds.


(** The turns of the loop on a list of blocks, one after the other, each on
    the world the one before left. *)
Fixpoint handle_blocks (c : chunk Extra) (w : World) (bs : list jsstring)
  : list (event Extra) * World :=
  match bs with
  | [] => ([], w)
  | b :: bs' =>
      let '(evs, w') := handle_block callTool format c w b in
      let '(evs', w'') := handle_blocks c w' bs' in
      (evs ++ evs', w'')
  end.

End Traces.


(** A structured payload: two text items around an image item and a text
    item without text. *)
Definition sample_items : list item :=
  [Item (lit "text") (Some (lit "<writeToFile><path>a.md</path>"));
   Item (lit "image_url") (Some (lit "ignored"));
   Item (lit "text") None;
   Item (lit "text") (Some (lit "<content>hi</content></writeToFile>"))].

(** Two blocks in plain text, with text left after the second. *)
Definition sample_two_blocks : list (jsstring * jsstring) :=
  [(lit "First: ", sample_block); (lit " then ", padded_block)].

(** The text of [sample_two_blocks] with a rest after the second block. *)
Definition sample_two_blocks_text : jsstring :=
  join_items sample_two_blocks ++ lit " rest".

(** A fenced block between plain text. *)
Definition sample_fenced_buffer : jsstring :=
  lit "see ```xml <writeToFile><path>a.md</path><content>hi</content></writeToFile> ``` done".

(** A bare block followed by a line with a fence marker. *)
Definition sample_block_then_fence : jsstring :=
  lit "ok: " ++ sample_block ++ lit "  ``` done".

(** A stray closing tag in front of a complete block with a path and no
    content field. *)
Definition stray_nocontent_input : jsstring := close_tag ++ nocontent_block.

(** A block whose content mentions the closing tag. *)
Definition doc_block : jsstring :=
  lit "<writeToFile><path>doc.md</path><content>end with </writeToFile> here</content></writeToFile>".

(** What [doc_block] leaves in the buffer. *)
Definition doc_rest : jsstring := lit " here</content></writeToFile>".

(** Text with a stray closing tag in front of a block without a path. *)
Definition pathless_pre : jsstring := lit "</writeToFile> note: ".

(** What follows the block without a path: a marker, then a complete block. *)
Definition pathless_tail : jsstring := lit " ``` then " ++ sample_block.

(** ** Facts about strings *)

Unset Implicit Arguments.

Lemma starts_with_app (p s : jsstring) : starts_with p (p ++ s) = true.
Proof.
  induction p as [|a p IH]; simpl; [reflexivity|].
  now rewrite N.eqb_refl, IH.
Qed.

Lemma starts_with_split (p s : jsstring) :
  starts_with p s = true -> s = p ++ skipn (length p) s.
Proof.
  revert s; induction p as [|a p IH]; intros [|b s]; simpl; try easy.
  intros H. apply andb_true_iff in H as [Hab Hps].
  apply N.eqb_eq in Hab. subst b. f_equal. now apply IH.
Qed.

Lemma starts_with_length (p s : jsstring) :
  starts_with p s = true -> length p <= length s.
Proof.
  intros H. rewrite (starts_with_split _ _ H), length_app. lia.
Qed.

Lemma starts_with_occurs (p s : jsstring) (n : nat) :
  starts_with p (skipn n s) = true -> occurs p s.
Proof.
  intros H. exists (firstn n s), (skipn (length p) (skipn n s)).
  rewrite <- (starts_with_split _ _ H). symmetry. apply firstn_skipn.
Qed.

Lemma occurs_starts_with (p u v : jsstring) :
  starts_with p (skipn (length u) (u ++ p ++ v)) = true.
Proof.
  rewrite skipn_app, skipn_all, Nat.sub_diag. simpl. apply starts_with_app.
Qed.

Lemma not_occurs_starts_with (p s : jsstring) (n : nat) :
  ~ occurs p s -> starts_with p (skipn n s) = false.
Proof.
  intros H. destruct (starts_with p (skipn n s)) eqn:E; [|reflexivity].
  exfalso. eauto using starts_with_occurs.
Qed.

Lemma indexOf_from_first_at (needle s : jsstring) (n : nat) (i : Z) :
  first_at needle s n -> indexOf_from needle s i = (i + Z.of_nat n)%Z.
Proof.
  revert s i; induction n as [|n IH]; intros s i (Hlen & Hat & Hbefore).
  - simpl in Hat. destruct s; simpl in *; rewrite Hat; lia.
  - destruct s as [|a s]; [simpl in Hlen; lia|].
    pose proof (Hbefore 0 ltac:(lia)) as H0. simpl skipn in H0.
    cbn [indexOf_from]. rewrite H0.
    rewrite (IH s (i + 1)%Z); [lia|].
    repeat split.
    + simpl in Hlen; lia.
    + exact Hat.
    + intros j Hj. apply (Hbefore (S j)). lia.
Qed.

Lemma indexOf_from_absent (needle s : jsstring) (i : Z) :
  (forall j, starts_with needle (skipn j s) = false) ->
  indexOf_from needle s i = (-1)%Z.
Proof.
  revert i; induction s as [|a s IH]; intros i H.
  - simpl. pose proof (H 0) as H0. simpl in H0. now rewrite H0.
  - cbn [indexOf_from]. pose proof (H 0) as H0. simpl in H0. rewrite H0.
    apply IH. intros j. apply (H (S j)).
Qed.

Lemma indexOf_from_cases (needle s : jsstring) (i : Z) :
  (indexOf_from needle s i = (-1)%Z /\
   forall j, starts_with needle (skipn j s) = false) \/
  (exists n, first_at needle s n /\ indexOf_from needle s i = (i + Z.of_nat n)%Z).
Proof.
  revert i; induction s as [|a s IH]; intros i.
  - cbn [indexOf_from]. destruct (starts_with needle []) eqn:E.
    + right. exists 0. split; [|lia]. repeat split; simpl; auto. intros; lia.
    + left. split; [reflexivity|]. intros [|j]; exact E.
  - cbn [indexOf_from]. destruct (starts_with needle (a :: s)) eqn:E.
    + right. exists 0. split; [|lia]. repeat split; simpl; auto; [lia|]. intros; lia.
    + destruct (IH (i + 1)%Z) as [[Hm Hno]|(n & (Hlen & Hat & Hbefore) & Hidx)].
      * left. split; [exact Hm|]. intros [|j]; [exact E| apply Hno].
      * right. exists (S n). split; [|lia].
        repeat split; simpl; [lia|exact Hat|].
        intros [|j] Hj; [exact E| apply Hbefore; lia].
Qed.

Lemma indexOf_lower_bound (s needle : jsstring) : (-1 <= indexOf s needle)%Z.
Proof.
  unfold indexOf.
  destruct (indexOf_from_cases needle s 0) as [[-> _]|(n & _ & ->)]; lia.
Qed.

Lemma indexOf_absent (s needle : jsstring) :
  ~ occurs needle s -> indexOf s needle = (-1)%Z.
Proof.
  intros H. apply indexOf_from_absent. intros j.
  now apply not_occurs_starts_with.
Qed.

(** ** Facts about the matcher *)

Lemma star_lazy_sound k i s kont r :
  star_lazy k i s kont = Some r ->
  exists n, n <= length s /\
            forallb (in_cls k) (firstn n s) = true /\
            kont (i + n) (skipn n s) = Some r /\
            forall j, j < n -> kont (i + j) (skipn j s) = None.
Proof.
  revert i; induction s as [|c s IH]; intros i H; cbn [star_lazy] in H.
  - destruct (kont i []) eqn:E; [|discriminate].
    exists 0. rewrite Nat.add_0_r. simpl. repeat split; try lia; congruence.
  - destruct (kont i (c :: s)) eqn:E.
    + exists 0. rewrite Nat.add_0_r. simpl. repeat split; try lia; congruence.
    + destruct (in_cls k c) eqn:Ec; [|discriminate].
      apply IH in H as (n & Hn & Hall & Hk & Hmin).
      exists (S n). simpl. rewrite Ec, Nat.add_succ_r.
      repeat split; try lia; auto.
      intros [|j] Hj.
      * now rewrite Nat.add_0_r.
      * rewrite Nat.add_succ_r. apply Hmin. lia.
Qed.

Lemma star_lazy_complete k i s kont n r :
  n <= length s ->
  forallb (in_cls k) (firstn n s) = true ->
  (forall j, j < n -> kont (i + j) (skipn j s) = None) ->
  kont (i + n) (skipn n s) = Some r ->
  star_lazy k i s kont = Some r.
Proof.
  revert i s; induction n as [|n IH]; intros i s Hn Hall Hmin Hk.
  - rewrite Nat.add_0_r in Hk. simpl in Hk.
    destruct s; cbn [star_lazy]; now rewrite Hk.
  - destruct s as [|c s]; [simpl in Hn; lia|].
    cbn [star_lazy]. pose proof (Hmin 0 ltac:(lia)) as H0.
    rewrite Nat.add_0_r in H0. simpl in H0. rewrite H0.
    simpl in Hall. apply andb_true_iff in Hall as [Hc Hall]. rewrite Hc.
    apply IH.
    + simpl in Hn; lia.
    + exact Hall.
    + intros j Hj. specialize (Hmin (S j) ltac:(lia)).
      now rewrite Nat.add_succ_r in Hmin.
    + now rewrite Nat.add_succ_r in Hk.
Qed.

Lemma star_lazy_none k i s kont :
  (forall j, kont (i + j) (skipn j s) = None) ->
  star_lazy k i s kont = None.
Proof.
  revert i; induction s as [|c s IH]; intros i H; cbn [star_lazy].
  - pose proof (H 0) as H0. rewrite Nat.add_0_r in H0. simpl in H0. now rewrite H0.
  - pose proof (H 0) as H0. rewrite Nat.add_0_r in H0. simpl in H0. rewrite H0.
    destruct (in_cls k c); [|reflexivity].
    apply IH. intros j. specialize (H (S j)). now rewrite Nat.add_succ_r in H.
Qed.

Lemma star_greedy_sound k i s kont r :
  star_greedy k i s kont = Some r ->
  exists n, n <= length s /\
            forallb (in_cls k) (firstn n s) = true /\
            kont (i + n) (skipn n s) = Some r.
Proof.
  revert i; induction s as [|c s IH]; intros i H; cbn [star_greedy] in H.
  - exists 0. rewrite Nat.add_0_r. simpl. auto.
  - destruct (in_cls k c) eqn:Ec.
    + destruct (star_greedy k (S i) s kont) eqn:E.
      * injection H as <-. apply IH in E as (n & Hn & Hall & Hk).
        exists (S n). simpl. rewrite Ec, Nat.add_succ_r. repeat split; auto; lia.
      * exists 0. rewrite Nat.add_0_r. simpl. repeat split; auto; lia.
    + exists 0. rewrite Nat.add_0_r. simpl. repeat split; auto; lia.
Qed.

Lemma star_greedy_max k i ws rest kont r :
  forallb (in_cls k) ws = true ->
  stops k rest ->
  kont (i + length ws) rest = Some r ->
  star_greedy k i (ws ++ rest) kont = Some r.
Proof.
  revert i; induction ws as [|a ws IH]; intros i Hall Hstop Hk.
  - simpl in *. rewrite Nat.add_0_r in Hk.
    destruct rest as [|c rest]; cbn [star_greedy]; [exact Hk|].
    simpl in Hstop. now rewrite Hstop.
  - simpl in Hall. apply andb_true_iff in Hall as [Ha Hall].
    simpl app. cbn [star_greedy]. rewrite Ha.
    rewrite (IH (S i)); auto.
    simpl in Hk. now rewrite Nat.add_succ_r in Hk.
Qed.

Lemma star_greedy_none k i s kont :
  (forall j, kont (i + j) (skipn j s) = None) ->
  star_greedy k i s kont = None.
Proof.
  revert i; induction s as [|c s IH]; intros i H; cbn [star_greedy].
  - pose proof (H 0) as H0. rewrite Nat.add_0_r in H0. exact H0.
  - pose proof (H 0) as H0. rewrite Nat.add_0_r in H0. simpl in H0.
    destruct (in_cls k c); [|exact H0].
    rewrite IH; [exact H0|].
    intros j. specialize (H (S j)). now rewrite Nat.add_succ_r in H.
Qed.

Lemma firstn_skipn_app (A : Type) (n m : nat) (s : list A) :
  firstn n s ++ firstn m (skipn n s) = firstn (n + m) s.
Proof.
  revert s; induction n as [|n IH]; intros s; simpl; [reflexivity|].
  destruct s as [|a s]; simpl.
  - now rewrite firstn_nil.
  - now rewrite IH.
Qed.

(** Soundness of the matcher: an answer comes from the continuation, called
    after a word of the pattern's language has been read. *)
Lemma run_sound r :
  forall i s cap kont res,
    run r i s cap kont = Some res ->
    exists n cap', n <= length s /\ lang r (firstn n s) /\
                   kont (i + n) (skipn n s) cap' = Some res.
Proof.
  induction r as [l|a IHa b IHb|a IHa|g k|a IHa|]; intros i s cap kont res H;
    cbn [run] in H.
  - destruct (starts_with l s) eqn:E; [|discriminate].
    exists (length l), cap. split; [now apply starts_with_length|]. split; [|exact H].
    simpl. rewrite (starts_with_split _ _ E) at 1.
    now rewrite firstn_app, firstn_all, Nat.sub_diag, firstn_O, app_nil_r.
  - apply IHa in H as (n & cap1 & Hn & La & H).
    apply IHb in H as (m & cap2 & Hm & Lb & H).
    rewrite length_skipn in Hm.
    exists (n + m), cap2. split; [lia|]. split.
    + simpl. exists (firstn n s), (firstn m (skipn n s)).
      now rewrite firstn_skipn_app.
    + rewrite skipn_skipn in H.
      now rewrite Nat.add_assoc, (Nat.add_comm n m).
  - destruct (run a i s cap kont) eqn:E.
    + injection H as <-. apply IHa in E as (n & cap' & Hn & La & H).
      exists n, cap'. simpl. auto.
    + exists 0, cap. rewrite Nat.add_0_r. simpl. repeat split; auto; lia.
  - destruct g.
    + apply star_greedy_sound in H as (n & Hn & Hall & H).
      exists n, cap. simpl. auto.
    + apply star_lazy_sound in H as (n & Hn & Hall & H & _).
      exists n, cap. simpl. auto.
  - apply IHa in H as (n & cap' & Hn & La & H).
    exists n, (Some (firstn (i + n - i) s)). simpl. auto.
  - destruct (Nat.eqb i 0); [|discriminate].
    exists 0, cap. rewrite Nat.add_0_r. simpl. repeat split; auto; lia.
Qed.

Lemma run_accept_sound r i s e cap :
  run r i s None accept = Some (e, cap) ->
  exists n, n <= length s /\ e = i + n /\ lang r (firstn n s).
Proof.
  intros H. apply run_sound in H as (n & cap' & Hn & L & H).
  unfold accept in H. injection H as <- _. eauto.
Qed.

Lemma exec_from_sound r i s mr :
  exec_from r i s = Some mr ->
  exists j n,
    j + n <= length s /\
    index mr = i + j /\
    matched mr = firstn n (skipn j s) /\
    lang r (matched mr) /\
    run r (i + j) (skipn j s) None accept = Some (i + j + n, group1 mr) /\
    forall j', j' < j -> run r (i + j') (skipn j' s) None accept = None.
Proof.
  revert i; induction s as [|c s IH]; intros i H; cbn [exec_from] in H.
  - destruct (run r i [] None accept) as [[e cap]|] eqn:E; [|discriminate].
    injection H as <-. destruct (run_accept_sound _ _ _ _ _ E) as (n & Hn & -> & L).
    exists 0, n. rewrite Nat.add_0_r. simpl in *.
    replace (i + n - i) with n by lia.
    repeat split; auto; try lia.
  - destruct (run r i (c :: s) None accept) as [[e cap]|] eqn:E.
    + injection H as <-. destruct (run_accept_sound _ _ _ _ _ E) as (n & Hn & -> & L).
      exists 0, n. rewrite Nat.add_0_r. cbn [skipn index matched group1].
      replace (i + n - i) with n by lia.
      repeat split; auto; try lia.
    + apply IH in H as (j & n & Hjn & Hidx & Hm & L & Hrun & Hmin).
      exists (S j), n. rewrite Nat.add_succ_r. cbn [skipn].
      repeat split; auto; try (simpl; lia).
      intros [|j'] Hj'.
      * now rewrite Nat.add_0_r.
      * rewrite Nat.add_succ_r. apply Hmin. lia.
Qed.

Lemma exec_from_none r i s :
  (forall j, run r (i + j) (skipn j s) None accept = None) ->
  exec_from r i s = None.
Proof.
  revert i; induction s as [|c s IH]; intros i H; cbn [exec_from].
  - pose proof (H 0) as H0. rewrite Nat.add_0_r in H0. simpl in H0. now rewrite H0.
  - pose proof (H 0) as H0. rewrite Nat.add_0_r in H0. simpl in H0. rewrite H0.
    apply IH. intros j. specialize (H (S j)). now rewrite Nat.add_succ_r in H.
Qed.

Lemma exec_from_found r i s j e cap :
  j <= length s ->
  (forall j', j' < j -> run r (i + j') (skipn j' s) None accept = None) ->
  run r (i + j) (skipn j s) None accept = Some (e, cap) ->
  exec_from r i s = Some (MatchResult (i + j) (firstn (e - (i + j)) (skipn j s)) cap).
Proof.
  revert i s; induction j as [|j IH]; intros i s Hj Hmin Hrun.
  - rewrite Nat.add_0_r in *. simpl in *.
    destruct s; cbn [exec_from]; now rewrite Hrun.
  - destruct s as [|c s]; [simpl in Hj; lia|].
    cbn [exec_from]. pose proof (Hmin 0 ltac:(lia)) as H0.
    rewrite Nat.add_0_r in H0. simpl in H0. rewrite H0.
    rewrite Nat.add_succ_r. cbn [skipn].
    rewrite <- Nat.add_succ_l. apply IH.
    + simpl in Hj; lia.
    + intros j' Hj'. specialize (Hmin (S j') ltac:(lia)).
      now rewrite Nat.add_succ_r in Hmin.
    + now rewrite Nat.add_succ_r in Hrun.
Qed.

Lemma exec_from_occurs r i s mr :
  exec_from r i s = Some mr ->
  exists u v, s = u ++ matched mr ++ v /\ index mr = i + length u.
Proof.
  intros H. apply exec_from_sound in H as (j & n & Hjn & Hidx & Hm & _).
  exists (firstn j s), (skipn n (skipn j s)). split.
  - now rewrite Hm, firstn_skipn, firstn_skipn.
  - rewrite length_firstn. lia.
Qed.

Lemma replace_loop_no_match fuel r i s :
  exec_from r i s = None -> replace_loop fuel r i s = s.
Proof.
  intros H. destruct fuel; cbn [replace_loop]; [reflexivity|]. now rewrite H.
Qed.

(** The fuel of [replace_all_group1] is enough: more fuel gives the same
    string. *)
Lemma replace_loop_fuel r n :
  forall s i f f',
    length s <= n -> n < f -> n < f' ->
    replace_loop f r i s = replace_loop f' r i s.
Proof.
  induction n as [|n IH]; intros s i f f' Hs Hf Hf';
    (destruct f as [|f]; [lia|]); (destruct f' as [|f']; [lia|]);
    cbn [replace_loop];
    destruct (exec_from r i s) as [mr|] eqn:E; try reflexivity;
    apply exec_from_sound in E as (j & k & Hjk & Hidx & Hm & _);
    assert (Hlen : length (matched mr) = k)
      by (rewrite Hm, length_firstn, length_skipn; lia);
    rewrite Hlen; replace (index mr - i) with j by lia;
    f_equal; f_equal.
  - destruct s; [|simpl in Hs; lia]. simpl in Hjk.
    replace k with 0 by lia. now rewrite skipn_nil.
  - destruct (Nat.eqb_spec k 0) as [->|Hk].
    + destruct (skipn (j + 0) s) as [|c after'] eqn:Ea; [reflexivity|].
      f_equal. apply (f_equal (@length char)) in Ea.
      rewrite length_skipn in Ea. simpl in Ea. apply IH; lia.
    + apply IH; try lia. rewrite length_skipn. lia.
Qed.

(** ** Facts about the patterns of the streamer *)

Lemma lang_block_re w :
  lang block_re w -> exists body, w = open_tag ++ body ++ close_tag.
Proof.
  cbn [lang block_re].
  intros (u & v & -> & -> & (x & y & -> & _ & ->)). now exists x.
Qed.

Lemma lang_fence_re w :
  lang fence_re w ->
  exists x bd y, w = x ++ open_tag ++ bd ++ close_tag ++ y ++ fence.
Proof.
  cbn [lang fence_re].
  intros (u1 & v1 & -> & -> & (u2 & v2 & -> & _ & (u3 & v3 & -> & _ &
          (u4 & v4 & -> & G & (u5 & v5 & -> & _ & ->))))).
  destruct G as (a & g1 & -> & _ & (o & g2 & -> & -> & (bd & g3 & -> & _ &
          (cl & cc & -> & -> & _)))).
  exists (fence ++ u2 ++ u3 ++ a), bd, (cc ++ u5).
  now rewrite <- !app_assoc.
Qed.

Lemma block_match_has_block i s mr :
  exec_from block_re i s = Some mr -> has_block s.
Proof.
  intros H. pose proof (exec_from_sound _ _ _ _ H) as (_ & _ & _ & _ & _ & L & _).
  apply exec_from_occurs in H as (u & v & -> & _).
  apply lang_block_re in L as (body & ->).
  exists u, body, v. now rewrite <- !app_assoc.
Qed.

Lemma fence_match_has_block i s mr :
  exec_from fence_re i s = Some mr ->
  exists u b v, s = u ++ open_tag ++ b ++ close_tag ++ v /\ 3 <= length v.
Proof.
  intros H. pose proof (exec_from_sound _ _ _ _ H) as (_ & _ & _ & _ & _ & L & _).
  apply exec_from_occurs in H as (u & v & -> & _).
  apply lang_fence_re in L as (x & bd & y & ->).
  exists (u ++ x), bd, (y ++ fence ++ v). split.
  - now rewrite <- !app_assoc.
  - rewrite !length_app. simpl. lia.
Qed.

Lemma has_block_close s : has_block s -> occurs close_tag s.
Proof.
  intros (u & b & v & ->). exists (u ++ open_tag ++ b), v.
  now rewrite <- !app_assoc.
Qed.

Lemma has_block_app_l s t : has_block s -> has_block (s ++ t).
Proof.
  intros (u & b & v & ->). exists u, b, (v ++ t). now rewrite <- !app_assoc.
Qed.

Lemma stripCodeFences_no_block s :
  ~ has_block s -> stripCodeFences s = s.
Proof.
  intros H. apply replace_loop_no_match.
  destruct (exec_from fence_re 0 s) eqn:E; [|reflexivity].
  exfalso. apply fence_match_has_block in E as (u & b & v & -> & _).
  apply H. now exists u, b, v.
Qed.

(** Without an opening tag followed by a closing tag no block is found. *)
Lemma findCompleteBlock_no_block s :
  ~ has_block s -> findCompleteBlock s = None.
Proof.
  intros H. unfold findCompleteBlock. rewrite (stripCodeFences_no_block _ H).
  unfold exec. destruct (exec_from block_re 0 s) eqn:E; [|reflexivity].
  exfalso. eauto using block_match_has_block.
Qed.

(** Without a closing tag in the buffer no block is found. *)
Lemma findCompleteBlock_no_close s :
  ~ occurs close_tag s -> findCompleteBlock s = None.
Proof.
  intros H. apply findCompleteBlock_no_block. contradict H. now apply has_block_close.
Qed.

Lemma findCompleteBlock_nil : findCompleteBlock [] = None.
Proof. reflexivity. Qed.

(** The end offset is positive, so consuming a block shortens the buffer. *)
Lemma findCompleteBlock_endIdx s bi :
  findCompleteBlock s = Some bi -> (13 <= endIdx bi)%Z.
Proof.
  unfold findCompleteBlock.
  destruct (exec block_re (stripCodeFences s)); [|discriminate].
  intros H. injection H as <-. cbn [endIdx].
  pose proof (indexOf_lower_bound s close_tag).
  change (Z.of_nat (length close_tag)) with 14%Z.
  destruct (exec trailing_fence_re _); lia.
Qed.

Lemma findCompleteBlock_shrinks s bi :
  findCompleteBlock s = Some bi ->
  length (substring s (endIdx bi)) < length s.
Proof.
  intros H. pose proof (findCompleteBlock_endIdx _ _ H) as Hge.
  unfold substring. rewrite length_skipn.
  destruct s as [|c s]; [now rewrite findCompleteBlock_nil in H|].
  simpl length. lia.
Qed.


(** *** The block pattern finds a block whenever there is one *)

Lemma exec_from_none_inv r i s :
  exec_from r i s = None ->
  forall j, j <= length s -> run r (i + j) (skipn j s) None accept = None.
Proof.
  revert i; induction s as [|c s IH]; intros i H j Hj; cbn [exec_from] in H.
  - simpl in Hj. assert (j = 0) as -> by lia. rewrite Nat.add_0_r. simpl.
    destruct (run r i [] None accept) as [[e cap]|]; [discriminate|reflexivity].
  - destruct (run r i (c :: s) None accept) as [[e cap]|] eqn:E; [discriminate|].
    destruct j as [|j].
    + now rewrite Nat.add_0_r.
    + rewrite Nat.add_succ_r. apply (IH (S i) H j). simpl in Hj. lia.
Qed.

Lemma star_lazy_none_inv k i s kont :
  star_lazy k i s kont = None ->
  forall n, n <= length s ->
            forallb (in_cls k) (firstn n s) = true ->
            kont (i + n) (skipn n s) = None.
Proof.
  revert i; induction s as [|c s IH]; intros i H n Hn Hall; cbn [star_lazy] in H.
  - simpl in Hn. assert (n = 0) as -> by lia. rewrite Nat.add_0_r. simpl.
    destruct (kont i []); [discriminate|reflexivity].
  - destruct (kont i (c :: s)) eqn:E; [discriminate|].
    destruct n as [|n].
    + now rewrite Nat.add_0_r.
    + simpl in Hall. apply andb_true_iff in Hall as [Hc Hall]. rewrite Hc in H.
      rewrite Nat.add_succ_r. apply (IH (S i) H n); [simpl in Hn; lia|exact Hall].
Qed.

Lemma forallb_AnyChar (s : jsstring) : forallb (in_cls AnyChar) s = true.
Proof. induction s; simpl; auto. Qed.

Lemma run_block_re i s :
  run block_re i s None accept =
  if starts_with open_tag s then
    star_lazy AnyChar (i + length open_tag) (skipn (length open_tag) s)
      (fun i' s' =>
         if starts_with close_tag s' then Some (i' + length close_tag, None) else None)
  else None.
Proof. reflexivity. Qed.

Lemma skipn_app_exact (A : Type) (u s : list A) : skipn (length u) (u ++ s) = s.
Proof. now rewrite skipn_app, skipn_all, Nat.sub_diag. Qed.

Lemma firstn_app_exact (A : Type) (u s : list A) : firstn (length u) (u ++ s) = u.
Proof. now rewrite firstn_app, firstn_all, Nat.sub_diag, firstn_O, app_nil_r. Qed.

Lemma exec_block_none s : exec block_re s = None -> ~ has_block s.
Proof.
  intros H (u & b & v & ->).
  pose proof (@exec_from_none_inv _ _ _ H (length u)) as Hr.
  rewrite length_app in Hr. specialize (Hr ltac:(lia)).
  rewrite skipn_app_exact, run_block_re, starts_with_app, skipn_app_exact in Hr.
  pose proof (@star_lazy_none_inv _ _ _ _ Hr (length b)) as Hk.
  rewrite length_app in Hk. specialize (Hk ltac:(lia) (forallb_AnyChar _)).
  cbv beta in Hk. rewrite skipn_app_exact, starts_with_app in Hk. discriminate.
Qed.

(** No closing tag can end inside text that starts with "<". *)
Lemma close_tag_straddle (l1 l2 s v : jsstring) :
  close_tag = l1 ++ l2 -> s = l2 ++ v -> begins_with_lt s -> l2 = [] \/ l1 = [].
Proof.
  intros Hc Hs Hlt. destruct l2 as [|x l2]; [now left|right].
  subst s. cbn [app begins_with_lt] in Hlt. subst x.
  destruct l1 as [|y l1]; [reflexivity|exfalso].
  unfold close_tag, lit in Hc. simpl in Hc. injection Hc as _ Hc.
  apply (f_equal (existsb (N.eqb 60))) in Hc.
  rewrite existsb_app in Hc. simpl in Hc. rewrite orb_true_r in Hc. discriminate.
Qed.

(** Text that holds no complete block, followed by text that starts with
    "<" and holds no closing tag, holds no complete block. *)
Lemma no_block_append (pre s : jsstring) :
  exec block_re pre = None ->
  begins_with_lt s ->
  ~ occurs close_tag s ->
  ~ has_block (pre ++ s).
Proof.
  intros Hpre Hlt Hs (u & b & v & H).
  apply exec_block_none in Hpre.
  replace (u ++ open_tag ++ b ++ close_tag ++ v)
    with ((u ++ open_tag ++ b ++ close_tag) ++ v) in H
    by now rewrite <- !app_assoc.
  apply app_eq_app in H as (l & [[Hp Hv]|[Hu Ho]]).
  - (* the closing tag ends inside [pre] *)
    apply Hpre. exists u, b, l. rewrite Hp. now rewrite <- !app_assoc.
  - (* the closing tag ends after [pre] *)
    replace (u ++ open_tag ++ b ++ close_tag)
      with ((u ++ open_tag ++ b) ++ close_tag) in Hu
      by now rewrite <- !app_assoc.
    apply app_eq_app in Hu as (l' & [[H1 H2]|[H1 H2]]).
    + subst l. apply Hs. exists l', v. rewrite Ho. now rewrite <- app_assoc.
    + destruct (close_tag_straddle _ _ _ _ H2 Ho Hlt) as [-> | ->].
      * rewrite app_nil_r in H2. subst l'. apply Hpre.
        exists u, b, []. rewrite H1. now rewrite <- !app_assoc.
      * simpl in H2. subst l. apply Hs. exists [], v. exact Ho.
Qed.

Lemma no_block_before_open (pre rest : jsstring) :
  exec block_re pre = None ->
  ~ occurs close_tag (open_tag ++ rest) ->
  ~ has_block (pre ++ open_tag ++ rest).
Proof. intros Hpre Hrest. now apply no_block_append. Qed.

Lemma no_block_prefix (s t : jsstring) : ~ has_block (s ++ t) -> ~ has_block s.
Proof. intros H Hs. apply H. now apply has_block_app_l. Qed.

Lemma indexOf_absent_inv (s needle : jsstring) :
  indexOf s needle = (-1)%Z -> ~ occurs needle s.
Proof.
  unfold indexOf. intros H (u & v & ->).
  destruct (indexOf_from_cases needle (u ++ needle ++ v) 0)
    as [[_ Hno]|(n & _ & Hn)].
  - specialize (Hno (length u)). now rewrite occurs_starts_with in Hno.
  - rewrite H in Hn. lia.
Qed.

(** *** Directive blocks *)

Lemma starts_with_app_long (p s t : jsstring) :
  length p <= length s -> starts_with p (s ++ t) = starts_with p s.
Proof.
  revert s; induction p as [|a p IH]; intros s H; [reflexivity|].
  destruct s as [|b s]; [simpl in H; lia|].
  simpl. rewrite IH; [reflexivity|]. simpl in H. lia.
Qed.

(** No closing tag starts inside an opening tag. *)
Lemma no_close_in_open_tag (j : nat) (s : jsstring) :
  j < length open_tag -> starts_with close_tag (skipn j (open_tag ++ s)) = false.
Proof.
  intros H. change (length open_tag) with 13 in H.
  do 13 (destruct j as [|j]; [reflexivity|]). lia.
Qed.

Lemma directive_block_length b body :
  b = open_tag ++ body ++ close_tag -> length b = 13 + length body + 14.
Proof. intros ->. rewrite !length_app. reflexivity. Qed.

(** In a directive block the closing tag occurs once, at the end. *)
Lemma directive_block_close_last b u v :
  directive_block b -> b = u ++ close_tag ++ v -> v = [].
Proof.
  intros (body & Hb & (_ & _ & Hbefore)) Hu.
  pose proof (@directive_block_length _ _ Hb) as Hlen.
  assert (Hat : starts_with close_tag (skipn (length u) b) = true)
    by (rewrite Hu; apply occurs_starts_with).
  assert (Hge : 13 + length body <= length u).
  { destruct (Nat.lt_ge_cases (length u) (13 + length body)) as [Hlt|]; [|assumption].
    exfalso. rewrite Hb in Hat.
    destruct (Nat.lt_ge_cases (length u) 13) as [H13|H13].
    - now rewrite no_close_in_open_tag in Hat.
    - rewrite skipn_app in Hat. rewrite skipn_all2 in Hat by exact H13.
      change (length open_tag) with 13 in Hat. cbn [app] in Hat.
      rewrite Hbefore in Hat by lia. discriminate. }
  rewrite Hu in Hlen. rewrite !length_app in Hlen.
  change (length close_tag) with 14 in Hlen.
  destruct v; [reflexivity|simpl in Hlen; lia].
Qed.

Lemma directive_block_first_close b :
  directive_block b -> first_at close_tag b (length b - 14).
Proof.
  intros Hd. pose proof Hd as (body & Hb & _).
  pose proof (@directive_block_length _ _ Hb) as Hlen.
  repeat split.
  - lia.
  - replace (length b - 14) with (length (open_tag ++ body))
      by (rewrite length_app; change (length open_tag) with 13; lia).
    rewrite Hb, app_assoc, skipn_app_exact. apply (starts_with_app close_tag []).
  - intros j Hj. destruct (starts_with close_tag (skipn j b)) eqn:E; [|reflexivity].
    exfalso. pose proof (starts_with_split _ _ E) as Hs.
    pose proof (firstn_skipn j b) as Hfs. rewrite Hs in Hfs. symmetry in Hfs.
    pose proof (directive_block_close_last _ _ _ Hd Hfs) as Hnil.
    apply (f_equal (@length char)) in Hfs.
    rewrite !length_app, Hnil, length_firstn in Hfs.
    change (length close_tag) with 14 in Hfs. simpl in Hfs. lia.
Qed.

(** A proper prefix of a directive block holds no closing tag. *)
Lemma directive_block_prefix b n :
  directive_block b -> n < length b -> ~ occurs close_tag (firstn n b).
Proof.
  intros Hd Hn (u & v & Hu).
  pose proof (firstn_skipn n b) as Hfs. rewrite Hu in Hfs.
  rewrite <- !app_assoc in Hfs. symmetry in Hfs.
  apply (directive_block_close_last _ _ _ Hd) in Hfs.
  apply app_eq_nil in Hfs as [_ Hs].
  apply (f_equal (@length char)) in Hs. rewrite length_skipn in Hs. simpl in Hs. lia.
Qed.

(** No fence pattern matches inside a directive block. *)
Lemma directive_block_no_fence_match b i :
  directive_block b -> exec_from fence_re i b = None.
Proof.
  intros Hd. destruct (exec_from fence_re i b) eqn:E; [|reflexivity].
  exfalso. apply fence_match_has_block in E as (u & bd & v & Hb & Hv).
  replace (u ++ open_tag ++ bd ++ close_tag ++ v)
    with ((u ++ open_tag ++ bd) ++ close_tag ++ v) in Hb
    by now rewrite <- !app_assoc.
  apply (directive_block_close_last _ _ _ Hd) in Hb. subst v. simpl in Hv. lia.
Qed.

(** The block pattern, tried where a directive block starts, matches it. *)
Lemma run_block_re_head b t i :
  directive_block b ->
  run block_re i (b ++ t) None accept = Some (i + length b, None).
Proof.
  intros (body & Hb & (_ & Hat & Hbefore)).
  pose proof (@directive_block_length _ _ Hb) as Hlen.
  rewrite run_block_re. subst b. rewrite <- !app_assoc.
  rewrite starts_with_app, skipn_app_exact.
  rewrite (@star_lazy_complete AnyChar _ _ _ (length body)
             (i + length open_tag + length body + length close_tag, None)).
  - f_equal. f_equal. rewrite !length_app. lia.
  - rewrite length_app. lia.
  - apply forallb_AnyChar.
  - intros j Hj. cbv beta.
    rewrite app_assoc, skipn_app.
    replace (j - length (body ++ close_tag)) with 0 by (rewrite length_app; lia).
    simpl skipn. rewrite starts_with_app_long, Hbefore; auto.
    rewrite length_skipn, length_app. change (length close_tag) with 14. lia.
  - cbv beta. now rewrite skipn_app_exact, starts_with_app.
Qed.

Lemma is_directive_block_sound b :
  is_directive_block b = true -> directive_block b.
Proof.
  unfold is_directive_block. intros H.
  apply andb_true_iff in H as [Ho Hi]. apply Z.eqb_eq in Hi.
  pose proof (starts_with_split _ _ Ho) as Hb.
  set (rest := skipn (length open_tag) b) in *.
  unfold indexOf in Hi.
  destruct (indexOf_from_cases close_tag rest 0) as [[Hm _]|(n & Hfirst & Hn)];
    [rewrite Hm in Hi; lia|].
  rewrite Hn in Hi. assert (n = length rest - length close_tag) as Hlen by lia.
  clear Hi Hn. destruct Hfirst as (Hle & Hat & Hbefore).
  pose proof (starts_with_length _ _ Hat) as Hl. rewrite length_skipn in Hl.
  pose proof (starts_with_split _ _ Hat) as Hs.
  assert (Htail : skipn (length close_tag) (skipn n rest) = []).
  { apply length_zero_iff_nil. rewrite !length_skipn. lia. }
  rewrite Htail, app_nil_r in Hs.
  assert (Hrest : rest = firstn n rest ++ close_tag).
  { rewrite <- Hs. symmetry. apply firstn_skipn. }
  assert (Hfn : length (firstn n rest) = n) by (rewrite length_firstn; lia).
  exists (firstn n rest). split; [now rewrite <- Hrest|].
  rewrite <- Hrest, Hfn. repeat split; auto.
Qed.

(** *** A fenced directive block *)

Lemma run_Lit_app l s i cap k :
  run (Lit l) i (l ++ s) cap k = k (i + length l) s cap.
Proof. cbn [run]. now rewrite starts_with_app, skipn_app_exact. Qed.

Lemma run_Lit_fail l s i cap k :
  starts_with l s = false -> run (Lit l) i s cap k = None.
Proof. intros H. cbn [run]. now rewrite H. Qed.

Lemma space_not_lt : is_space 60%N = false.
Proof. reflexivity. Qed.

Lemma space_not_backtick : is_space 96%N = false.
Proof. reflexivity. Qed.

Lemma directive_block_stops b t : directive_block b -> stops Space (b ++ t).
Proof. intros (body & -> & _). exact space_not_lt. Qed.

(** The end of the fence pattern: white space and the closing marker. *)
Lemma run_fence_close ws2 t i cap :
  forallb is_space ws2 = true ->
  run (Star true Space ;; Lit fence)%re i (ws2 ++ fence ++ t) cap accept
  = Some (i + length ws2 + length fence, cap).
Proof.
  intros Hws. cbn [run].
  apply star_greedy_max; [exact Hws|exact space_not_backtick|].
  now rewrite starts_with_app, skipn_app_exact.
Qed.

(** The group of the fence pattern on a directive block: the capture is the
    block. *)
Lemma run_fence_group b ws2 t i :
  directive_block b ->
  forallb is_space ws2 = true ->
  run (Group (Star false AnyChar ;; Lit open_tag ;; Star false AnyChar ;;
              Lit close_tag ;; Star false AnyChar) ;;
       Star true Space ;; Lit fence)%re i (b ++ ws2 ++ fence ++ t) None accept
  = Some (i + length b + length ws2 + length fence, Some b).
Proof.
  intros Hd Hws. pose proof Hd as (body & Hb & (_ & _ & Hbefore)).
  pose proof (directive_block_length _ _ Hb) as Hlen.
  cbn [run].
  (* the first lazy quantifier takes nothing *)
  apply (star_lazy_complete AnyChar i _ _ 0); [lia|reflexivity|intros; lia|].
  rewrite Nat.add_0_r. cbn [skipn].
  assert (Hsw : starts_with open_tag (b ++ ws2 ++ fence ++ t) = true)
    by (rewrite Hb, <- !app_assoc; apply starts_with_app).
  assert (Hsk : skipn (length open_tag) (b ++ ws2 ++ fence ++ t)
                = body ++ close_tag ++ ws2 ++ fence ++ t)
    by (rewrite Hb, <- !app_assoc; apply skipn_app_exact).
  rewrite Hsw, Hsk.
  (* the second one takes the body *)
  apply (star_lazy_complete AnyChar _ _ _ (length body)).
  - rewrite length_app. lia.
  - apply forallb_AnyChar.
  - intros j Hj.
    rewrite (app_assoc body), skipn_app.
    replace (j - length (body ++ close_tag)) with 0 by (rewrite length_app; lia).
    cbn [skipn]. rewrite starts_with_app_long, Hbefore; auto.
    rewrite length_skipn, length_app. lia.
  - rewrite skipn_app_exact, starts_with_app, skipn_app_exact.
    (* the third one takes nothing *)
    apply (star_lazy_complete AnyChar _ _ _ 0); [lia|reflexivity|intros; lia|].
    rewrite Nat.add_0_r. cbn [skipn]. cbv beta.
    assert (Hcap : firstn (i + length open_tag + length body + length close_tag - i)
                          (b ++ ws2 ++ fence ++ t) = b).
    { replace (i + length open_tag + length body + length close_tag - i)
        with (length b)
        by (change (length open_tag) with 13; change (length close_tag) with 14; lia).
      apply firstn_app_exact. }
    rewrite Hcap.
    pose proof (run_fence_close ws2 t
      (i + length open_tag + length body + length close_tag) (Some b) Hws) as Hc.
    cbn [run] in Hc. rewrite Hc. f_equal. f_equal.
    change (length open_tag) with 13. change (length close_tag) with 14. lia.
Qed.

Lemma run_Seq a b i s cap k :
  run (a ;; b)%re i s cap k = run a i s cap (fun i' s' cap' => run b i' s' cap' k).
Proof. reflexivity. Qed.

Lemma run_Opt a i s cap k :
  run (Opt a) i s cap k =
  match run a i s cap k with
  | Some res => Some res
  | None => k i s cap
  end.
Proof. reflexivity. Qed.

Lemma run_Star_greedy c i s cap k :
  run (Star true c) i s cap k = star_greedy c i s (fun i' s' => k i' s' cap).
Proof. reflexivity. Qed.

(** The fence pattern after the opening marker and the optional tag. *)
Lemma run_fence_tail b ws1 ws2 t i :
  directive_block b ->
  forallb is_space ws1 = true ->
  forallb is_space ws2 = true ->
  run (Star true Space ;;
       Group (Star false AnyChar ;; Lit open_tag ;; Star false AnyChar ;;
              Lit close_tag ;; Star false AnyChar) ;;
       Star true Space ;; Lit fence)%re i (ws1 ++ b ++ ws2 ++ fence ++ t) None accept
  = Some (i + length ws1 + length b + length ws2 + length fence, Some b).
Proof.
  intros Hd H1 H2. rewrite run_Seq, run_Star_greedy.
  apply star_greedy_max; [exact H1|now apply directive_block_stops|].
  now rewrite run_fence_group.
Qed.

(** White space followed by a directive block does not start with [xml]. *)
Lemma no_xml_before_block b ws1 t :
  directive_block b ->
  forallb is_space ws1 = true ->
  starts_with (lit "xml") (ws1 ++ b ++ t) = false.
Proof.
  intros (body & -> & _) Hws. destruct ws1 as [|c ws1]; [reflexivity|].
  simpl in Hws. apply andb_true_iff in Hws as [Hc _].
  cbn [app lit list_ascii_of_string map starts_with].
  destruct (N.eqb_spec (N_of_ascii "x") c) as [<-|]; [discriminate Hc|reflexivity].
Qed.

Lemma fenced_length xml ws1 ws2 b :
  length (fenced xml ws1 ws2 b) =
  length fence + length (if xml then lit "xml" else []) + length ws1 + length b
  + length ws2 + length fence.
Proof. unfold fenced. rewrite !length_app. lia. Qed.

(** The fence pattern matches a fenced directive block from its first
    marker to its last, and captures the block. *)
Lemma run_fence_re_fenced xml ws1 ws2 b t i :
  directive_block b ->
  forallb is_space ws1 = true ->
  forallb is_space ws2 = true ->
  run fence_re i (fenced xml ws1 ws2 b ++ t) None accept
  = Some (i + length (fenced xml ws1 ws2 b), Some b).
Proof.
  intros Hd H1 H2. rewrite fenced_length. unfold fenced, fence_re.
  rewrite <- !app_assoc, run_Seq, run_Lit_app, run_Seq, run_Opt.
  destruct xml.
  - rewrite run_Lit_app, run_fence_tail by assumption.
    f_equal. f_equal. lia.
  - cbn [app]. rewrite run_Lit_fail by now apply no_xml_before_block.
    rewrite run_fence_tail by assumption.
    f_equal. f_equal. simpl length. lia.
Qed.

(** *** Where the first closing tag of a fenced block is *)

Lemma first_at_app_tail p s t n : first_at p s n -> first_at p (s ++ t) n.
Proof.
  intros (Hle & Hat & Hbefore).
  pose proof (starts_with_length _ _ Hat) as Hl. rewrite length_skipn in Hl.
  repeat split.
  - rewrite length_app. lia.
  - rewrite skipn_app. replace (n - length s) with 0 by lia. cbn [skipn].
    rewrite starts_with_app_long; [exact Hat|]. rewrite length_skipn. lia.
  - intros j Hj. rewrite skipn_app. replace (j - length s) with 0 by lia.
    cbn [skipn]. rewrite starts_with_app_long; [now apply Hbefore|].
    rewrite length_skipn. lia.
Qed.

Lemma first_at_skip p pre s n :
  (forall j, j < length pre -> starts_with p (skipn j (pre ++ s)) = false) ->
  first_at p s n -> first_at p (pre ++ s) (length pre + n).
Proof.
  intros Hpre (Hle & Hat & Hbefore). repeat split.
  - rewrite length_app. lia.
  - rewrite skipn_app, skipn_all2 by lia.
    replace (length pre + n - length pre) with n by lia. exact Hat.
  - intros j Hj. destruct (Nat.lt_ge_cases j (length pre)) as [Hlt|Hge].
    + now apply Hpre.
    + rewrite skipn_app, skipn_all2 by lia. cbn [app]. apply Hbefore. lia.
Qed.

(** A pattern cannot start where its first code unit does not occur. *)
Lemma starts_with_free h p pre s :
  free_of h pre = true ->
  forall j, j < length pre -> starts_with (h :: p) (skipn j (pre ++ s)) = false.
Proof.
  induction pre as [|c pre IH]; intros Hfree j Hj; [simpl in Hj; lia|].
  simpl in Hfree. apply andb_true_iff in Hfree as [Hc Hfree].
  destruct j as [|j].
  - cbn [skipn app starts_with]. apply negb_true_iff in Hc. now rewrite Hc.
  - cbn [skipn app]. apply IH; [exact Hfree|simpl in Hj; lia].
Qed.

Lemma free_of_app h s t : free_of h (s ++ t) = free_of h s && free_of h t.
Proof. apply forallb_app. Qed.



(** *** The field patterns *)

Lemma never_starts_free h p a s : free_of h a = true -> never_starts (h :: p) a s.
Proof. intros H j Hj. now apply starts_with_free. Qed.

Lemma never_starts_app p a b s :
  never_starts p a (b ++ s) -> never_starts p b s -> never_starts p (a ++ b) s.
Proof.
  intros Ha Hb j Hj. rewrite <- app_assoc.
  destruct (Nat.lt_ge_cases j (length a)) as [Hlt|Hge]; [now apply Ha|].
  rewrite skipn_app, skipn_all2 by lia. cbn [app]. apply Hb.
  rewrite length_app in Hj. lia.
Qed.

Lemma never_starts_nil p s : never_starts p [] s.
Proof. intros j Hj. simpl in Hj. lia. Qed.

(** A tag pair pattern finds the first opening tag and captures the text up
    to the first closing tag after it. *)
Lemma exec_tag_pair o cl pre body post :
  never_starts o pre (o ++ body ++ cl ++ post) ->
  never_starts cl body (cl ++ post) ->
  exec (Lit o ;; Group (Star false AnyChar) ;; Lit cl)%re
       (pre ++ o ++ body ++ cl ++ post)
  = Some (MatchResult (length pre) (o ++ body ++ cl) (Some body)).
Proof.
  intros Hpre Hbody. unfold exec.
  rewrite (exec_from_found _ 0 _ (length pre)
             (length pre + length o + length body + length cl) (Some body)).
  - cbn [Nat.add]. rewrite skipn_app_exact.
    replace (length pre + length o + length body + length cl - length pre)
      with (length (o ++ body ++ cl)) by (rewrite !length_app; lia).
    replace (o ++ body ++ cl ++ post) with ((o ++ body ++ cl) ++ post)
      by now rewrite <- !app_assoc.
    now rewrite firstn_app_exact.
  - rewrite length_app. lia.
  - intros j' Hj'. cbn [Nat.add]. rewrite run_Seq.
    apply run_Lit_fail. now apply Hpre.
  - cbn [Nat.add]. rewrite skipn_app_exact, run_Seq, run_Lit_app. cbn [run].
    apply (star_lazy_complete AnyChar _ _ _ (length body)).
    + rewrite length_app. lia.
    + apply forallb_AnyChar.
    + intros j Hj. now rewrite (Hbody j Hj).
    + rewrite skipn_app_exact, starts_with_app, skipn_app_exact. unfold accept.
      f_equal. f_equal.
      replace (length pre + length o + length body - (length pre + length o))
        with (length body) by lia.
      now rewrite firstn_app_exact.
Qed.

Ltac never_starts_lit :=
  let j := fresh "j" in
  let Hj := fresh "Hj" in
  intros j Hj; repeat (destruct j as [|j]; [reflexivity|]);
  exfalso; simpl in Hj; lia.

Lemma path_not_in_open_tag s : never_starts (lit "<path>") open_tag s.
Proof. never_starts_lit. Qed.

Lemma content_not_in_open_tag s : never_starts (lit "<content>") open_tag s.
Proof. never_starts_lit. Qed.

Lemma path_not_in_content_open s : never_starts (lit "<path>") (lit "<content>") s.
Proof. never_starts_lit. Qed.

Lemma path_not_in_content_close s : never_starts (lit "<path>") (lit "</content>") s.
Proof. never_starts_lit. Qed.

Lemma content_not_in_path_open s : never_starts (lit "<content>") (lit "<path>") s.
Proof. never_starts_lit. Qed.

Lemma content_not_in_path_close s : never_starts (lit "<content>") (lit "</path>") s.
Proof. never_starts_lit. Qed.

Lemma never_starts_lt_free tag a s :
  free_of 60 a = true -> starts_with (lit "<") tag = true -> never_starts tag a s.
Proof.
  intros Hfree Htag. destruct tag as [|h tag]; [discriminate|].
  change (lit "<") with [60%N] in Htag. cbn [starts_with] in Htag.
  apply andb_true_iff in Htag as [Hh _]. apply N.eqb_eq in Hh. subst h.
  now apply never_starts_free.
Qed.

Create HintDb fields.

#[local] Hint Resolve path_not_in_open_tag content_not_in_open_tag
  path_not_in_content_open path_not_in_content_close
  content_not_in_path_open content_not_in_path_close never_starts_nil : fields.

Ltac never_starts_pieces :=
  repeat (apply never_starts_app);
  first [ solve [auto with fields]
        | apply never_starts_lt_free; [assumption|reflexivity] ].

(** Extraction of the two fields when the content field comes first. *)
Lemma fields_content_first x p y c z :
  free_of 60 x = true -> free_of 60 p = true -> free_of 60 y = true ->
  free_of 60 c = true ->
  filePath (content_first x p y c z) = Some (trim p) /\
  fileContent (content_first x p y c z) = Some (trim c).
Proof.
  intros Hx Hp Hy Hc. unfold filePath, fileContent, path_re, content_re. split.
  - replace (content_first x p y c z)
      with ((open_tag ++ x ++ lit "<content>" ++ c ++ lit "</content>" ++ y)
              ++ lit "<path>" ++ p ++ lit "</path>" ++ z ++ close_tag)
      by (unfold content_first; now rewrite <- !app_assoc).
    rewrite exec_tag_pair; [reflexivity| |]; never_starts_pieces.
  - replace (content_first x p y c z)
      with ((open_tag ++ x)
              ++ lit "<content>" ++ c ++ lit "</content>" ++
              y ++ lit "<path>" ++ p ++ lit "</path>" ++ z ++ close_tag)
      by (unfold content_first; now rewrite <- !app_assoc).
    rewrite exec_tag_pair; [reflexivity| |]; never_starts_pieces.
Qed.

(** Extraction of the two fields when the path field comes first. *)
Lemma fields_path_first x p y c z :
  free_of 60 x = true -> free_of 60 p = true -> free_of 60 y = true ->
  free_of 60 c = true ->
  filePath (path_first x p y c z) = Some (trim p) /\
  fileContent (path_first x p y c z) = Some (trim c).
Proof.
  intros Hx Hp Hy Hc. unfold filePath, fileContent, path_re, content_re. split.
  - replace (path_first x p y c z)
      with ((open_tag ++ x)
              ++ lit "<path>" ++ p ++ lit "</path>" ++
              y ++ lit "<content>" ++ c ++ lit "</content>" ++ z ++ close_tag)
      by (unfold path_first; now rewrite <- !app_assoc).
    rewrite exec_tag_pair; [reflexivity| |]; never_starts_pieces.
  - replace (path_first x p y c z)
      with ((open_tag ++ x ++ lit "<path>" ++ p ++ lit "</path>" ++ y)
              ++ lit "<content>" ++ c ++ lit "</content>" ++ z ++ close_tag)
      by (unfold path_first; now rewrite <- !app_assoc).
    rewrite exec_tag_pair; [reflexivity| |]; never_starts_pieces.
Qed.

(** *** trim *)

Lemma trimStart_split s :
  exists l, s = l ++ trimStart s /\ forallb is_space l = true.
Proof.
  induction s as [|c s (l & Hs & Hl)]; [now exists []|].
  cbn [trimStart]. destruct (is_space c) eqn:E.
  - exists (c :: l). cbn [forallb app]. rewrite E, Hl. split; [now f_equal|reflexivity].
  - now exists [].
Qed.

Lemma trimStart_head s : no_space_head (trimStart s).
Proof.
  induction s as [|c s IH]; [exact I|].
  cbn [trimStart]. destruct (is_space c) eqn:E; [exact IH|exact E].
Qed.

Lemma forallb_rev (f : char -> bool) s : forallb f (rev s) = forallb f s.
Proof.
  induction s as [|c s IH]; [reflexivity|].
  cbn [rev forallb]. rewrite forallb_app, IH. cbn [forallb].
  rewrite andb_true_r. apply andb_comm.
Qed.

Lemma trimEnd_split s :
  exists r, s = trimEnd s ++ r /\ forallb is_space r = true.
Proof.
  unfold trimEnd. destruct (trimStart_split (rev s)) as (l & Hs & Hl).
  exists (rev l). split.
  - rewrite <- rev_app_distr, <- Hs. now rewrite rev_involutive.
  - now rewrite forallb_rev.
Qed.

Lemma trimEnd_last s : no_space_head (rev (trimEnd s)).
Proof. unfold trimEnd. rewrite rev_involutive. apply trimStart_head. Qed.

Lemma trimEnd_head s : no_space_head s -> no_space_head (trimEnd s).
Proof.
  intros H. destruct (trimEnd_split s) as (r & Hs & _).
  destruct (trimEnd s) as [|c t]; [exact I|].
  rewrite Hs in H. exact H.
Qed.

Lemma trim_is_trim_of s : is_trim_of s (trim s).
Proof.
  unfold trim. destruct (trimStart_split s) as (l & Hs & Hl).
  destruct (trimEnd_split (trimStart s)) as (r & Ht & Hr).
  exists l, r. repeat split; auto.
  - now rewrite <- Ht.
  - apply trimEnd_head, trimStart_head.
  - apply trimEnd_last.
Qed.

Lemma trimStart_spaces s : forallb is_space s = true -> trimStart s = [].
Proof.
  induction s as [|c s IH]; [reflexivity|].
  cbn [forallb trimStart]. intros H. apply andb_true_iff in H as [-> Hs]. now apply IH.
Qed.

Lemma trim_spaces s : forallb is_space s = true -> trim s = [].
Proof. intros H. unfold trim. now rewrite (trimStart_spaces _ H). Qed.

Lemma trim_nil_spaces s : trim s = [] -> forallb is_space s = true.
Proof.
  intros H. destruct (trim_is_trim_of s) as (l & r & Hs & Hl & Hr & _).
  rewrite H in Hs. cbn [app] in Hs. rewrite Hs, forallb_app, Hl, Hr. reflexivity.
Qed.

(** What a tag pair pattern captures lies between the tags. *)
Lemma exec_tag_pair_sound o cl blk m :
  exec (Lit o ;; Group (Star false AnyChar) ;; Lit cl)%re blk = Some m ->
  exists raw, group1 m = Some raw /\ between_tags o cl blk raw.
Proof.
  unfold exec. intros H.
  apply exec_from_sound in H as (j & n & Hjn & _ & _ & _ & Hrun & _).
  rewrite run_Seq in Hrun. cbn [run] in Hrun.
  destruct (starts_with o (skipn j blk)) eqn:Eo; [|discriminate].
  apply star_lazy_sound in Hrun as (k & Hk & _ & Hkont & Hmin).
  cbv beta in Hkont.
  destruct (starts_with cl (skipn k (skipn (length o) (skipn j blk)))) eqn:Ec;
    [|discriminate].
  unfold accept in Hkont. injection Hkont as _ Hcap.
  set (s0 := skipn (length o) (skipn j blk)) in *.
  replace (j + length o + k - (j + length o)) with k in Hcap by lia.
  exists (firstn k s0). split; [now symmetry|].
  exists (firstn j blk), (skipn (length cl) (skipn k s0)). split.
  - rewrite <- (starts_with_split _ _ Ec), firstn_skipn. unfold s0.
    rewrite <- (starts_with_split _ _ Eo). symmetry. apply firstn_skipn.
  - intros i Hi. rewrite length_firstn in Hi.
    rewrite <- (starts_with_split _ _ Ec).
    specialize (Hmin i ltac:(lia)). cbv beta in Hmin.
    assert (Hsk : skipn i (firstn k s0 ++ skipn k s0) = skipn i s0)
      by now rewrite firstn_skipn.
    rewrite Hsk. destruct (starts_with cl (skipn i s0)); [discriminate|reflexivity].
Qed.

(** *** Plain text before a block *)

Lemma exec_from_skip r i pre s :
  (forall j, j < length pre ->
             run r (i + j) (skipn j (pre ++ s)) None accept = None) ->
  exec_from r i (pre ++ s) = exec_from r (i + length pre) s.
Proof.
  revert i; induction pre as [|c pre IH]; intros i H.
  - now rewrite Nat.add_0_r.
  - cbn [app exec_from]. pose proof (H 0 ltac:(simpl; lia)) as H0.
    rewrite Nat.add_0_r in H0. cbn [skipn app] in H0. rewrite H0.
    rewrite IH.
    + f_equal. simpl. lia.
    + intros j Hj. specialize (H (S j) ltac:(simpl; lia)).
      now rewrite Nat.add_succ_r in H.
Qed.

(** The fence pattern matches nowhere in text without a backtick. *)
Lemma fence_re_skip i pre s :
  free_of 96 pre = true ->
  exec_from fence_re i (pre ++ s) = exec_from fence_re (i + length pre) s.
Proof.
  intros H. apply exec_from_skip. intros j Hj.
  unfold fence_re. rewrite run_Seq. apply run_Lit_fail.
  now apply (starts_with_free 96 [96; 96]%N).
Qed.

(** The block pattern matches nowhere in text without a "<". *)
Lemma block_re_skip i pre s :
  free_of 60 pre = true ->
  exec_from block_re i (pre ++ s) = exec_from block_re (i + length pre) s.
Proof.
  intros H. apply exec_from_skip. intros j Hj.
  unfold block_re. rewrite run_Seq. apply run_Lit_fail.
  now apply (starts_with_free 60 (lit "writeToFile>")).
Qed.

Lemma exec_from_fence_fenced i xml ws1 ws2 b t :
  directive_block b ->
  forallb is_space ws1 = true ->
  forallb is_space ws2 = true ->
  exec_from fence_re i (fenced xml ws1 ws2 b ++ t)
  = Some (MatchResult i (fenced xml ws1 ws2 b) (Some b)).
Proof.
  intros Hd H1 H2.
  pose proof (exec_from_found fence_re i (fenced xml ws1 ws2 b ++ t) 0
                (i + length (fenced xml ws1 ws2 b)) (Some b)) as H.
  rewrite Nat.add_0_r in H. cbn [skipn] in H.
  replace (i + length (fenced xml ws1 ws2 b) - i) with (length (fenced xml ws1 ws2 b))
    in H by lia.
  rewrite firstn_app_exact in H. apply H; [lia|intros; lia|].
  now apply run_fence_re_fenced.
Qed.

Lemma exec_from_block_head i b t :
  directive_block b ->
  exec_from block_re i (b ++ t) = Some (MatchResult i b None).
Proof.
  intros Hd.
  pose proof (exec_from_found block_re i (b ++ t) 0 (i + length b) None) as H.
  rewrite Nat.add_0_r in H. cbn [skipn] in H.
  replace (i + length b - i) with (length b) in H by lia.
  rewrite firstn_app_exact in H. apply H; [lia|intros; lia|].
  now apply run_block_re_head.
Qed.


Lemma stripCodeFences_text_block pre b :
  free_of 96 pre = true ->
  directive_block b ->
  stripCodeFences (pre ++ b) = pre ++ b.
Proof.
  intros Hpre Hd. apply replace_loop_no_match.
  rewrite (fence_re_skip 0 pre b Hpre). now apply directive_block_no_fence_match.
Qed.

Lemma exec_block_re_text pre b t :
  free_of 60 pre = true ->
  directive_block b ->
  exec block_re (pre ++ b ++ t) = Some (MatchResult (length pre) b None).
Proof.
  intros Hpre Hd. unfold exec.
  rewrite (block_re_skip 0 pre _ Hpre). now apply exec_from_block_head.
Qed.

(** A buffer of plain text and a directive block: the block is found and
    the end offset is the length of the buffer. *)
Lemma findCompleteBlock_text_block pre b :
  free_of 60 pre = true ->
  free_of 96 pre = true ->
  directive_block b ->
  findCompleteBlock (pre ++ b) = Some (BlockInfo b (Z.of_nat (length (pre ++ b)))).
Proof.
  intros Hlt Hbt Hd. pose proof Hd as (body & Hb & _).
  pose proof (directive_block_length _ _ Hb) as Hlen.
  unfold findCompleteBlock.
  rewrite (stripCodeFences_text_block pre b Hbt Hd).
  pose proof (exec_block_re_text pre b [] Hlt Hd) as He.
  rewrite app_nil_r in He. rewrite He. cbn [matched].
  unfold indexOf.
  rewrite (indexOf_from_first_at close_tag _ (length pre + (length b - 14)) 0).
  - change (Z.of_nat (length close_tag)) with 14%Z.
    replace (0 + Z.of_nat (length pre + (length b - 14)) + 14)%Z
      with (Z.of_nat (length (pre ++ b))) by (rewrite length_app; lia).
    unfold substring. rewrite Nat2Z.id, skipn_all. cbn. f_equal. f_equal. lia.
  - apply first_at_skip.
    + now apply (starts_with_free 60).
    + now apply directive_block_first_close.
Qed.


(** ** The lazy tag pair patterns as scans *)

Section LazyBetween.

(** A pattern that reads [o], then lazily any text, then [cl]; [capf] is
    the capture it delivers. *)
Variables o cl : jsstring.
Variable r : re.
Variable capf : nat -> jsstring -> nat -> option jsstring.
Hypothesis run_r :
  forall i s,
    run r i s None accept =
    if starts_with o s then
      star_lazy AnyChar (i + length o) (skipn (length o) s)
        (fun i' s' =>
           if starts_with cl s' then Some (i' + length cl, capf i s i') else None)
    else None.

Lemma exec_lazy_between s :
  exec r s =
  match scan_between o cl s with
  | None => None
  | Some (n, body) =>
      Some (MatchResult n (o ++ body ++ cl)
              (capf n (skipn n s) (n + length o + length body)))
  end.
Proof.
  unfold exec, scan_between, indexOf, substring.
  destruct (indexOf_from_cases o s 0) as [[-> Hno]|(n & Hfirst & ->)].
  - cbn. apply exec_from_none. intros j. now rewrite run_r, Hno.
  - destruct Hfirst as (Hn & Hat & Hbefore).
    replace (0 + Z.of_nat n <? 0)%Z with false by (symmetry; apply Z.ltb_ge; lia).
    replace (Z.to_nat (0 + Z.of_nat n + Z.of_nat (length o))) with (n + length o) by lia.
    replace (Z.to_nat (0 + Z.of_nat n)) with n by lia.
    set (rest := skipn (n + length o) s).
    assert (Hrest : skipn (length o) (skipn n s) = rest)
      by (unfold rest; now rewrite skipn_skipn, Nat.add_comm).
    destruct (indexOf_from_cases cl rest 0) as [[-> Hno]|(m & Hfirst & ->)].
    + cbn. apply exec_from_none. intros j. cbn [Nat.add]. rewrite run_r.
      destruct (starts_with o (skipn j s)) eqn:Eo; [|reflexivity].
      assert (Hj : n <= j).
      { destruct (Nat.lt_ge_cases j n) as [Hlt|]; [|assumption].
        rewrite (Hbefore j Hlt) in Eo. discriminate. }
      apply star_lazy_none. intros k.
      replace (skipn k (skipn (length o) (skipn j s))) with (skipn (k + (j - n)) rest).
      * now rewrite Hno.
      * unfold rest. rewrite !skipn_skipn. f_equal. lia.
    + destruct Hfirst as (Hm & Hat' & Hbefore').
      replace (0 + Z.of_nat m <? 0)%Z with false by (symmetry; apply Z.ltb_ge; lia).
      replace (Z.to_nat (0 + Z.of_nat m)) with m by lia.
      pose proof (starts_with_length _ _ Hat') as Hl. rewrite length_skipn in Hl.
      assert (Hfn : length (firstn m rest) = m) by (rewrite length_firstn; lia).
      rewrite Hfn.
      pose proof (exec_from_found r 0 s n (n + length o + m + length cl)
                    (capf n (skipn n s) (n + length o + m))) as H.
      cbn [Nat.add] in H. rewrite H; clear H.
      * f_equal. f_equal.
        replace (n + length o + m + length cl - n) with (length o + (m + length cl)) by lia.
        rewrite <- !firstn_skipn_app, Hrest.
        rewrite (starts_with_split _ _ Hat) at 1. rewrite firstn_app_exact.
        rewrite (starts_with_split _ _ Hat') at 1. now rewrite firstn_app_exact.
      * exact Hn.
      * intros j' Hj'. now rewrite run_r, Hbefore.
      * rewrite run_r, Hat, Hrest.
        apply (star_lazy_complete AnyChar _ _ _ m); auto using forallb_AnyChar.
        -- intros j Hj. now rewrite Hbefore'.
        -- now rewrite Hat'.
Qed.

End LazyBetween.

Lemma exec_block_re_scan s :
  exec block_re s =
  match scan_between open_tag close_tag s with
  | None => None
  | Some (n, body) => Some (MatchResult n (open_tag ++ body ++ close_tag) None)
  end.
Proof.
  apply (exec_lazy_between open_tag close_tag block_re (fun _ _ _ => None)).
  reflexivity.
Qed.

Lemma exec_tag_pair_scan o cl s :
  exec (tag_pair_re o cl) s =
  match scan_between o cl s with
  | None => None
  | Some (n, body) => Some (MatchResult n (o ++ body ++ cl) (Some body))
  end.
Proof.
  rewrite (exec_lazy_between o cl (tag_pair_re o cl)
             (fun i s i' => Some (firstn (i' - (i + length o)) (skipn (length o) s))))
    by reflexivity.
  unfold scan_between, indexOf, substring.
  destruct (indexOf_from o s 0 <? 0)%Z eqn:En; [reflexivity|].
  destruct (indexOf_from cl _ 0 <? 0)%Z eqn:Em; [reflexivity|].
  apply Z.ltb_ge in En, Em.
  set (n := Z.to_nat (indexOf_from o s 0)).
  set (rest := skipn (Z.to_nat (indexOf_from o s 0 + Z.of_nat (length o))) s).
  set (m := Z.to_nat (indexOf_from cl rest 0)).
  f_equal. f_equal. f_equal.
  replace (n + length o + length (firstn m rest) - (n + length o))
    with (length (firstn m rest)) by lia.
  assert (Hrest : skipn (length o) (skipn n s) = rest).
  { unfold rest, n. rewrite skipn_skipn. f_equal. lia. }
  rewrite Hrest, length_firstn.
  destruct (Nat.le_ge_cases m (length rest)) as [Hle|Hge].
  - now rewrite Nat.min_l.
  - rewrite Nat.min_r by assumption.
    now rewrite firstn_all, firstn_all2.
Qed.

(** What a successful scan says about the two tags. *)
Lemma scan_between_some o cl s n body :
  scan_between o cl s = Some (n, body) ->
  first_at o s n /\
  first_at cl (skipn (n + length o) s) (length body) /\
  body = firstn (length body) (skipn (n + length o) s).
Proof.
  unfold scan_between, indexOf, substring.
  destruct (indexOf_from_cases o s 0) as [[-> _]|(n' & Hfirst & ->)]; [discriminate|].
  replace (0 + Z.of_nat n' <? 0)%Z with false by (symmetry; apply Z.ltb_ge; lia).
  replace (Z.to_nat (0 + Z.of_nat n' + Z.of_nat (length o))) with (n' + length o) by lia.
  replace (Z.to_nat (0 + Z.of_nat n')) with n' by lia.
  destruct (indexOf_from_cases cl (skipn (n' + length o) s) 0)
    as [[-> _]|(m & Hfirst' & ->)]; [discriminate|].
  replace (0 + Z.of_nat m <? 0)%Z with false by (symmetry; apply Z.ltb_ge; lia).
  replace (Z.to_nat (0 + Z.of_nat m)) with m by lia.
  intros [= <- <-].
  assert (Hm : length (firstn m (skipn (n' + length o) s)) = m).
  { destruct Hfirst' as (Hm & _ & _). rewrite length_firstn. lia. }
  rewrite Hm. split; [assumption|]. split; [assumption|].
  reflexivity.
Qed.

(** The first occurrence in a text is the first occurrence in any prefix
    that holds it. *)
Lemma first_at_prefix p s t n :
  first_at p (s ++ t) n -> n + length p <= length s -> first_at p s n.
Proof.
  intros (Hn & Hat & Hbefore) Hlen. repeat split.
  - lia.
  - rewrite skipn_app in Hat.
    rewrite starts_with_app_long in Hat; [assumption|]. rewrite length_skipn. lia.
  - intros j Hj. specialize (Hbefore j Hj).
    rewrite skipn_app in Hbefore.
    rewrite starts_with_app_long in Hbefore; [assumption|]. rewrite length_skipn. lia.
Qed.

(** The match of the block pattern is a directive block. *)
Lemma exec_block_re_directive s mt :
  exec block_re s = Some mt ->
  directive_block (matched mt) /\ occurs (matched mt) s.
Proof.
  intros H. split.
  - rewrite exec_block_re_scan in H.
    destruct (scan_between open_tag close_tag s) as [[n body]|] eqn:E; [|discriminate].
    injection H as <-. cbn [matched].
    exists body. split; [reflexivity|].
    destruct (scan_between_some _ _ _ _ _ E) as (_ & Hcl & Hbody).
    set (rest := skipn (n + length open_tag) s) in *.
    destruct Hcl as (Hm & Hat & Hbefore).
    pose proof (starts_with_split _ _ Hat) as Hsplit.
    assert (Hrest : rest = body ++ close_tag ++
                           skipn (length close_tag) (skipn (length body) rest)).
    { rewrite <- Hsplit. rewrite Hbody at 1. now rewrite firstn_skipn. }
    apply (first_at_prefix close_tag (body ++ close_tag)
             (skipn (length close_tag) (skipn (length body) rest))).
    + rewrite <- app_assoc, <- Hrest. repeat split; assumption.
    + rewrite length_app. lia.
  - destruct (exec_from_occurs _ _ _ _ H) as (u & v & Hs & _). now exists u, v.
Qed.

(** *** The pattern for the marker after a block *)

Lemma trimStart_length s : length (trimStart s) <= length s.
Proof.
  destruct (trimStart_split s) as (l & Hs & _).
  rewrite Hs at 2. rewrite length_app. lia.
Qed.

Lemma space_fence_head c s :
  is_space c = true -> starts_with fence (c :: s) = false.
Proof.
  intros Hc. change fence with (96%N :: lit "``"). cbn [starts_with].
  destruct (N.eqb 96 c) eqn:E; [|reflexivity].
  apply N.eqb_eq in E. subst c. now rewrite space_not_backtick in Hc.
Qed.

Lemma star_space_fence i s :
  star_greedy Space i s (fun i' s' => run (Lit fence) i' s' None accept) =
  if starts_with fence (trimStart s)
  then Some (i + (length s - length (trimStart s)) + length fence, None)
  else None.
Proof.
  revert i. induction s as [|c s IH]; intros i; [reflexivity|].
  cbn [star_greedy in_cls trimStart].
  destruct (is_space c) eqn:Ec.
  - rewrite IH. pose proof (trimStart_length s).
    destruct (starts_with fence (trimStart s)).
    + f_equal. f_equal. cbn [length]. lia.
    + cbn [run]. now rewrite (space_fence_head c s Ec).
  - cbn [run]. destruct (starts_with fence (c :: s)); [|reflexivity].
    unfold accept. f_equal. f_equal. lia.
Qed.

Lemma exec_from_trailing_fence_later i s :
  exec_from trailing_fence_re (S i) s = None.
Proof.
  revert i. induction s as [|c s IH]; intros i; [reflexivity|].
  cbn [exec_from]. rewrite IH. reflexivity.
Qed.

(** [/^\s*```/] matches exactly when the marker follows the leading white
    space, and then takes both. *)
Lemma exec_trailing_fence_scan after :
  exec trailing_fence_re after =
  if starts_with fence (trimStart after)
  then Some (MatchResult 0 (firstn (fence_tail after) after) None)
  else None.
Proof.
  unfold exec, fence_tail.
  assert (Hrun : run trailing_fence_re 0 after None accept =
                 if starts_with fence (trimStart after)
                 then Some (0 + (length after - length (trimStart after)) + length fence, None)
                 else None).
  { rewrite <- star_space_fence. reflexivity. }
  destruct after as [|c s].
  - reflexivity.
  - cbn [exec_from]. rewrite Hrun, exec_from_trailing_fence_later.
    destruct (starts_with fence (trimStart (c :: s))); [|reflexivity].
    f_equal. f_equal. f_equal. lia.
Qed.

Lemma fence_tail_bound after : fence_tail after <= length after.
Proof.
  unfold fence_tail.
  destruct (starts_with fence (trimStart after)) eqn:E; [|lia].
  apply starts_with_length in E. pose proof (trimStart_length after). lia.
Qed.

Lemma free_of_starts_with h p s :
  free_of h s = true -> starts_with (h :: p) s = false.
Proof.
  destruct s as [|c s]; [reflexivity|]. cbn [free_of forallb starts_with].
  destruct (N.eqb h c); [discriminate|reflexivity].
Qed.

Lemma fence_tail_plain after : free_of 96 after = true -> fence_tail after = 0.
Proof.
  intros H. unfold fence_tail.
  destruct (trimStart_split after) as (l & Hs & _).
  rewrite Hs, free_of_app in H. apply andb_prop in H as [_ H].
  change fence with (96%N :: lit "``").
  now rewrite (free_of_starts_with 96 _ _ H).
Qed.

(** *** Cleaning and blocks *)

Lemma has_block_app_r s t : has_block t -> has_block (s ++ t).
Proof.
  intros (u & b & v & ->). exists (s ++ u), b, v. now rewrite <- app_assoc.
Qed.

(** A text without a backtick has no fence to strip. *)
Lemma stripCodeFences_plain s : free_of 96 s = true -> stripCodeFences s = s.
Proof.
  intros H. unfold stripCodeFences, replace_all_group1.
  apply replace_loop_no_match.
  pose proof (fence_re_skip 0 s [] H) as E. rewrite app_nil_r in E. rewrite E.
  reflexivity.
Qed.

Lemma run_Lit_inv l i s cap k res :
  run (Lit l) i s cap k = Some res ->
  starts_with l s = true /\ k (i + length l) (skipn (length l) s) cap = Some res.
Proof.
  cbn [run]. destruct (starts_with l s); [auto|discriminate].
Qed.

Lemma run_Group a i s cap k :
  run (Group a) i s cap k =
  run a i s cap (fun i' s' _ => k i' s' (Some (firstn (i' - i) s))).
Proof. reflexivity. Qed.

(** A match of the fence pattern: an opening part with the marker, the
    capture, which holds a block, and a closing part with the marker. *)
Lemma fence_capture i s mr :
  exec_from fence_re i s = Some mr ->
  exists lead cap trail,
    matched mr = lead ++ cap ++ trail /\ group1 mr = Some cap /\
    has_block cap /\ 3 <= length lead /\ 3 <= length trail /\
    (exists l', lead = fence ++ l') /\ (exists t', trail = t' ++ fence).
Proof.
  intros H.
  destruct (exec_from_sound _ _ _ _ H) as (j & n & Hjn & _ & Hm & _ & Hrun & _).
  assert (Hlen : n <= length (skipn j s)) by (rewrite length_skipn; lia).
  revert Hm Hrun Hlen. generalize (skipn j s) (i + j). clear H Hjn.
  intros s0 i0 Hm Hrun Hlen.
  remember (length fence) as lf eqn:Hlf.
  assert (Hlf3 : lf = 3) by (subst lf; reflexivity).
  unfold fence_re in Hrun. rewrite run_Seq in Hrun.
  apply run_Lit_inv in Hrun as [Hopen Hrun]. rewrite <- Hlf in Hrun.
  rewrite run_Seq, run_Opt in Hrun.
  assert (Hx : exists x,
             run (Star true Space ;;
                  Group (Star false AnyChar ;; Lit open_tag ;; Star false AnyChar ;;
                         Lit close_tag ;; Star false AnyChar) ;;
                  Star true Space ;; Lit fence)%re
                 (i0 + lf + x) (skipn x (skipn lf s0)) None accept
             = Some (i0 + n, group1 mr)).
  { match type of Hrun with
    | match ?r with _ => _ end = _ => destruct r as [res|] eqn:E
    end.
    - injection Hrun as ->. apply run_Lit_inv in E as [_ E].
      now exists (length (lit "xml")).
    - exists 0. now rewrite Nat.add_0_r. }
  clear Hrun. destruct Hx as (x & Hrun).
  rewrite run_Seq, run_Star_greedy in Hrun.
  apply star_greedy_sound in Hrun as (n1 & _ & _ & Hrun). cbv beta in Hrun.
  rewrite run_Seq, run_Group in Hrun.
  apply run_sound in Hrun as (n2 & cap' & _ & HG & Hrun). cbv beta in Hrun.
  rewrite run_Seq, run_Star_greedy in Hrun.
  apply star_greedy_sound in Hrun as (n3 & _ & _ & Hrun). cbv beta in Hrun.
  apply run_Lit_inv in Hrun as [Hclose Hrun]. rewrite <- Hlf in Hrun.
  unfold accept in Hrun.
  injection Hrun as Hend Hcap.
  rewrite !skipn_skipn in *.
  replace (i0 + lf + x + n1 + n2 - (i0 + lf + x + n1)) with n2 in Hcap by lia.
  set (a := n1 + x + lf) in *.
  assert (Hn : n = a + (n2 + (n3 + lf))) by lia.
  exists (firstn a s0), (firstn n2 (skipn a s0)), (firstn (n3 + lf) (skipn (n2 + a) s0)).
  split; [|split; [|split; [|split; [|split; [|split]]]]].
  - rewrite Hm, Hn.
    rewrite <- (firstn_skipn_app _ a (n2 + (n3 + lf)) s0).
    rewrite <- (firstn_skipn_app _ n2 (n3 + lf) (skipn a s0)).
    now rewrite skipn_skipn.
  - now rewrite <- Hcap.
  - cbn [lang] in HG.
    destruct HG as (u & v & Huv & _ & o' & v2 & -> & -> & b & v3 & -> & _ &
                    c' & v4 & -> & -> & _).
    rewrite Huv. now exists u, b, v4.
  - rewrite length_firstn. lia.
  - rewrite length_firstn, length_skipn. lia.
  - exists (firstn (a - lf) (skipn lf s0)).
    replace (firstn a s0) with (firstn (lf + (a - lf)) s0) by (f_equal; lia).
    rewrite <- (firstn_skipn_app _ lf (a - lf) s0). f_equal.
    rewrite (starts_with_split _ _ Hopen), Hlf. apply firstn_app_exact.
  - exists (firstn n3 (skipn (n2 + a) s0)).
    rewrite <- firstn_skipn_app. f_equal.
    assert (Hsk : skipn n3 (skipn (n2 + a) s0) = skipn (n3 + n2 + n1 + x + lf) s0)
      by (rewrite skipn_skipn; f_equal; unfold a; lia).
    rewrite Hsk, (starts_with_split _ _ Hclose), Hlf. apply firstn_app_exact.
Qed.

(** Cleaning never lengthens the text. *)
Lemma replace_loop_fence_length fuel :
  forall i s, length (replace_loop fuel fence_re i s) <= length s.
Proof.
  induction fuel as [|fuel IH]; intros i s; cbn [replace_loop]; [lia|].
  destruct (exec_from fence_re i s) as [mr|] eqn:E; [|lia].
  destruct (fence_capture _ _ _ E) as (lead & cap & trail & Hm & Hcap & _ & Hl & Ht & _).
  destruct (exec_from_occurs _ _ _ _ E) as (u & v & Hs & Hidx).
  replace (index mr - i) with (length u) by lia.
  unfold capture1. rewrite Hcap.
  assert (Hlen : length (matched mr) = length lead + length cap + length trail)
    by (rewrite Hm, !length_app; lia).
  destruct (Nat.eqb_spec (length (matched mr)) 0) as [H0|_]; [lia|].
  subst s. rewrite firstn_app_exact.
  rewrite (app_assoc u (matched mr) v), <- length_app, skipn_app_exact.
  specialize (IH (index mr + length (matched mr)) v).
  rewrite !length_app. lia.
Qed.

(** When the fence pattern matches, cleaning leaves a block and removes at
    least the two markers. *)
Lemma stripCodeFences_match s mr :
  exec_from fence_re 0 s = Some mr ->
  has_block (stripCodeFences s) /\ length (stripCodeFences s) + 6 <= length s.
Proof.
  intros E. unfold stripCodeFences, replace_all_group1. cbn [replace_loop]. rewrite E.
  destruct (fence_capture _ _ _ E) as (lead & cap & trail & Hm & Hcap & Hb & Hl & Ht & _).
  destruct (exec_from_occurs _ _ _ _ E) as (u & v & Hs & Hidx).
  unfold capture1. rewrite Hcap. split.
  - apply has_block_app_r. now apply has_block_app_l.
  - replace (index mr - 0) with (length u) by lia.
    assert (Hlen : length (matched mr) = length lead + length cap + length trail)
      by (rewrite Hm, !length_app; lia).
    destruct (Nat.eqb_spec (length (matched mr)) 0) as [H0|_]; [lia|].
    subst s. rewrite firstn_app_exact.
    rewrite (app_assoc u (matched mr) v), <- (length_app u), skipn_app_exact.
    pose proof (replace_loop_fence_length (length ((u ++ matched mr) ++ v))
                  (index mr + length (matched mr)) v).
    rewrite !length_app in *. lia.
Qed.

Lemma has_block_cleaned s : has_block s -> has_block (stripCodeFences s).
Proof.
  intros H. destruct (exec_from fence_re 0 s) as [mr|] eqn:E.
  - now apply (stripCodeFences_match s mr).
  - unfold stripCodeFences, replace_all_group1.
    now rewrite (replace_loop_no_match _ _ _ _ E).
Qed.

Lemma has_block_cleaned_inv s : has_block (stripCodeFences s) -> has_block s.
Proof.
  intros H. destruct (exec block_re s) as [mt|] eqn:E.
  - exact (block_match_has_block _ _ _ E).
  - pose proof (exec_block_none _ E) as Hno.
    now rewrite (stripCodeFences_no_block _ Hno) in H.
Qed.

Lemma findCompleteBlock_none_inv s : findCompleteBlock s = None -> ~ has_block s.
Proof.
  unfold findCompleteBlock. intros H Hb.
  destruct (exec block_re (stripCodeFences s)) as [mt|] eqn:E; [discriminate|].
  exact (exec_block_none _ E (has_block_cleaned _ Hb)).
Qed.

(** What a found block is and where the buffer is cut: the cut depends on
    the first closing tag of the buffer and on what follows it. *)
Lemma findCompleteBlock_cut s bi :
  findCompleteBlock s = Some bi ->
  directive_block (block bi) /\
  occurs (block bi) (stripCodeFences s) /\
  exists q,
    first_at close_tag s q /\
    endIdx bi = Z.of_nat (q + 14 + fence_tail (skipn (q + 14) s)).
Proof.
  unfold findCompleteBlock. intros H.
  destruct (exec block_re (stripCodeFences s)) as [mt|] eqn:E; [|discriminate].
  injection H as <-. cbn [block endIdx].
  destruct (exec_block_re_directive _ _ E) as [Hd Ho].
  split; [assumption|]. split; [assumption|].
  pose proof (has_block_close _ (has_block_cleaned_inv _ (block_match_has_block _ _ _ E)))
    as (u & v & Hs).
  unfold indexOf.
  destruct (indexOf_from_cases close_tag s 0) as [[_ Hno]|(q & Hq & ->)].
  - specialize (Hno (length u)). rewrite Hs, occurs_starts_with in Hno. discriminate.
  - exists q. split; [assumption|].
    change (Z.of_nat (length close_tag)) with 14%Z.
    unfold substring. replace (Z.to_nat (0 + Z.of_nat q + 14)) with (q + 14) by lia.
    rewrite exec_trailing_fence_scan.
    pose proof (fence_tail_bound (skipn (q + 14) s)) as Hb.
    unfold fence_tail in *.
    destruct (starts_with fence (trimStart (skipn (q + 14) s))).
    + cbn [matched]. rewrite length_firstn. lia.
    + lia.
Qed.

Lemma findCompleteBlock_bounds s bi :
  findCompleteBlock s = Some bi ->
  (14 <= endIdx bi <= Z.of_nat (length s))%Z.
Proof.
  intros H. destruct (findCompleteBlock_cut _ _ H) as (_ & _ & q & Hq & ->).
  destruct Hq as (Hq & Hat & _).
  apply starts_with_length in Hat. rewrite length_skipn in Hat.
  change (length close_tag) with 14 in Hat.
  pose proof (fence_tail_bound (skipn (q + 14) s)) as Hb.
  rewrite length_skipn in Hb. lia.
Qed.

(** In a buffer without backticks, plain text and then a directive block:
    the block is found and the cut is just after it. *)
Lemma findCompleteBlock_plain pre b t :
  free_of 60 pre = true ->
  free_of 96 (pre ++ b ++ t) = true ->
  directive_block b ->
  findCompleteBlock (pre ++ b ++ t) = Some (BlockInfo b (Z.of_nat (length (pre ++ b)))).
Proof.
  intros Hlt Hbt Hd. pose proof Hd as (body & Hb & _).
  pose proof (directive_block_length _ _ Hb) as Hlen.
  unfold findCompleteBlock.
  rewrite (stripCodeFences_plain _ Hbt).
  rewrite (exec_block_re_text pre b t Hlt Hd). cbn [matched].
  unfold indexOf.
  rewrite (indexOf_from_first_at close_tag _ (length pre + (length b - 14)) 0).
  - change (Z.of_nat (length close_tag)) with 14%Z.
    replace (0 + Z.of_nat (length pre + (length b - 14)) + 14)%Z
      with (Z.of_nat (length (pre ++ b))) by (rewrite length_app; lia).
    unfold substring. rewrite Nat2Z.id.
    rewrite (app_assoc pre b t), skipn_app_exact.
    rewrite exec_trailing_fence_scan.
    rewrite !free_of_app in Hbt. apply andb_prop in Hbt as [_ Hbt].
    apply andb_prop in Hbt as [_ Hbt].
    pose proof (fence_tail_plain _ Hbt) as Ht. unfold fence_tail in Ht.
    destruct (starts_with fence (trimStart t)).
    + change (length fence) with 3 in Ht. lia.
    + f_equal. f_equal. lia.
  - apply first_at_skip.
    + now apply (starts_with_free 60).
    + apply first_at_app_tail. now apply directive_block_first_close.
Qed.

(** The text items of a structured payload. *)
Lemma fold_segments (items : list item) (acc : jsstring) :
  fold_left
    (fun acc it =>
       if jsstring_eqb (item_type it) (lit "text") then
         match item_text it with
         | Some t => acc ++ t
         | None => acc
         end
       else acc)
    items acc
  = acc ++ segments_text items.
Proof.
  revert acc. induction items as [|it items IH]; intros acc; cbn [fold_left].
  - unfold segments_text. cbn. now rewrite app_nil_r.
  - rewrite IH. unfold segments_text. cbn [flat_map].
    destruct (jsstring_eqb (item_type it) (lit "text")); [|reflexivity].
    destruct (item_text it); [now rewrite app_assoc|reflexivity].
Qed.

(** *** Backticks and markers *)

Lemma ticks_app s t : ticks (s ++ t) = ticks s + ticks t.
Proof. unfold ticks. now rewrite filter_app, length_app. Qed.

Lemma ticks_free s : free_of 96 s = true -> ticks s = 0.
Proof.
  unfold ticks, free_of. induction s as [|c s IH]; [reflexivity|].
  cbn [forallb filter]. destruct (N.eqb 96 c); [discriminate|exact IH].
Qed.

Lemma space_free_of_backtick ws : forallb is_space ws = true -> free_of 96 ws = true.
Proof.
  unfold free_of. induction ws as [|c ws IH]; [reflexivity|].
  cbn [forallb]. intros H. apply andb_prop in H as [Hc Hws].
  rewrite (IH Hws), andb_true_r.
  destruct (N.eqb_spec 96 c) as [<-|_]; [|reflexivity].
  now rewrite space_not_backtick in Hc.
Qed.

(** The fence pattern needs two markers. *)
Lemma fence_match_ticks i s mr : exec_from fence_re i s = Some mr -> 6 <= ticks s.
Proof.
  intros E.
  destruct (fence_capture _ _ _ E)
    as (lead & cap & trail & Hm & _ & _ & _ & _ & (l' & ->) & (t' & ->)).
  destruct (exec_from_occurs _ _ _ _ E) as (u & v & -> & _).
  rewrite Hm, !ticks_app. change (ticks fence) with 3. lia.
Qed.

(** A text with fewer than six backticks has no fence to strip. *)
Lemma stripCodeFences_few_ticks s : ticks s < 6 -> stripCodeFences s = s.
Proof.
  intros H. unfold stripCodeFences, replace_all_group1.
  apply replace_loop_no_match.
  destruct (exec_from fence_re 0 s) as [mr|] eqn:E; [|reflexivity].
  apply fence_match_ticks in E. lia.
Qed.

Lemma trimStart_spaces_app ws r :
  forallb is_space ws = true -> trimStart (ws ++ r) = trimStart r.
Proof.
  induction ws as [|c ws IH]; [reflexivity|].
  cbn [forallb app trimStart]. intros H. apply andb_prop in H as [-> Hws]. auto.
Qed.

Lemma fence_tail_marker ws t :
  forallb is_space ws = true -> fence_tail (ws ++ fence ++ t) = length ws + 3.
Proof.
  intros H. unfold fence_tail. rewrite (trimStart_spaces_app _ _ H).
  change (trimStart (fence ++ t)) with (fence ++ t).
  rewrite starts_with_app, !length_app. change (length fence) with 3. lia.
Qed.

(** Plain text, a directive block and more text, with too few backticks
    for a fence: the block is found, and the cut is after the block and the
    marker that may follow it. *)
Lemma findCompleteBlock_text pre b t :
  ticks (pre ++ b ++ t) < 6 ->
  free_of 60 pre = true ->
  directive_block b ->
  findCompleteBlock (pre ++ b ++ t)
  = Some (BlockInfo b (Z.of_nat (length (pre ++ b) + fence_tail t))).
Proof.
  intros Hticks Hlt Hd. pose proof Hd as (body & Hb & _).
  pose proof (directive_block_length _ _ Hb) as Hlen.
  unfold findCompleteBlock.
  rewrite (stripCodeFences_few_ticks _ Hticks).
  rewrite (exec_block_re_text pre b t Hlt Hd). cbn [matched].
  unfold indexOf.
  rewrite (indexOf_from_first_at close_tag _ (length pre + (length b - 14)) 0).
  - change (Z.of_nat (length close_tag)) with 14%Z.
    replace (0 + Z.of_nat (length pre + (length b - 14)) + 14)%Z
      with (Z.of_nat (length (pre ++ b))) by (rewrite length_app; lia).
    unfold substring. rewrite Nat2Z.id.
    rewrite (app_assoc pre b t), skipn_app_exact.
    rewrite exec_trailing_fence_scan.
    pose proof (fence_tail_bound t) as Hbound. unfold fence_tail in *.
    destruct (starts_with fence (trimStart t)).
    + cbn [matched]. rewrite length_firstn. f_equal. f_equal. lia.
    + f_equal. f_equal. lia.
  - apply first_at_skip.
    + now apply (starts_with_free 60).
    + apply first_at_app_tail. now apply directive_block_first_close.
Qed.

(** A closing tag and then a directive block: the block is found, and the
    cut is after the closing tag in front of it. *)
Lemma findCompleteBlock_after_close b :
  directive_block b ->
  free_of 96 b = true ->
  findCompleteBlock (close_tag ++ b) = Some (BlockInfo b 14).
Proof.
  intros Hd Hbt.
  assert (Hfree : free_of 96 (close_tag ++ b) = true)
    by (rewrite free_of_app, Hbt; reflexivity).
  unfold findCompleteBlock.
  rewrite (stripCodeFences_plain _ Hfree).
  assert (He : exec block_re (close_tag ++ b) = Some (MatchResult 14 b None)).
  { unfold exec. rewrite (exec_from_skip block_re 0 close_tag b).
    - pose proof (exec_from_block_head (0 + length close_tag) b [] Hd) as E.
      now rewrite app_nil_r in E.
    - intros j Hj. rewrite run_block_re.
      change (length close_tag) with 14 in Hj.
      do 14 (destruct j as [|j]; [reflexivity|]). lia. }
  rewrite He. cbn [matched].
  unfold indexOf. rewrite (indexOf_from_first_at close_tag _ 0 0).
  - change (0 + Z.of_nat 0 + Z.of_nat (length close_tag))%Z with 14%Z.
    unfold substring. change (Z.to_nat 14) with (length close_tag).
    rewrite skipn_app_exact, exec_trailing_fence_scan.
    pose proof (fence_tail_plain _ Hbt) as Ht. unfold fence_tail in Ht.
    destruct (starts_with fence (trimStart b)).
    + change (length fence) with 3 in Ht. lia.
    + reflexivity.
  - split; [cbn; lia|]. split; [apply starts_with_app|]. intros j Hj. lia.
Qed.

(** *** Tags in front of a block *)

(** Text without "<" that matches up to a "<" matches before it. *)
Lemma starts_with_before_lt p a r :
  free_of 60 p = true ->
  starts_with p (a ++ 60%N :: r) = true ->
  starts_with p a = true.
Proof.
  revert a. induction p as [|x p IH]; intros a Hp H; [reflexivity|].
  cbn [free_of forallb] in Hp. apply andb_prop in Hp as [Hx Hp].
  destruct a as [|y a]; cbn [app starts_with] in *.
  - apply andb_prop in H as [H _]. apply N.eqb_eq in H. subst x. discriminate.
  - apply andb_prop in H as [Hxy H]. rewrite Hxy. cbn [andb]. now apply IH.
Qed.

(** A tag that starts before text beginning with "<" ends before it. *)
Lemma tag_within_prefix tag pre r j :
  free_of 60 tag = true ->
  j < length pre ->
  starts_with (60%N :: tag) (skipn j (pre ++ 60%N :: r)) = true ->
  starts_with (60%N :: tag) (skipn j pre) = true.
Proof.
  intros Htag Hj H. rewrite skipn_app in H.
  replace (j - length pre) with 0 in H by lia. cbn [skipn] in H.
  destruct (skipn j pre) as [|y a] eqn:E.
  - apply (f_equal (@length char)) in E. rewrite length_skipn in E. cbn in E. lia.
  - cbn [app starts_with] in *. apply andb_prop in H as [Hy H]. rewrite Hy.
    cbn [andb]. now apply (starts_with_before_lt tag a r).
Qed.

Lemma directive_block_head b t :
  directive_block b -> exists r, b ++ t = 60%N :: r.
Proof.
  intros (body & -> & _). change open_tag with (60%N :: lit "writeToFile>").
  cbn [app]. eauto.
Qed.

Lemma no_open_tag_before pre b t j :
  ~ occurs open_tag pre ->
  directive_block b ->
  j < length pre ->
  starts_with open_tag (skipn j (pre ++ b ++ t)) = false.
Proof.
  intros Hno Hd Hj. destruct (directive_block_head b t Hd) as (r & ->).
  destruct (starts_with open_tag (skipn j (pre ++ 60%N :: r))) eqn:E; [|reflexivity].
  exfalso. apply Hno. apply (starts_with_occurs open_tag pre j).
  now apply (tag_within_prefix (lit "writeToFile>") pre r j).
Qed.

Lemma close_tag_before pre b t j :
  directive_block b ->
  j < length pre ->
  starts_with close_tag (skipn j (pre ++ b ++ t)) = true ->
  j + 14 <= length pre.
Proof.
  intros Hd Hj H. destruct (directive_block_head b t Hd) as (r & Hr).
  rewrite Hr in H.
  apply (tag_within_prefix (lit "/writeToFile>") pre r j eq_refl Hj) in H.
  apply starts_with_length in H. rewrite length_skipn in H.
  change (length (60%N :: lit "/writeToFile>")) with 14 in H. lia.
Qed.

Lemma first_at_unique p s n m : first_at p s n -> first_at p s m -> n = m.
Proof.
  intros (_ & Hn & Hbn) (_ & Hm & Hbm).
  destruct (Nat.lt_trichotomy n m) as [H|[H|H]]; [|assumption|].
  - rewrite (Hbm n H) in Hn. discriminate.
  - rewrite (Hbn m H) in Hm. discriminate.
Qed.

Lemma free_of_skipn h k s : free_of h s = true -> free_of h (skipn k s) = true.
Proof.
  intros H. rewrite <- (firstn_skipn k s), free_of_app in H.
  now apply andb_prop in H as [_ H].
Qed.

Lemma occurs_skipn p k s : occurs p (skipn k s) -> occurs p s.
Proof.
  intros (u & v & H). exists (firstn k s ++ u), v.
  rewrite <- app_assoc, <- H. symmetry. apply firstn_skipn.
Qed.

(** No marker follows text that has no backtick and runs into a "<". *)
Lemma fence_tail_text u r : free_of 96 u = true -> fence_tail (u ++ 60%N :: r) = 0.
Proof.
  intros Hu. unfold fence_tail.
  assert (H : starts_with fence (trimStart (u ++ 60%N :: r)) = false).
  { induction u as [|c u IH]; [reflexivity|].
    cbn [free_of forallb] in Hu. apply andb_prop in Hu as [Hc Hu].
    cbn [app trimStart]. destruct (is_space c); [now apply IH|].
    change fence with (96%N :: lit "``"). cbn [starts_with].
    now destruct (N.eqb 96 c). }
  now rewrite H.
Qed.

(** The first directive block of a buffer, after text that holds no opening
    tag and no backtick: the block is found, and the buffer is cut after a
    closing tag of the text before the block when there is one, after the
    block and the marker that may follow it otherwise. *)
Lemma findCompleteBlock_first_block pre b t :
  ~ occurs open_tag pre ->
  free_of 96 pre = true ->
  directive_block b ->
  ticks (b ++ t) < 6 ->
  (exists q,
      q + 14 <= length pre /\
      findCompleteBlock (pre ++ b ++ t) = Some (BlockInfo b (Z.of_nat (q + 14)))) \/
  findCompleteBlock (pre ++ b ++ t)
  = Some (BlockInfo b (Z.of_nat (length (pre ++ b) + fence_tail t))).
Proof.
  intros Hno Hpre Hd Hticks.
  assert (Hall : ticks (pre ++ b ++ t) < 6)
    by (rewrite ticks_app, (ticks_free _ Hpre); exact Hticks).
  assert (He : exec block_re (stripCodeFences (pre ++ b ++ t))
               = Some (MatchResult (length pre) b None)).
  { rewrite (stripCodeFences_few_ticks _ Hall). unfold exec.
    rewrite (exec_from_skip block_re 0 pre (b ++ t)).
    - now apply exec_from_block_head.
    - intros j Hj. rewrite run_block_re.
      now rewrite (no_open_tag_before pre b t j Hno Hd Hj). }
  assert (Hf : exists e, findCompleteBlock (pre ++ b ++ t) = Some (BlockInfo b e)).
  { unfold findCompleteBlock. rewrite He. cbn [matched]. eauto. }
  destruct Hf as (e & Hf).
  destruct (findCompleteBlock_cut _ _ Hf) as (_ & _ & q & Hq & Hend).
  cbn [endIdx] in Hend. subst e.
  pose proof Hd as (body & Hb & _).
  pose proof (directive_block_length _ _ Hb) as Hlen.
  destruct (Nat.lt_ge_cases q (length pre)) as [Hlt|Hge].
  - left. exists q.
    pose proof Hq as (_ & Hat & _).
    pose proof (close_tag_before pre b t q Hd Hlt Hat) as Hin.
    split; [exact Hin|]. rewrite Hf. f_equal. f_equal. f_equal.
    rewrite skipn_app. replace (q + 14 - length pre) with 0 by lia. cbn [skipn].
    destruct (directive_block_head b t Hd) as (r & ->).
    rewrite (fence_tail_text _ r (free_of_skipn 96 (q + 14) pre Hpre)). lia.
  - right. rewrite Hf. f_equal. f_equal. f_equal.
    assert (Hfirst : first_at close_tag (pre ++ b ++ t) (length pre + (length b - 14))).
    { apply first_at_skip.
      - intros j Hj. destruct Hq as (_ & _ & Hbefore). apply Hbefore. lia.
      - apply first_at_app_tail. now apply directive_block_first_close. }
    rewrite (first_at_unique _ _ _ _ Hq Hfirst).
    replace (length pre + (length b - 14) + 14) with (length (pre ++ b))
      by (rewrite length_app; lia).
    now rewrite (app_assoc pre b t), skipn_app_exact.
Qed.

(** *** Properties of the patterns and of findCompleteBlock *)

(** X1. The path of a block is the trimmed text between the first
    [<path>] of the block and the first [</path>] after it, and there is no
    path when either is missing; the content is read the same way between
    [<content>] and [</content>].  The two patterns are scans with
    [indexOf]. *)
Theorem fields_are_first_tag_pairs (blk : jsstring) :
  filePath blk =
    option_map (fun nb => trim (snd nb))
               (scan_between (lit "<path>") (lit "</path>") blk) /\
  fileContent blk =
    option_map (fun nb => trim (snd nb))
               (scan_between (lit "<content>") (lit "</content>") blk).
Proof.
  unfold filePath, fileContent.
  change path_re with (tag_pair_re (lit "<path>") (lit "</path>")).
  change content_re with (tag_pair_re (lit "<content>") (lit "</content>")).
  rewrite !exec_tag_pair_scan.
  split.
  - now destruct (scan_between (lit "<path>") (lit "</path>") blk) as [[n body]|].
  - now destruct (scan_between (lit "<content>") (lit "</content>") blk) as [[n body]|].
Qed.

(** X2. findCompleteBlock finds nothing exactly when the buffer holds no
    opening tag followed by a closing tag: code fences neither hide a block
    nor make one up. *)
Theorem no_block_found_iff_no_block (s : jsstring) :
  findCompleteBlock s = None <-> ~ has_block s.
Proof.
  split.
  - apply findCompleteBlock_none_inv.
  - apply findCompleteBlock_no_block.
Qed.

(** X3. The block findCompleteBlock returns is a directive block (the
    opening tag, a body, and the first closing tag after it), it is the
    leftmost one of the cleaned text, and the buffer itself holds an
    opening tag followed by a closing tag. *)
Theorem found_block_is_directive_block (s : jsstring) (bi : block_info) :
  findCompleteBlock s = Some bi ->
  directive_block (block bi) /\
  is_directive_block (block bi) = true /\
  (exists u v,
      stripCodeFences s = u ++ block bi ++ v /\
      forall j, j < length u ->
                starts_with open_tag (skipn j (stripCodeFences s)) = false) /\
  has_block s.
Proof.
  intros H.
  unfold findCompleteBlock in H.
  destruct (exec block_re (stripCodeFences s)) as [mt|] eqn:E; [|discriminate].
  injection H as <-. cbn [block].
  destruct (exec_block_re_directive _ _ E) as [Hd _].
  split; [assumption|]. split; [|split].
  - destruct Hd as (body & Hb & Hfirst). unfold is_directive_block.
    rewrite Hb, starts_with_app. cbn [andb].
    rewrite skipn_app_exact. unfold indexOf.
    rewrite (indexOf_from_first_at _ _ _ 0 Hfirst).
    rewrite length_app. apply Z.eqb_eq. lia.
  - rewrite exec_block_re_scan in E.
    destruct (scan_between open_tag close_tag (stripCodeFences s))
      as [[n body]|] eqn:Es; [|discriminate].
    assert (Hmt : matched mt = open_tag ++ body ++ close_tag)
      by (now injection E as <-).
    rewrite Hmt. clear E Hd Hmt.
    destruct (scan_between_some _ _ _ _ _ Es) as ((Hn & Hat & Hbefore) & Hcl & Hbody).
    exists (firstn n (stripCodeFences s)),
           (skipn (length close_tag)
                  (skipn (length body) (skipn (n + length open_tag) (stripCodeFences s)))).
    split.
    + destruct Hcl as (_ & Hat' & _).
      set (rest := skipn (n + length open_tag) (stripCodeFences s)) in *.
      assert (Hrest : body ++ skipn (length body) rest = rest).
      { transitivity (firstn (length body) rest ++ skipn (length body) rest);
          [now rewrite <- Hbody|apply firstn_skipn]. }
      assert (Hopen : open_tag ++ rest = skipn n (stripCodeFences s)).
      { rewrite (starts_with_split _ _ Hat) at 1. f_equal.
        unfold rest. now rewrite skipn_skipn, Nat.add_comm. }
      rewrite <- !app_assoc, <- (starts_with_split _ _ Hat'), Hrest, Hopen.
      now rewrite firstn_skipn.
    + intros j Hj. apply Hbefore. rewrite length_firstn in Hj. lia.
  - apply has_block_cleaned_inv.
    exact (block_match_has_block _ _ _ E).
Qed.

(** X4. The index at which the buffer is cut after a found block does not
    depend on where the block is: it is the end of the first closing tag of
    the buffer, plus the white space and the fence marker when these follow
    the tag.  It is at least 14 and within the buffer. *)
Theorem cut_follows_first_closing_tag (s : jsstring) (bi : block_info) :
  findCompleteBlock s = Some bi ->
  exists q,
    first_at close_tag s q /\
    indexOf s close_tag = Z.of_nat q /\
    endIdx bi = Z.of_nat (q + 14 + fence_tail (skipn (q + 14) s)) /\
    (14 <= endIdx bi <= Z.of_nat (length s))%Z /\
    substring s (endIdx bi) = skipn (fence_tail (skipn (q + 14) s)) (skipn (q + 14) s).
Proof.
  intros H.
  pose proof (findCompleteBlock_bounds _ _ H) as Hb.
  destruct (findCompleteBlock_cut _ _ H) as (_ & _ & q & Hq & He).
  exists q. split; [assumption|]. split; [|split; [assumption|split; [assumption|]]].
  - unfold indexOf. now rewrite (indexOf_from_first_at _ _ _ 0 Hq).
  - unfold substring. rewrite He, Nat2Z.id, skipn_skipn. f_equal. lia.
Qed.

(** X5. Cleaning keeps the question whether there is a block: the cleaned
    text holds a block exactly when the text does.  It never lengthens the
    text: it leaves it as it is, or removes at least the two fence
    markers. *)
Theorem stripCodeFences_keeps_blocks (s : jsstring) :
  (has_block (stripCodeFences s) <-> has_block s) /\
  (stripCodeFences s = s \/ length (stripCodeFences s) + 6 <= length s).
Proof.
  split.
  - split; [apply has_block_cleaned_inv|apply has_block_cleaned].
  - destruct (exec_from fence_re 0 s) as [mr|] eqn:E.
    + right. now apply (stripCodeFences_match s mr).
    + left. unfold stripCodeFences, replace_all_group1.
      now apply replace_loop_no_match.
Qed.

(** X18. Cleaning unwraps a fenced directive block: the opening marker
    with its optional [xml] tag, the closing marker and the white space
    inside the fence go, the block stays, and so does the text around the
    fence when it has no fence of its own. *)
Theorem stripCodeFences_unwraps_fence
        (pre ws1 ws2 b t : jsstring) (xml : bool) :
  free_of 96 pre = true ->
  directive_block b ->
  forallb is_space ws1 = true ->
  forallb is_space ws2 = true ->
  ticks t < 6 ->
  stripCodeFences (pre ++ fenced xml ws1 ws2 b ++ t) = pre ++ b ++ t.
Proof.
  intros Hpre Hd H1 H2 Ht. unfold stripCodeFences, replace_all_group1.
  cbn [replace_loop].
  rewrite (fence_re_skip 0 pre _ Hpre), (exec_from_fence_fenced _ xml ws1 ws2 b t Hd H1 H2).
  cbn [index matched capture1 group1 Nat.add]. rewrite Nat.sub_0_r, firstn_app_exact.
  destruct (Nat.eqb_spec (length (fenced xml ws1 ws2 b)) 0) as [E|_].
  - rewrite fenced_length in E. change (length fence) with 3 in E. lia.
  - f_equal. f_equal.
    rewrite (app_assoc pre), <- length_app, skipn_app_exact.
    apply replace_loop_no_match.
    destruct (exec_from fence_re _ t) as [mr|] eqn:E; [|reflexivity].
    apply fence_match_ticks in E. lia.
Qed.
(** ** The loop of processChunk *)

Section StreamerFacts.

Context {Extra World Result : Type}.
Variable callTool : World -> tool_args -> outcome Result * World.
Variable format : jsstring -> Result -> outcome jsstring.

Local Abbreviation loop := (@blocks_loop Extra World Result callTool format).
Local Abbreviation runB := (@run_blocks Extra World Result callTool format).
Local Abbreviation disp := (@dispatch Extra World Result callTool format).
Local Abbreviation handle := (@handle_block Extra World Result callTool format).
Local Abbreviation process := (@processChunk Extra World Result callTool format).
Local Abbreviation stream := (@processStream Extra World Result callTool format).

(** Fuel beyond the length of the buffer changes nothing, and the loop
    always ends with it. *)
Lemma blocks_loop_enough (n : nat) :
  forall (c : chunk Extra) (w : World) (buf : jsstring) (f : nat),
    length buf < n -> n <= f ->
    loop f c w buf = loop n c w buf /\
    exists r, loop n c w buf = Some r.
Proof.
  induction n as [|n IH]; intros c w buf f Hlen Hf; [lia|].
  destruct f as [|f]; [lia|].
  cbn [blocks_loop].
  destruct (findCompleteBlock buf) as [bi|] eqn:E; [|eauto].
  pose proof (findCompleteBlock_shrinks _ _ E) as Hs.
  assert (Hn : length (substring buf (endIdx bi)) < n) by lia.
  destruct (filePath (block bi)) as [[|p0 p]|].
  - apply IH; lia.
  - destruct (disp c w _) as [evs w'].
    destruct (IH c w' _ f Hn ltac:(lia)) as [-> (r & ->)].
    split; [reflexivity|]. destruct r as [[evs' w''] b']. eauto.
  - apply IH; lia.
Qed.

Lemma run_blocks_total (c : chunk Extra) (w : World) (buf : jsstring) :
  exists r, runB c w buf = Some r.
Proof.
  unfold run_blocks.
  apply (@blocks_loop_enough (S (length buf)) c w buf (S (length buf))); lia.
Qed.

(** The loop as the source writes it: one block, then the rest of the
    buffer. *)
Lemma run_blocks_unfold (c : chunk Extra) (w : World) (buf : jsstring) :
  runB c w buf =
  match findCompleteBlock buf with
  | None => Some ([], w, buf)
  | Some bi =>
      match filePath (block bi) with
      | Some (p0 :: p) =>
          let '(evs, w') :=
            disp c w (ToolArgs (p0 :: p) (or_empty (fileContent (block bi))) false) in
          match runB c w' (substring buf (endIdx bi)) with
          | Some (evs', w'', buf') => Some (evs ++ evs', w'', buf')
          | None => None
          end
      | _ => runB c w (substring buf (endIdx bi))
      end
  end.
Proof.
  unfold run_blocks at 1. cbn [blocks_loop].
  destruct (findCompleteBlock buf) as [bi|] eqn:E; [|reflexivity].
  pose proof (findCompleteBlock_shrinks _ _ E) as Hs.
  assert (Hfuel : forall w',
    loop (length buf) c w' (substring buf (endIdx bi)) =
    runB c w' (substring buf (endIdx bi))).
  { intros w'. unfold run_blocks.
    destruct (@blocks_loop_enough (S (length (substring buf (endIdx bi)))) c w'
                (substring buf (endIdx bi)) (length buf))
      as [-> _]; auto; lia. }
  destruct (filePath (block bi)) as [[|p0 p]|]; try apply Hfuel.
  destruct (disp c w _) as [evs w']. now rewrite Hfuel.
Qed.

Lemma run_blocks_none (c : chunk Extra) (w : World) (buf : jsstring) :
  findCompleteBlock buf = None -> runB c w buf = Some ([], w, buf).
Proof. intros H. now rewrite run_blocks_unfold, H. Qed.

Lemma dispatch_eq (c : chunk Extra) (w : World) (a : tool_args) :
  disp c w a =
  ([Call a; Yield (with_content c (status_text format (fst (callTool w a))))],
   snd (callTool w a)).
Proof.
  unfold dispatch. now destruct (callTool w a) as [res w'].
Qed.

Lemma dispatch_events (c : chunk Extra) (w : World) (a : tool_args) :
  exists text,
    disp c w a = ([Call a; Yield (with_content c text)], snd (callTool w a)).
Proof. rewrite dispatch_eq. eauto. Qed.

Lemma run_blocks_step (c : chunk Extra) (w : World) (buf : jsstring) :
  runB c w buf =
  match findCompleteBlock buf with
  | None => Some ([], w, buf)
  | Some bi =>
      let '(evs, w') := handle c w (block bi) in
      match runB c w' (substring buf (endIdx bi)) with
      | Some (evs', w'', buf') => Some (evs ++ evs', w'', buf')
      | None => None
      end
  end.
Proof.
  rewrite run_blocks_unfold. unfold handle_block.
  destruct (findCompleteBlock buf) as [bi|]; [|reflexivity].
  destruct (filePath (block bi)) as [[|p0 p]|]; try reflexivity;
    now destruct (runB c w (substring buf (endIdx bi))) as [[[evs' w''] buf']|].
Qed.

(** Induction along the turns of the loop. *)
Lemma run_blocks_ind (c : chunk Extra)
      (P : World -> jsstring -> list (event Extra) -> World -> jsstring -> Prop) :
  (forall w buf, findCompleteBlock buf = None -> P w buf [] w buf) ->
  (forall w buf bi evs w' evs' w'' buf',
      findCompleteBlock buf = Some bi ->
      handle c w (block bi) = (evs, w') ->
      runB c w' (substring buf (endIdx bi)) = Some (evs', w'', buf') ->
      P w' (substring buf (endIdx bi)) evs' w'' buf' ->
      P w buf (evs ++ evs') w'' buf') ->
  forall w buf evs w' buf',
    runB c w buf = Some (evs, w', buf') -> P w buf evs w' buf'.
Proof.
  intros Hnone Hsome w buf. remember (length buf) as n eqn:Hn.
  revert w buf Hn. induction n as [n IH] using lt_wf_ind.
  intros w buf -> evs w' buf' H. rewrite run_blocks_step in H.
  destruct (findCompleteBlock buf) as [bi|] eqn:E.
  - destruct (handle c w (block bi)) as [evs1 w1] eqn:Eh.
    destruct (runB c w1 (substring buf (endIdx bi)))
      as [[[evs2 w2] buf2]|] eqn:Er; [|discriminate].
    injection H as <- <- <-.
    eapply Hsome; eauto.
    eapply IH; eauto using findCompleteBlock_shrinks.
  - injection H as <- <- <-. now apply Hnone.
Qed.

Lemma handle_block_status (c : chunk Extra) (w : World) (blk : jsstring) :
  Forall (status_of c) (fst (handle c w blk)).
Proof.
  unfold handle_block.
  destruct (filePath blk) as [[|p0 p]|]; simpl; auto.
  destruct (dispatch_events c w (ToolArgs (p0 :: p) (or_empty (fileContent blk)) false))
    as (text & ->).
  simpl. repeat constructor. now exists text.
Qed.

Lemma run_blocks_status (c : chunk Extra) (w : World) (buf : jsstring) evs w' buf' :
  runB c w buf = Some (evs, w', buf') -> Forall (status_of c) evs.
Proof.
  intros H.
  eapply (@run_blocks_ind c (fun _ _ e _ _ => Forall (status_of c) e));
    [auto | | exact H].
  intros w0 buf0 bi evs0 w1 evs1 w2 buf2 _ Hh _ IH.
  apply Forall_app. split; [|exact IH].
  pose proof (handle_block_status c w0 (block bi)) as Hs. now rewrite Hh in Hs.
Qed.

(** C1. Every call of processChunk returns, and its output starts with the
    chunk it was given, unchanged; whatever follows in the same call is a tool
    invocation or a status chunk made from that chunk by replacing its
    content. *)
Theorem processChunk_yields_chunk_first (st : state World) (c : chunk Extra) :
  exists evs st',
    process st c = Some (Yield c :: evs, st') /\
    Forall (status_of c) evs.
Proof.
  unfold processChunk.
  set (buf := match chunkContent c with [] => buffer st | _ => _ end).
  destruct (run_blocks_total c (world st) buf) as ([[evs w] buf'] & H).
  rewrite H. exists evs, (State buf' w). split; [reflexivity|].
  eauto using run_blocks_status.
Qed.

Lemma handle_block_confirmation (c : chunk Extra) (w : World) (blk : jsstring) :
  Forall (fun a => confirmation a = false) (calls (fst (handle c w blk))).
Proof.
  unfold handle_block.
  destruct (filePath blk) as [[|p0 p]|]; simpl; auto.
  destruct (dispatch_events c w (ToolArgs (p0 :: p) (or_empty (fileContent blk)) false))
    as (text & ->).
  simpl. repeat constructor.
Qed.

Lemma calls_app (evs evs' : list (event Extra)) :
  calls (evs ++ evs') = calls evs ++ calls evs'.
Proof. unfold calls. now rewrite flat_map_app. Qed.

Lemma run_blocks_confirmation (c : chunk Extra) (w : World) (buf : jsstring) evs w' buf' :
  runB c w buf = Some (evs, w', buf') ->
  Forall (fun a => confirmation a = false) (calls evs).
Proof.
  intros H.
  eapply (@run_blocks_ind c
            (fun _ _ e _ _ => Forall (fun a => confirmation a = false) (calls e)));
    [intros; constructor | | exact H].
  intros w0 buf0 bi evs0 w1 evs1 w2 buf2 _ Hh _ IH.
  rewrite calls_app. apply Forall_app. split; [|exact IH].
  pose proof (handle_block_confirmation c w0 (block bi)) as Hs. now rewrite Hh in Hs.
Qed.

(** One turn of the loop on a block that has a path. *)
Lemma run_blocks_dispatch (c : chunk Extra) (w : World) (buf : jsstring) bi p0 p :
  findCompleteBlock buf = Some bi ->
  filePath (block bi) = Some (p0 :: p) ->
  let a := ToolArgs (p0 :: p) (or_empty (fileContent (block bi))) false in
  exists text evs w2 buf2,
    disp c w a = ([Call a; Yield (with_content c text)], snd (callTool w a)) /\
    runB c (snd (callTool w a)) (substring buf (endIdx bi)) = Some (evs, w2, buf2) /\
    runB c w buf = Some (Call a :: Yield (with_content c text) :: evs, w2, buf2).
Proof.
  intros Hf Hp a.
  destruct (dispatch_events c w a) as (text & Hd).
  destruct (run_blocks_total c (snd (callTool w a)) (substring buf (endIdx bi)))
    as ([[evs w2] buf2] & Hr).
  exists text, evs, w2, buf2. repeat split; auto.
  rewrite run_blocks_unfold, Hf, Hp. fold a. rewrite Hd, Hr. reflexivity.
Qed.

(** processChunk appends the text of the chunk to the buffer, yields the
    chunk and runs the loop. *)
Lemma processChunk_appends (st : state World) (c : chunk Extra) :
  process st c =
  match runB c (world st) (buffer st ++ chunkContent c) with
  | Some (evs, w, buf') => Some (Yield c :: evs, State buf' w)
  | None => None
  end.
Proof.
  unfold processChunk. destruct (chunkContent c); [|reflexivity].
  now rewrite app_nil_r.
Qed.

(** One turn of the loop on a found block in which the path pattern
    matches nothing: no tool is invoked and nothing is yielded or raised; the
    loop goes on with the buffer cut at the end offset, which is strictly
    shorter, and it returns. *)
Lemma pathless_turn_is_skipped
        (c : chunk Extra) (w : World) (buf : jsstring) (bi : block_info) :
  findCompleteBlock buf = Some bi ->
  exec path_re (block bi) = None ->
  length (substring buf (endIdx bi)) < length buf /\
  runB c w buf = runB c w (substring buf (endIdx bi)) /\
  exists evs w' buf', runB c w buf = Some (evs, w', buf').
Proof.
  intros Hf Hp. split; [eauto using findCompleteBlock_shrinks|].
  assert (Heq : runB c w buf = runB c w (substring buf (endIdx bi))).
  { rewrite run_blocks_unfold, Hf. unfold filePath. now rewrite Hp. }
  split; [exact Heq|].
  destruct (run_blocks_total c w buf) as ([[evs w'] buf'] & H). eauto.
Qed.


(** One turn of the loop on a found block with a path and without a
    content field: the tool is invoked with the empty string as content and
    confirmation switched off, and the loop goes on. *)
Lemma missing_content_turn
        (c : chunk Extra) (w : World) (buf : jsstring) (bi : block_info)
        (p0 : char) (p : jsstring) :
  findCompleteBlock buf = Some bi ->
  filePath (block bi) = Some (p0 :: p) ->
  exec content_re (block bi) = None ->
  exists text evs w2 buf2,
    runB c (snd (callTool w (ToolArgs (p0 :: p) [] false)))
         (substring buf (endIdx bi)) = Some (evs, w2, buf2) /\
    runB c w buf =
      Some (Call (ToolArgs (p0 :: p) [] false)
              :: Yield (with_content c text) :: evs, w2, buf2) /\
    Forall (fun a => confirmation a = false)
           (calls (Call (ToolArgs (p0 :: p) [] false)
                     :: Yield (with_content c text) :: evs)).
Proof.
  intros Hf Hp Hc.
  destruct (run_blocks_dispatch c w buf _ _ _ Hf Hp) as (text & evs & w2 & buf2 & _ & Hr & H).
  assert (Hempty : or_empty (fileContent (block bi)) = []).
  { unfold fileContent. now rewrite Hc. }
  rewrite Hempty in Hr, H.
  exists text, evs, w2, buf2. repeat split; auto.
  eauto using run_blocks_confirmation.
Qed.

Lemma stray_input_found :
  findCompleteBlock stray_input = Some (BlockInfo sample_block 14).
Proof. vm_compute. reflexivity. Qed.

Lemma sample_block_found :
  findCompleteBlock sample_block = Some (BlockInfo sample_block 65).
Proof. vm_compute. reflexivity. Qed.

(** C4. A closing tag that precedes a complete block makes the loop cut
    the buffer after that first closing tag instead of after the block: the
    block stays in the buffer, is found a second time, and the tool is invoked
    twice for it. *)
Theorem stray_close_tag_dispatches_twice (w : World) (x : Extra) :
  exists evs st',
    process (State [] w) (Chunk (Text stray_input) x) = Some (evs, st') /\
    calls evs = [ToolArgs (lit "a.md") (lit "hi") false;
                 ToolArgs (lit "a.md") (lit "hi") false].
Proof.
  rewrite processChunk_appends. cbn [chunkContent chunk_content buffer world app].
  set (c := Chunk (Text stray_input) x).
  set (a := ToolArgs (lit "a.md") (lit "hi") false).
  assert (Hp : filePath sample_block = Some (lit "a.md")) by (vm_compute; reflexivity).
  assert (Hc : or_empty (fileContent sample_block) = lit "hi") by (vm_compute; reflexivity).
  destruct (run_blocks_dispatch c w stray_input _ _ _ stray_input_found Hp)
    as (t1 & evs1 & w2 & buf2 & _ & Hr1 & H1).
  cbn [block endIdx] in Hr1, H1. rewrite Hc in Hr1, H1.
  change (runB c (snd (callTool w a)) sample_block = Some (evs1, w2, buf2)) in Hr1.
  change (runB c w stray_input =
          Some (Call a :: Yield (with_content c t1) :: evs1, w2, buf2)) in H1.
  destruct (run_blocks_dispatch c (snd (callTool w a)) sample_block _ _ _ sample_block_found Hp)
    as (t2 & evs2 & w3 & buf3 & _ & Hr2 & H2).
  cbn [block endIdx] in Hr2, H2. rewrite Hc in Hr2, H2.
  change (runB c (snd (callTool (snd (callTool w a)) a)) [] = Some (evs2, w3, buf3)) in Hr2.
  change (runB c (snd (callTool w a)) sample_block =
          Some (Call a :: Yield (with_content c t2) :: evs2, w3, buf3)) in H2.
  rewrite run_blocks_none in Hr2 by reflexivity.
  injection Hr2 as <- <- <-.
  rewrite H2 in Hr1. injection Hr1 as <- <- <-.
  rewrite H1. eexists _, _. split; [reflexivity|]. reflexivity.
Qed.

Lemma calls_yields (cs : list (chunk Extra)) : calls (map Yield cs) = [].
Proof. induction cs; simpl; auto. Qed.

(** While the accumulated text holds no complete block, a stream is passed
    through and kept in the buffer. *)
Lemma processStream_no_block (cs : list (chunk Extra)) :
  forall st : state World,
    ~ has_block (buffer st ++ texts cs) ->
    stream st cs = Some (map Yield cs, State (buffer st ++ texts cs) (world st)).
Proof.
  induction cs as [|c cs IH]; intros st H.
  - unfold texts. simpl. rewrite app_nil_r. now destruct st.
  - unfold texts in *. simpl concat in H. simpl map. cbn [processStream].
    rewrite app_assoc in H.
    rewrite processChunk_appends, run_blocks_none
      by (apply findCompleteBlock_no_block; eauto using no_block_prefix).
    rewrite (IH (State (buffer st ++ chunkContent c) (world st)) H).
    cbn [buffer world]. simpl concat. now rewrite app_assoc.
Qed.

(** C9. When the text accumulated over a stream is some text without a
    complete block, then an opening tag, then text in which no closing tag
    occurs, no tool is ever invoked: every chunk is passed through and the
    whole text, the unterminated block included, is in the buffer when the
    stream ends. *)
Theorem unterminated_block_stays
        (st : state World) (cs : list (chunk Extra)) (pre rest : jsstring) :
  buffer st ++ texts cs = pre ++ open_tag ++ rest ->
  exec block_re pre = None ->
  indexOf (open_tag ++ rest) close_tag = (-1)%Z ->
  exists evs st',
    stream st cs = Some (evs, st') /\
    calls evs = [] /\
    evs = map Yield cs /\
    buffer st' = pre ++ open_tag ++ rest.
Proof.
  intros Htext Hpre Hrest. apply indexOf_absent_inv in Hrest.
  pose proof (@no_block_before_open pre rest Hpre Hrest) as Hno. rewrite <- Htext in Hno.
  exists (map Yield cs), (State (buffer st ++ texts cs) (world st)).
  split; [now apply processStream_no_block|].
  split; [apply calls_yields|]. split; [reflexivity|exact Htext].
Qed.

(** *** A block delivered whole or in fragments *)

Lemma run_blocks_directive_block (c : chunk Extra) (w : World) (b : jsstring) :
  directive_block b ->
  runB c w b = Some (fst (handle c w b), snd (handle c w b), []).
Proof.
  intros Hd.
  pose proof (findCompleteBlock_text_block [] b eq_refl eq_refl Hd) as Hf.
  cbn [app] in Hf. rewrite run_blocks_step, Hf.
  cbn [block endIdx]. unfold substring. rewrite Nat2Z.id, skipn_all.
  destruct (handle c w b) as [evs w'].
  rewrite run_blocks_none by apply findCompleteBlock_nil.
  now rewrite app_nil_r.
Qed.

Lemma dispatches_yields (cs : list (chunk Extra)) : dispatches (map Yield cs) = [].
Proof. induction cs; simpl; auto. Qed.

Lemma handle_block_outcome (c : chunk Extra) (w : World) (blk : jsstring)
      (cs : list (chunk Extra)) :
  dispatches (fst (handle c w blk) ++ map Yield cs) = block_outcome callTool format w blk.
Proof.
  unfold handle_block, block_outcome.
  destruct (filePath blk) as [[|p0 p]|]; cbn [fst app]; try apply dispatches_yields.
  rewrite dispatch_eq. cbn [fst app dispatches chunk_content with_content].
  now rewrite dispatches_yields.
Qed.

(** The events of the loop do not depend on the chunk beyond the fields the
    status chunks copy from it. *)
Lemma handle_block_rechunk (c c' : chunk Extra) (w : World) (blk : jsstring) :
  handle c' w blk =
  (map (rechunk (chunk_rest c')) (fst (handle c w blk)), snd (handle c w blk)).
Proof.
  unfold handle_block.
  destruct (filePath blk) as [[|p0 p]|]; try reflexivity.
  now rewrite !dispatch_eq.
Qed.

Lemma run_blocks_rechunk (c c' : chunk Extra) (w : World) (buf : jsstring) evs w' buf' :
  runB c w buf = Some (evs, w', buf') ->
  runB c' w buf = Some (map (rechunk (chunk_rest c')) evs, w', buf').
Proof.
  intros H.
  eapply (@run_blocks_ind c
            (fun w buf evs w' buf' =>
               runB c' w buf = Some (map (rechunk (chunk_rest c')) evs, w', buf')));
    [ | | exact H].
  - intros w0 buf0 Hn. now rewrite run_blocks_none.
  - intros w0 buf0 bi evs0 w1 evs1 w2 buf2 Hf Hh _ IH.
    rewrite run_blocks_step, Hf, (handle_block_rechunk c c'), Hh.
    cbn [fst snd]. now rewrite IH, map_app.
Qed.

Lemma dispatches_rechunk (r : Extra) (evs : list (event Extra)) :
  dispatches (map (rechunk r) evs) = dispatches evs.
Proof.
  induction evs as [|e evs IH]; [reflexivity|].
  destruct e as [s|a]; cbn [map rechunk dispatches]; [exact IH|].
  rewrite IH. now destruct evs as [|[s|a'] evs].
Qed.

Lemma calls_rechunk (r : Extra) (evs : list (event Extra)) :
  calls (map (rechunk r) evs) = calls evs.
Proof.
  induction evs as [|e evs IH]; [reflexivity|].
  destruct e as [s|a]; cbn [map rechunk]; unfold calls in *; cbn [flat_map];
    now rewrite IH.
Qed.

Lemma handle_block_dispatches_app (c : chunk Extra) (w : World) (blk : jsstring)
      (evs : list (event Extra)) :
  dispatches (fst (handle c w blk) ++ evs)
  = dispatches (fst (handle c w blk)) ++ dispatches evs.
Proof.
  unfold handle_block.
  destruct (filePath blk) as [[|p0 p]|]; try reflexivity.
  now rewrite dispatch_eq.
Qed.

Lemma run_blocks_dispatches_app (c : chunk Extra) (w : World) (buf : jsstring)
      evs w' buf' (rest : list (event Extra)) :
  runB c w buf = Some (evs, w', buf') ->
  dispatches (evs ++ rest) = dispatches evs ++ dispatches rest.
Proof.
  intros H.
  eapply (@run_blocks_ind c
            (fun _ _ e _ _ => dispatches (e ++ rest) = dispatches e ++ dispatches rest));
    [reflexivity | | exact H].
  intros w0 buf0 bi evs0 w1 evs1 w2 buf2 _ Hh _ IH.
  assert (E : evs0 = fst (handle c w0 (block bi))) by now rewrite Hh.
  rewrite E, <- app_assoc, !handle_block_dispatches_app, IH. now rewrite app_assoc.
Qed.

(** When the loop ends, the buffer holds no block it could find. *)
Lemma run_blocks_final (c : chunk Extra) (w : World) (buf : jsstring) evs w' buf' :
  runB c w buf = Some (evs, w', buf') -> findCompleteBlock buf' = None.
Proof.
  intros H.
  eapply (@run_blocks_ind c (fun _ _ _ _ b => findCompleteBlock b = None));
    [auto | | exact H].
  auto.
Qed.

(** Chunks without text leave a streamer at rest as it is. *)
Lemma processStream_idle (cs : list (chunk Extra)) (st : state World) :
  findCompleteBlock (buffer st) = None ->
  texts cs = [] ->
  stream st cs = Some (map Yield cs, st).
Proof.
  destruct st as [buf w]. cbn [buffer]. intros Hf.
  induction cs as [|c cs IH]; intros Ht; [reflexivity|].
  unfold texts in Ht. simpl in Ht. apply app_eq_nil in Ht as [Hc Hcs].
  cbn [processStream]. rewrite processChunk_appends, Hc. cbn [buffer world].
  rewrite app_nil_r, run_blocks_none by exact Hf.
  now rewrite (IH Hcs).
Qed.

Lemma directive_block_prefix_lt (b : jsstring) (n : nat) :
  directive_block b -> begins_with_lt (firstn n b).
Proof.
  intros (body & -> & _). now destruct n.
Qed.

(** The fragments of a directive block, fed one by one to a streamer whose
    buffer holds text without a complete block and then the beginning of the
    block: nothing happens until the block is complete, and then the loop runs
    on the buffer that the block delivered whole would have given. *)
Lemma processStream_fragments (b pre : jsstring) (c0 : chunk Extra) (w : World) :
  directive_block b ->
  exec block_re pre = None ->
  forall (cs : list (chunk Extra)) (buf : jsstring),
    buf ++ texts cs = b ->
    length buf < length b ->
    exists evs evs0 w' buf',
      runB c0 w (pre ++ b) = Some (evs0, w', buf') /\
      stream (State (pre ++ buf) w) cs = Some (evs, State buf' w') /\
      dispatches evs = dispatches evs0 /\
      calls evs = calls evs0.
Proof.
  intros Hd Hpre. induction cs as [|c cs IH]; intros buf Hb Hlen.
  - unfold texts in Hb. simpl in Hb. rewrite app_nil_r in Hb. subst buf. lia.
  - unfold texts in Hb. simpl in Hb. fold (texts cs) in Hb. rewrite app_assoc in Hb.
    cbn [processStream]. rewrite processChunk_appends. cbn [buffer world].
    rewrite <- app_assoc.
    destruct (Nat.lt_ge_cases (length (buf ++ chunkContent c)) (length b)) as [Hlt|Hge].
    + assert (Hfn : buf ++ chunkContent c = firstn (length (buf ++ chunkContent c)) b)
        by (rewrite <- Hb; now rewrite firstn_app_exact).
      rewrite (run_blocks_none c w (pre ++ buf ++ chunkContent c)).
      * destruct (IH _ Hb Hlt) as (evs & evs0 & w' & buf' & H0 & Hs & Hd1 & Hc1).
        rewrite Hs.
        exists ((Yield c :: []) ++ evs), evs0, w', buf'. auto.
      * apply findCompleteBlock_no_block, no_block_append; [exact Hpre| |];
          rewrite Hfn;
          [now apply directive_block_prefix_lt|now apply directive_block_prefix].
    + assert (Hnil : texts cs = []).
      { apply length_zero_iff_nil. apply (f_equal (@length char)) in Hb.
        rewrite length_app in Hb. lia. }
      rewrite Hnil, app_nil_r in Hb. rewrite Hb.
      destruct (run_blocks_total c w (pre ++ b)) as ([[evs1 w'] buf'] & Hr).
      rewrite Hr.
      rewrite (processStream_idle cs (State buf' w'))
        by (cbn [buffer]; eauto using run_blocks_final).
      exists ((Yield c :: evs1) ++ map Yield cs),
             (map (rechunk (chunk_rest c0)) evs1), w', buf'.
      split; [now apply (run_blocks_rechunk c c0)|]. split; [reflexivity|]. split.
      * rewrite dispatches_rechunk. cbn [app dispatches].
        rewrite (run_blocks_dispatches_app c w (pre ++ b) _ _ _ _ Hr).
        now rewrite dispatches_yields, app_nil_r.
      * rewrite calls_rechunk. cbn [app].
        change (calls (Yield c :: evs1 ++ map Yield cs))
          with (calls (evs1 ++ map Yield cs)).
        now rewrite calls_app, calls_yields, app_nil_r.
Qed.

(** C2. A directive block delivered in fragments, as the texts of
    successive chunks, gives the dispatch outcome of the block delivered in one
    chunk: the same invocations with the same paths and contents, the same
    status texts, and the same final state.  The streamer starts from any
    buffer without a complete block, as a call of processChunk leaves it; from
    the empty buffer the outcome is the one of the block alone. *)
Theorem split_block_same_dispatch
        (st : state World) (b : jsstring) (c : chunk Extra) (cs : list (chunk Extra)) :
  exec block_re (buffer st) = None ->
  directive_block b ->
  chunkContent c = b ->
  texts cs = b ->
  exists evs1 st1 evs2 st2,
    process st c = Some (evs1, st1) /\
    stream st cs = Some (evs2, st2) /\
    dispatches evs2 = dispatches evs1 /\
    calls evs2 = calls evs1 /\
    st2 = st1 /\
    (buffer st = [] ->
     dispatches evs1 = block_outcome callTool format (world st) b).
Proof.
  intros Hpre Hd Hc Hcs.
  assert (Hpos : 0 < length b).
  { destruct Hd as (body & -> & _). rewrite length_app.
    change (length open_tag) with 13. lia. }
  destruct (processStream_fragments b (buffer st) c (world st) Hd Hpre cs [] Hcs Hpos)
    as (evs2 & evs0 & w' & buf' & H0 & Hs & Hd2 & Hc2).
  rewrite app_nil_r in Hs.
  exists (Yield c :: evs0), (State buf' w'), evs2, (State buf' w').
  repeat split; auto.
  - rewrite processChunk_appends, Hc, H0. reflexivity.
  - now destruct st.
  - intros Hnil. rewrite Hnil in H0. cbn [app] in H0.
    rewrite (run_blocks_directive_block c (world st) b Hd) in H0.
    injection H0 as <- _ _. cbn [dispatches].
    pose proof (handle_block_outcome c (world st) b []) as Ho.
    simpl map in Ho. now rewrite app_nil_r in Ho.
Qed.

(** *** A block inside a code fence *)

Lemma handle_block_rest (c c' : chunk Extra) (w : World) (blk : jsstring) :
  chunk_rest c = chunk_rest c' -> handle c w blk = handle c' w blk.
Proof.
  intros H. unfold handle_block.
  destruct (filePath blk) as [[|p0 p]|]; try reflexivity.
  rewrite !dispatch_eq. unfold with_content. now rewrite H.
Qed.




(** *** The fields of a block *)

(** C8 (amended). The two fields are searched for independently in the
    block, each as the first opening tag of the field and the first closing
    tag after it; their order is not checked.  When the texts around and
    inside the fields hold no "<", a block with the content field before the
    path field gives the path, the content and the dispatch of the block with
    the path field first. *)
Theorem field_order_is_not_checked
        (c : chunk Extra) (w : World) (x p y cont z : jsstring) :
  free_of 60 x = true -> free_of 60 p = true ->
  free_of 60 y = true -> free_of 60 cont = true ->
  filePath (content_first x p y cont z) = Some (trim p) /\
  fileContent (content_first x p y cont z) = Some (trim cont) /\
  filePath (path_first x p y cont z) = Some (trim p) /\
  fileContent (path_first x p y cont z) = Some (trim cont) /\
  handle c w (content_first x p y cont z) = handle c w (path_first x p y cont z).
Proof.
  intros Hx Hp Hy Hc.
  destruct (fields_content_first x p y cont z Hx Hp Hy Hc) as [P1 C1].
  destruct (fields_path_first x p y cont z Hx Hp Hy Hc) as [P2 C2].
  repeat split; auto.
  unfold handle_block. now rewrite P1, C1, P2, C2.
Qed.

Lemma content_argument_or_empty (blk : jsstring) :
  content_argument blk (or_empty (fileContent blk)).
Proof.
  unfold content_argument, fileContent.
  destruct (exec content_re blk) as [cm|] eqn:E; [|reflexivity].
  destruct (exec_tag_pair_sound _ _ _ _ E) as (raw & Hg & Hb).
  exists raw. cbn [option_map or_empty]. unfold capture1. rewrite Hg.
  repeat split; auto using trim_is_trim_of, trim_spaces.
Qed.

(** C10. When the loop finds a block in which the path pattern matches,
    the capture is the text between the path tags.  If that text is white
    space only, the block is skipped without a tool invocation.  Otherwise the
    tool is invoked with the text trimmed of leading and trailing white space
    as path and, as content, the trimmed text between the content tags, which
    is the empty string when there is no content field or only white space in
    it. *)
Theorem dispatched_fields_are_trimmed
        (c : chunk Extra) (w : World) (buf : jsstring) (bi : block_info)
        (pm : match_result) :
  findCompleteBlock buf = Some bi ->
  exec path_re (block bi) = Some pm ->
  exists raw,
    group1 pm = Some raw /\
    between_tags (lit "<path>") (lit "</path>") (block bi) raw /\
    is_trim_of raw (trim raw) /\
    (forallb is_space raw = true ->
     runB c w buf = runB c w (substring buf (endIdx bi))) /\
    (forallb is_space raw = false ->
     exists cont text evs w2 buf2,
       content_argument (block bi) cont /\
       runB c w buf =
         Some (Call (ToolArgs (trim raw) cont false)
                 :: Yield (with_content c text) :: evs, w2, buf2)).
Proof.
  intros Hf Hp.
  destruct (exec_tag_pair_sound _ _ _ _ Hp) as (raw & Hg & Hb).
  assert (Hfp : filePath (block bi) = Some (trim raw)).
  { unfold filePath. rewrite Hp. cbn [option_map]. unfold capture1. now rewrite Hg. }
  exists raw. repeat split; auto using trim_is_trim_of.
  - intros Hs. rewrite run_blocks_unfold, Hf, Hfp. now rewrite (trim_spaces _ Hs).
  - intros Hs. destruct (trim raw) as [|p0 p] eqn:Et.
    + apply trim_nil_spaces in Et. congruence.
    + destruct (run_blocks_dispatch c w buf bi p0 p Hf Hfp)
        as (text & evs & w2 & buf2 & _ & _ & H).
      exists (or_empty (fileContent (block bi))), text, evs, w2, buf2.
      split; [apply content_argument_or_empty|exact H].
Qed.


(** ** Traces, buffers and arguments of processChunk *)

Lemma status_text_framed (res : outcome Result) : framed (status_text format res).
Proof.
  unfold status_text, framed.
  destruct res as [result|err].
  - destruct (format (lit "writeToFile") result) as [formatted|err].
    + now exists formatted.
    + exists (lit "Error: " ++ error_text err). now rewrite <- app_assoc.
  - exists (lit "Error: " ++ error_text err). now rewrite <- app_assoc.
Qed.

Lemma trim_trimmed (s : jsstring) : trimmed (trim s).
Proof.
  destruct (trim_is_trim_of s) as (l & r & _ & _ & _ & H1 & H2). now split.
Qed.

Lemma filePath_trimmed (blk p : jsstring) : filePath blk = Some p -> trimmed p.
Proof.
  unfold filePath. destruct (exec path_re blk) as [m|]; [|discriminate].
  intros [= <-]. apply trim_trimmed.
Qed.

Lemma fileContent_trimmed (blk : jsstring) : trimmed (or_empty (fileContent blk)).
Proof.
  unfold fileContent. destruct (exec content_re blk) as [m|]; cbn [option_map or_empty].
  - apply trim_trimmed.
  - now split.
Qed.

(** One turn of the loop gives no event, or one invocation with well-formed
    arguments and its status chunk. *)
Lemma handle_block_pairs (c : chunk Extra) (w : World) (blk : jsstring) :
  exists ds,
    fst (handle c w blk) = flat_map (status_pair c) ds /\
    Forall (fun d => well_formed_args (fst d) /\ framed (snd d)) ds /\
    length ds <= 1.
Proof.
  unfold handle_block.
  destruct (filePath blk) as [[|p0 p]|] eqn:E.
  - exists []. repeat split; auto.
  - rewrite dispatch_eq. cbn [fst].
    exists [(ToolArgs (p0 :: p) (or_empty (fileContent blk)) false,
             status_text format
               (fst (callTool w (ToolArgs (p0 :: p) (or_empty (fileContent blk)) false))))].
    split; [reflexivity|]. split; [|cbn; lia].
    constructor; [|constructor]. cbn [fst snd]. split.
    + unfold well_formed_args. cbn [path content confirmation].
      split; [discriminate|]. split; [exact (filePath_trimmed _ _ E)|].
      split; [apply fileContent_trimmed|reflexivity].
    + apply status_text_framed.
  - exists []. repeat split; auto.
Qed.

Lemma calls_status_pairs (c : chunk Extra) (ds : list (tool_args * jsstring)) :
  calls (flat_map (status_pair c) ds) = map fst ds.
Proof.
  induction ds as [|d ds IH]; [reflexivity|].
  cbn [flat_map]. rewrite calls_app, IH. reflexivity.
Qed.

Lemma calls_chunk_trace (c : chunk Extra) (ds : list (tool_args * jsstring)) :
  calls (chunk_trace c ds) = map fst ds.
Proof.
  unfold chunk_trace.
  change (Yield c :: flat_map (status_pair c) ds)
    with ([Yield c] ++ flat_map (status_pair c) ds).
  now rewrite calls_app, calls_status_pairs.
Qed.

Lemma run_blocks_pairs (c : chunk Extra) (w : World) (buf : jsstring) evs w' buf' :
  runB c w buf = Some (evs, w', buf') ->
  exists ds,
    evs = flat_map (status_pair c) ds /\
    Forall (fun d => well_formed_args (fst d) /\ framed (snd d)) ds.
Proof.
  intros H.
  eapply (@run_blocks_ind c
            (fun _ _ e _ _ =>
               exists ds,
                 e = flat_map (status_pair c) ds /\
                 Forall (fun d => well_formed_args (fst d) /\ framed (snd d)) ds));
    [ | | exact H].
  - intros _ _ _. now exists [].
  - intros w0 buf0 bi evs0 w1 evs1 w2 buf2 _ Hh _ (ds1 & -> & Hds1).
    destruct (handle_block_pairs c w0 (block bi)) as (ds0 & Hds0 & HF & _).
    rewrite Hh in Hds0. cbn [fst] in Hds0. subst evs0.
    exists (ds0 ++ ds1). split.
    + now rewrite flat_map_app.
    + apply Forall_app. now split.
Qed.

(** Every turn of the loop takes at least the 14 code units of a closing
    tag from the front of the buffer. *)
Lemma run_blocks_suffix (c : chunk Extra) (w : World) (buf : jsstring) evs w' buf' :
  runB c w buf = Some (evs, w', buf') ->
  exists k,
    k <= length buf /\ buf' = skipn k buf /\ 14 * length (calls evs) <= k.
Proof.
  intros H.
  eapply (@run_blocks_ind c
            (fun _ b e _ b' =>
               exists k,
                 k <= length b /\ b' = skipn k b /\ 14 * length (calls e) <= k));
    [ | | exact H].
  - intros _ b _. exists 0. cbn. repeat split; lia.
  - intros w0 buf0 bi evs0 w1 evs1 w2 buf2 Hf Hh _ (k & Hk & -> & Hc).
    pose proof (findCompleteBlock_bounds _ _ Hf) as Hb.
    destruct (handle_block_pairs c w0 (block bi)) as (ds0 & Hds0 & _ & Hlen).
    rewrite Hh in Hds0. cbn [fst] in Hds0.
    unfold substring in *. rewrite length_skipn in Hk.
    exists (k + Z.to_nat (endIdx bi)). split; [lia|]. split.
    + now rewrite skipn_skipn.
    + rewrite calls_app, length_app, Hds0, calls_status_pairs, length_map. lia.
Qed.

Lemma run_blocks_rest (c c' : chunk Extra) (w : World) (buf : jsstring) :
  chunk_rest c = chunk_rest c' -> runB c w buf = runB c' w buf.
Proof.
  intros Hr.
  destruct (run_blocks_total c w buf) as ([[evs w'] buf'] & H).
  rewrite H. symmetry.
  eapply (@run_blocks_ind c
            (fun w buf evs w' buf' => runB c' w buf = Some (evs, w', buf')));
    [ | | exact H].
  - intros w0 buf0 Hn. now rewrite run_blocks_none.
  - intros w0 buf0 bi evs0 w1 evs1 w2 buf2 Hf Hh _ IH.
    rewrite run_blocks_step, Hf, <- (handle_block_rest c c' _ _ Hr), Hh.
    now rewrite IH.
Qed.

(** The loop on plain text and directive blocks in turn, in a buffer
    without backticks. *)
Lemma run_blocks_plain_items (c : chunk Extra) (t : jsstring) :
  ~ has_block t ->
  forall (items : list (jsstring * jsstring)) (w : World),
    Forall plain_item items ->
    free_of 96 (join_items items ++ t) = true ->
    runB c w (join_items items ++ t)
    = Some (fst (handle_blocks callTool format c w (map snd items)),
            snd (handle_blocks callTool format c w (map snd items)), t).
Proof.
  intros Ht. induction items as [|[pre b] items IH]; intros w HF Hbt.
  - cbn. apply run_blocks_none. now apply findCompleteBlock_no_block.
  - apply Forall_cons_iff in HF as [[Hpre Hb] HF]. cbn [fst snd] in Hpre, Hb.
    unfold join_items in *. cbn [flat_map fst snd] in *.
    rewrite <- !app_assoc in *.
    rewrite run_blocks_step, (findCompleteBlock_plain pre b _ Hpre Hbt Hb).
    cbn [block endIdx map handle_blocks snd].
    destruct (handle c w b) as [evs w1].
    unfold substring. rewrite Nat2Z.id.
    rewrite (app_assoc pre b), skipn_app_exact.
    rewrite IH; [|assumption|].
    + now destruct (handle_blocks callTool format c w1 (map snd items)).
    + rewrite !free_of_app in Hbt. apply andb_prop in Hbt as [_ Hbt].
      apply andb_prop in Hbt as [_ Hbt]. now rewrite free_of_app.
Qed.

(** *** Properties of the traces *)


(** X7. Every invocation processChunk makes has a path that is not empty
    and has no white space at either end, a content without white space at
    either end, and confirmation switched off. *)
Theorem tool_arguments_are_well_formed (st : state World) (c : chunk Extra) :
  exists evs st',
    process st c = Some (evs, st') /\
    Forall well_formed_args (calls evs).
Proof.
  rewrite processChunk_appends.
  destruct (run_blocks_total c (world st) (buffer st ++ chunkContent c))
    as ([[evs w'] buf'] & H).
  rewrite H. exists (Yield c :: evs), (State buf' w'). split; [reflexivity|].
  destruct (run_blocks_pairs _ _ _ _ _ _ H) as (ds & -> & Hds).
  fold (chunk_trace c ds). rewrite calls_chunk_trace.
  apply Forall_map. eapply Forall_impl; [|exact Hds]. now intros d [Hd _].
Qed.

(** X8. After a stream of chunks the buffer is what is left of the old
    buffer and the texts of the chunks after dropping a prefix: text is
    never reordered, changed or added.  The prefix dropped has at least 14
    code units for each invocation made, which bounds the invocations by
    the length of the text. *)
Theorem buffer_is_suffix_of_input (cs : list (chunk Extra)) :
  forall st : state World,
    exists evs st' k,
      stream st cs = Some (evs, st') /\
      k <= length (buffer st ++ texts cs) /\
      buffer st' = skipn k (buffer st ++ texts cs) /\
      14 * length (calls evs) <= k.
Proof.
  induction cs as [|c cs IH]; intros st.
  - exists [], st, 0. cbn. rewrite app_nil_r. repeat split; lia.
  - cbn [processStream]. rewrite processChunk_appends.
    destruct (run_blocks_total c (world st) (buffer st ++ chunkContent c))
      as ([[evs w'] buf'] & H).
    rewrite H.
    destruct (run_blocks_suffix _ _ _ _ _ _ H) as (k1 & Hk1 & -> & Hc1).
    destruct (IH (State (skipn k1 (buffer st ++ chunkContent c)) w'))
      as (evs2 & st' & k2 & -> & Hk2 & Hbuf & Hc2).
    cbn [buffer] in Hk2, Hbuf.
    assert (Happ : skipn k1 (buffer st ++ chunkContent c) ++ texts cs
                   = skipn k1 (buffer st ++ texts (c :: cs))).
    { unfold texts. cbn [map concat]. rewrite (app_assoc (buffer st)).
      rewrite (skipn_app k1 (buffer st ++ chunkContent c)).
      replace (k1 - length (buffer st ++ chunkContent c)) with 0 by lia.
      reflexivity. }
    rewrite Happ in Hk2, Hbuf. rewrite length_skipn in Hk2.
    assert (Hlen : length (buffer st ++ texts (c :: cs))
                   = length (buffer st ++ chunkContent c) + length (texts cs)).
    { unfold texts. cbn [map concat]. rewrite !length_app. lia. }
    exists ((Yield c :: evs) ++ evs2), st', (k2 + k1).
    split; [reflexivity|]. split; [lia|]. split.
    + now rewrite Hbuf, skipn_skipn.
    + change (calls ((Yield c :: evs) ++ evs2)) with (calls (evs ++ evs2)).
      rewrite calls_app, length_app. lia.
Qed.

(** X9. A streamer whose buffer holds no complete block, as the fresh
    streamer, holds none after any stream of chunks: every block that gets
    complete is taken out in the call that completes it. *)
Theorem buffer_never_keeps_a_block (cs : list (chunk Extra)) :
  forall st : state World,
    ~ has_block (buffer st) ->
    exists evs st',
      stream st cs = Some (evs, st') /\ ~ has_block (buffer st').
Proof.
  induction cs as [|c cs IH]; intros st Hst.
  - now exists [], st.
  - cbn [processStream]. rewrite processChunk_appends.
    destruct (run_blocks_total c (world st) (buffer st ++ chunkContent c))
      as ([[evs w'] buf'] & H).
    rewrite H.
    pose proof (findCompleteBlock_none_inv _ (run_blocks_final _ _ _ _ _ _ H)) as Hn.
    destruct (IH (State buf' w') Hn) as (evs2 & st' & -> & Hno).
    now exists ((Yield c :: evs) ++ evs2), st'.
Qed.

(** X10. Plain text and directive blocks in turn, in a buffer without
    backticks: each block is handled once, in the order of the text and on
    the world the block before it left; the plain text before a block is
    dropped with the block, and what follows the last block stays in the
    buffer. *)
Theorem blocks_are_handled_in_order
        (st : state World) (c : chunk Extra)
        (items : list (jsstring * jsstring)) (t : jsstring) :
  buffer st ++ chunkContent c = join_items items ++ t ->
  Forall plain_item items ->
  free_of 96 (join_items items ++ t) = true ->
  ~ has_block t ->
  process st c =
    Some (Yield c :: fst (handle_blocks callTool format c (world st) (map snd items)),
          State t (snd (handle_blocks callTool format c (world st) (map snd items)))).
Proof.
  intros Hbuf HF Hbt Ht.
  rewrite processChunk_appends, Hbuf.
  now rewrite (run_blocks_plain_items c t Ht items (world st) HF Hbt).
Qed.



(** X13. A chunk whose content is an array counts for the text of its
    items of type text, concatenated in order; items of another type and
    items without text count for nothing.  It gives the same invocations,
    the same status chunks and the same state as the chunk with that text
    as its content. *)
Theorem structured_payload_as_text
        (st : state World) (items : list item) (x : Extra) :
  chunkContent (Chunk (Segments items) x) = segments_text items /\
  exists evs st',
    process st (Chunk (Segments items) x)
      = Some (Yield (Chunk (Segments items) x) :: evs, st') /\
    process st (Chunk (Text (segments_text items)) x)
      = Some (Yield (Chunk (Text (segments_text items)) x) :: evs, st').
Proof.
  assert (Hc : chunkContent (Chunk (Segments items) x) = segments_text items).
  { unfold chunkContent. cbn [chunk_content]. unfold is_text_item.
    now rewrite fold_segments. }
  split; [exact Hc|].
  rewrite !processChunk_appends, Hc.
  change (chunkContent (Chunk (Text (segments_text items)) x)) with (segments_text items).
  rewrite (run_blocks_rest (Chunk (Segments items) x) (Chunk (Text (segments_text items)) x))
    by reflexivity.
  destruct (run_blocks_total (Chunk (Text (segments_text items)) x) (world st)
              (buffer st ++ segments_text items)) as ([[evs w'] buf'] & H).
  rewrite H. now exists evs, (State buf' w').
Qed.

(** X14. A chunk that brings no text (no content, an empty string, an
    array without text) is passed through alone and leaves a streamer whose
    buffer holds no complete block as it is. *)
Theorem silent_chunk_changes_nothing (st : state World) (c : chunk Extra) :
  ~ has_block (buffer st) ->
  chunkContent c = [] ->
  process st c = Some ([Yield c], st).
Proof.
  intros Hno Hc. rewrite processChunk_appends, Hc, app_nil_r.
  rewrite run_blocks_none by now apply findCompleteBlock_no_block.
  now destruct st.
Qed.

(** X15. A closing tag in front of a directive block makes the loop handle
    the block twice: the buffer is cut after the first closing tag, which
    is the stray one, so the block is still there on the next turn.  With a
    path in the block the tool is invoked twice with the same arguments. *)
Theorem stray_close_tag_repeats_block
        (st : state World) (c : chunk Extra) (b : jsstring)
        (p0 : char) (p : jsstring) :
  directive_block b ->
  free_of 96 b = true ->
  filePath b = Some (p0 :: p) ->
  buffer st ++ chunkContent c = close_tag ++ b ->
  process st c =
    Some (Yield c :: fst (handle_blocks callTool format c (world st) [b; b]),
          State [] (snd (handle_blocks callTool format c (world st) [b; b]))) /\
  calls (fst (handle_blocks callTool format c (world st) [b; b]))
  = [ToolArgs (p0 :: p) (or_empty (fileContent b)) false;
     ToolArgs (p0 :: p) (or_empty (fileContent b)) false].
Proof.
  intros Hd Hbt Hp Hbuf. split.
  - rewrite processChunk_appends, Hbuf.
    rewrite run_blocks_step, (findCompleteBlock_after_close b Hd Hbt).
    cbn [block endIdx handle_blocks].
    destruct (handle c (world st) b) as [evs w1].
    unfold substring. change (Z.to_nat 14) with (length close_tag).
    rewrite skipn_app_exact, (run_blocks_directive_block c w1 b Hd).
    destruct (handle c w1 b) as [evs' w2]. cbn [fst snd].
    now rewrite app_nil_r.
  - cbn [handle_blocks]. unfold handle_block. rewrite Hp, !dispatch_eq.
    reflexivity.
Qed.

(** X16. A bare directive block followed by white space and a fence
    marker, in text without other backticks: the block is handled once and
    the marker is taken from the buffer with it, although no fence was
    opened before the block. *)
Theorem fence_after_bare_block_is_consumed
        (st : state World) (c : chunk Extra) (pre b ws t : jsstring) :
  buffer st ++ chunkContent c = pre ++ b ++ ws ++ fence ++ t ->
  free_of 60 pre = true ->
  free_of 96 pre = true ->
  directive_block b ->
  free_of 96 b = true ->
  forallb is_space ws = true ->
  free_of 96 t = true ->
  ~ has_block t ->
  process st c =
    Some (Yield c :: fst (handle c (world st) b),
          State t (snd (handle c (world st) b))).
Proof.
  intros Hbuf Hlt Hpre Hd Hb Hws Ht Hno.
  assert (Hticks : ticks (pre ++ b ++ ws ++ fence ++ t) < 6).
  { rewrite !ticks_app, (ticks_free _ Hpre), (ticks_free _ Hb), (ticks_free _ Ht).
    rewrite (ticks_free _ (space_free_of_backtick _ Hws)).
    change (ticks fence) with 3. lia. }
  rewrite processChunk_appends, Hbuf.
  rewrite run_blocks_step, (findCompleteBlock_text pre b _ Hticks Hlt Hd).
  cbn [block endIdx].
  destruct (handle c (world st) b) as [evs w1]. cbn [fst snd].
  rewrite (fence_tail_marker ws t Hws).
  unfold substring. rewrite Nat2Z.id.
  replace (pre ++ b ++ ws ++ fence ++ t) with ((pre ++ b ++ ws ++ fence) ++ t)
    by (now rewrite <- !app_assoc).
  replace (length (pre ++ b) + (length ws + 3)) with (length (pre ++ b ++ ws ++ fence))
    by (rewrite !length_app; change (length fence) with 3; lia).
  rewrite skipn_app_exact.
  rewrite run_blocks_none by now apply findCompleteBlock_no_block.
  now rewrite app_nil_r.
Qed.

(** *** Chunking of well-formed text *)

Lemma plain_text_no_block (pre : jsstring) :
  free_of 60 pre = true -> exec block_re pre = None.
Proof.
  intros H. unfold exec.
  pose proof (block_re_skip 0 pre [] H) as E. rewrite app_nil_r in E.
  rewrite E. reflexivity.
Qed.

(** A proper prefix of plain text and a directive block holds no complete
    block. *)
Lemma no_block_proper_prefix (pre b P l : jsstring) :
  free_of 60 pre = true ->
  directive_block b ->
  pre ++ b = P ++ l ->
  l <> [] ->
  ~ has_block P.
Proof.
  intros Hpre Hd Heq Hl.
  pose proof (plain_text_no_block pre Hpre) as Hnone.
  destruct (app_eq_app _ _ _ _ Heq) as (m & [[Hp Hb]|[Hp Hb]]).
  - subst pre. apply (no_block_prefix P m). now apply exec_block_none.
  - subst P b.
    replace (pre ++ m) with (pre ++ firstn (length m) (m ++ l))
      by (now rewrite firstn_app_exact).
    assert (Hlen : length m < length (m ++ l)).
    { rewrite length_app. destruct l; [congruence|cbn; lia]. }
    apply no_block_append.
    + exact Hnone.
    + now apply directive_block_prefix_lt.
    + now apply directive_block_prefix.
Qed.

Lemma join_items_app (xs ys : list (jsstring * jsstring)) :
  join_items (xs ++ ys) = join_items xs ++ join_items ys.
Proof. apply flat_map_app. Qed.

(** A prefix of well-formed text is well-formed text: some of the items,
    and a rest without a complete block. *)
Lemma prefix_of_items (t : jsstring) :
  ~ has_block t ->
  forall (items : list (jsstring * jsstring)) (P R : jsstring),
    P ++ R = join_items items ++ t ->
    Forall plain_item items ->
    exists items1 items2 t1,
      items = items1 ++ items2 /\
      P = join_items items1 ++ t1 /\
      t1 ++ R = join_items items2 ++ t /\
      ~ has_block t1.
Proof.
  intros Ht. induction items as [|[pre b] items IH]; intros P R Heq HF.
  - exists [], [], P. cbn in *. repeat split; auto.
    apply (no_block_prefix P R). now rewrite Heq.
  - apply Forall_cons_iff in HF as [[Hpre Hb] HF]. cbn [fst snd] in Hpre, Hb.
    pose proof Heq as Heq0.
    unfold join_items in Heq. cbn [flat_map fst snd] in Heq.
    fold (join_items items) in Heq. rewrite <- app_assoc in Heq.
    symmetry in Heq.
    destruct (app_eq_app _ _ _ _ Heq) as (m & [[Hp Hr]|[Hp Hr]]).
    + destruct m as [|x m].
      * rewrite app_nil_r in Hp. cbn [app] in Hr. subst R P.
        exists [(pre, b)], items, [].
        split; [reflexivity|]. split; [|split; [reflexivity|]].
        -- unfold join_items. cbn [flat_map fst snd]. now rewrite !app_nil_r.
        -- apply exec_block_none. reflexivity.
      * exists [], ((pre, b) :: items), P.
        split; [reflexivity|]. split; [reflexivity|]. split; [exact Heq0|].
        apply (no_block_proper_prefix pre b P (x :: m) Hpre Hb Hp). discriminate.
    + destruct (IH m R (eq_sym Hr) HF) as (items1 & items2 & t1 & -> & -> & Ht1 & Hno).
      exists ((pre, b) :: items1), items2, t1.
      split; [reflexivity|]. split; [|split; [exact Ht1|exact Hno]].
      rewrite Hp. unfold join_items. cbn [flat_map fst snd].
      now rewrite <- !app_assoc.
Qed.

Lemma handle_blocks_app (c : chunk Extra) (xs ys : list jsstring) :
  forall w : World,
    handle_blocks callTool format c w (xs ++ ys) =
    (fst (handle_blocks callTool format c w xs) ++
     fst (handle_blocks callTool format c (snd (handle_blocks callTool format c w xs)) ys),
     snd (handle_blocks callTool format c (snd (handle_blocks callTool format c w xs)) ys)).
Proof.
  induction xs as [|x xs IH]; intros w; cbn [app handle_blocks fst snd].
  - now destruct (handle_blocks callTool format c w ys).
  - destruct (handle c w x) as [e1 w1]. rewrite IH.
    destruct (handle_blocks callTool format c w1 xs) as [e2 w2]. cbn [fst snd].
    now rewrite app_assoc.
Qed.

Lemma handle_blocks_rechunk (c c' : chunk Extra) (bs : list jsstring) :
  forall w : World,
    calls (fst (handle_blocks callTool format c' w bs))
    = calls (fst (handle_blocks callTool format c w bs)) /\
    snd (handle_blocks callTool format c' w bs) = snd (handle_blocks callTool format c w bs).
Proof.
  induction bs as [|b bs IH]; intros w; cbn [handle_blocks]; [now split|].
  rewrite (handle_block_rechunk c c' w b).
  destruct (handle c w b) as [e1 w1]. cbn [fst snd].
  destruct (IH w1) as [Hc Hw].
  destruct (handle_blocks callTool format c' w1 bs) as [e2' w2'],
           (handle_blocks callTool format c w1 bs) as [e2 w2].
  cbn [fst snd] in *. split; [|exact Hw].
  now rewrite !calls_app, calls_rechunk, Hc.
Qed.

Lemma free_of_96_parts (a b : jsstring) :
  free_of 96 (a ++ b) = true -> free_of 96 a = true /\ free_of 96 b = true.
Proof. rewrite free_of_app. apply andb_prop. Qed.

(** X17. Well-formed text (plain text and directive blocks in turn,
    without backticks) gives the same invocations in the same order, the
    same final world of the tool and the same final buffer however it is
    cut into chunks: each block is handled once, by the call of
    processChunk that brings its last code unit. *)
Theorem chunking_does_not_change_calls
        (c0 : chunk Extra) (t : jsstring) (cs : list (chunk Extra)) :
  forall (items : list (jsstring * jsstring)) (st : state World),
    ~ has_block (buffer st) ->
    buffer st ++ texts cs = join_items items ++ t ->
    Forall plain_item items ->
    free_of 96 (join_items items ++ t) = true ->
    ~ has_block t ->
    exists evs st',
      stream st cs = Some (evs, st') /\
      calls evs = calls (fst (handle_blocks callTool format c0 (world st) (map snd items))) /\
      world st' = snd (handle_blocks callTool format c0 (world st) (map snd items)) /\
      buffer st' = t.
Proof.
  induction cs as [|c cs IH]; intros items st Hst Heq HF Hbt Ht.
  - cbn in Heq. rewrite app_nil_r in Heq.
    destruct items as [|[pre b] items].
    + exists [], st. cbn in *. repeat split; auto.
    + exfalso. apply Hst. rewrite Heq.
      apply Forall_cons_iff in HF as [[_ Hd] _]. cbn [snd] in Hd.
      destruct Hd as (body & -> & _).
      unfold join_items. cbn [flat_map fst snd].
      exists pre, body, (flat_map (fun it => fst it ++ snd it) items ++ t).
      now rewrite <- !app_assoc.
  - assert (Heq' : (buffer st ++ chunkContent c) ++ texts cs = join_items items ++ t).
    { rewrite <- Heq. unfold texts. cbn [map concat]. now rewrite app_assoc. }
    destruct (prefix_of_items t Ht items _ _ Heq' HF)
      as (items1 & items2 & t1 & -> & HP & HR & Hno).
    apply Forall_app in HF as [HF1 HF2].
    rewrite join_items_app, <- app_assoc in Hbt.
    destruct (free_of_96_parts _ _ Hbt) as [Hbt1 Hbt2].
    assert (Hbt1' : free_of 96 (join_items items1 ++ t1) = true).
    { rewrite free_of_app, Hbt1. cbn [andb].
      rewrite <- HR in Hbt2. now destruct (free_of_96_parts _ _ Hbt2). }
    cbn [processStream]. rewrite processChunk_appends, HP.
    rewrite (run_blocks_plain_items c t1 Hno items1 (world st) HF1 Hbt1').
    destruct (IH items2
                (State t1 (snd (handle_blocks callTool format c (world st) (map snd items1))))
                Hno HR HF2 Hbt2 Ht)
      as (evs2 & st' & -> & Hcalls & Hworld & Hbuf).
    cbn [world] in Hcalls, Hworld.
    destruct (handle_blocks_rechunk c0 c (map snd items1) (world st)) as [Hc1 Hw1].
    rewrite Hw1 in Hcalls, Hworld.
    exists ((Yield c :: fst (handle_blocks callTool format c (world st) (map snd items1)))
              ++ evs2), st'.
    split; [reflexivity|].
    rewrite map_app, handle_blocks_app. cbn [fst snd].
    split; [|split; assumption].
    change (calls ((Yield c :: fst (handle_blocks callTool format c (world st) (map snd items1)))
                     ++ evs2))
      with (calls (fst (handle_blocks callTool format c (world st) (map snd items1)) ++ evs2)).
    now rewrite !calls_app, Hcalls, Hc1.
Qed.

(** *** A block without a path *)

(** The loop on a first block without a path: however many closing tags
    stand in the text before it, no turn gives an event, and the loop goes
    on with the text after the block and its marker. *)
Lemma run_blocks_pathless (c : chunk Extra) (b t : jsstring) :
  directive_block b ->
  exec path_re b = None ->
  ticks (b ++ t) < 6 ->
  forall (n : nat) (pre : jsstring) (w : World),
    length pre <= n ->
    ~ occurs open_tag pre ->
    free_of 96 pre = true ->
    runB c w (pre ++ b ++ t) = runB c w (skipn (fence_tail t) t).
Proof.
  intros Hd Hp Hticks.
  assert (Hskip : forall buf e w,
             findCompleteBlock buf = Some (BlockInfo b e) ->
             runB c w buf = runB c w (substring buf e)).
  { intros buf e w Hf. rewrite run_blocks_unfold, Hf. cbn [block endIdx].
    unfold filePath. now rewrite Hp. }
  induction n as [|n IH]; intros pre w Hn Hno Hbt;
    destruct (findCompleteBlock_first_block pre b t Hno Hbt Hd Hticks)
      as [(q & Hq & Hf)|Hf].
  - lia.
  - rewrite (Hskip _ _ w Hf). unfold substring. rewrite Nat2Z.id.
    rewrite Nat.add_comm, <- skipn_skipn.
    now rewrite (app_assoc pre b t), skipn_app_exact.
  - rewrite (Hskip _ _ w Hf). unfold substring. rewrite Nat2Z.id.
    rewrite skipn_app. replace (q + 14 - length pre) with 0 by lia. cbn [skipn].
    apply IH.
    + rewrite length_skipn. lia.
    + intros Ho. apply Hno. exact (occurs_skipn _ _ _ Ho).
    + now apply free_of_skipn.
  - rewrite (Hskip _ _ w Hf). unfold substring. rewrite Nat2Z.id.
    rewrite Nat.add_comm, <- skipn_skipn.
    now rewrite (app_assoc pre b t), skipn_app_exact.
Qed.

Lemma has_block_skipn (k : nat) (s : jsstring) : has_block (skipn k s) -> has_block s.
Proof.
  intros H. rewrite <- (firstn_skipn k s). now apply has_block_app_r.
Qed.

(** C5. A complete block in which the path pattern matches nothing, first
    block of a buffer (no opening tag and no backtick before it, stray
    closing tags allowed): it is the block the loop finds; no tool is
    invoked for it, nothing is yielded and nothing is raised; the buffer
    loses the text up to the end of the block and the fence marker that may
    follow it, and nothing more; the loop goes on with exactly the text
    after that, on the same world, and returns.  When that text holds no
    complete block, the loop ends with no event and that text as buffer. *)
Theorem missing_path_block_discarded
        (c : chunk Extra) (w : World) (pre b t : jsstring) :
  directive_block b ->
  exec path_re b = None ->
  ~ occurs open_tag pre ->
  free_of 96 pre = true ->
  ticks (b ++ t) < 6 ->
  (exists e, findCompleteBlock (pre ++ b ++ t) = Some (BlockInfo b e)) /\
  handle c w b = ([], w) /\
  runB c w (pre ++ b ++ t) = runB c w (skipn (fence_tail t) t) /\
  (exists evs w' buf',
      runB c w (pre ++ b ++ t) = Some (evs, w', buf') /\
      exists k, buf' = skipn k (skipn (fence_tail t) t)) /\
  (~ has_block t ->
   runB c w (pre ++ b ++ t) = Some ([], w, skipn (fence_tail t) t)).
Proof.
  intros Hd Hp Hno Hbt Hticks.
  pose proof (run_blocks_pathless c b t Hd Hp Hticks (length pre) pre w
                (Nat.le_refl _) Hno Hbt) as Hrun.
  split; [|split; [|split; [exact Hrun|split]]].
  - destruct (findCompleteBlock_first_block pre b t Hno Hbt Hd Hticks)
      as [(q & _ & Hf)|Hf]; eauto.
  - unfold handle_block, filePath. now rewrite Hp.
  - rewrite Hrun.
    destruct (run_blocks_total c w (skipn (fence_tail t) t)) as ([[evs w'] buf'] & H).
    exists evs, w', buf'. split; [exact H|].
    destruct (run_blocks_suffix _ _ _ _ _ _ H) as (k & _ & Hk & _). eauto.
  - intros Ht. rewrite Hrun. apply run_blocks_none.
    apply findCompleteBlock_no_block. intros H. apply Ht.
    exact (has_block_skipn _ _ H).
Qed.

(** *** A block without a content field behind a stray closing tag *)

Lemma doc_block_found :
  findCompleteBlock doc_block
  = Some (BlockInfo (lit "<writeToFile><path>doc.md</path><content>end with </writeToFile>") 64).
Proof. vm_compute. reflexivity. Qed.

Lemma doc_rest_found : findCompleteBlock doc_rest = None.
Proof. vm_compute. reflexivity. Qed.

Lemma doc_rest_nocontent_found :
  findCompleteBlock (doc_rest ++ nocontent_block) = Some (BlockInfo nocontent_block 29).
Proof. vm_compute. reflexivity. Qed.

Lemma nocontent_block_directive : directive_block nocontent_block.
Proof. apply is_directive_block_sound. vm_compute. reflexivity. Qed.

(** The two turns on [nocontent_block] when the buffer is cut in front of
    it. *)
Lemma nocontent_block_twice (c : chunk Extra) (w : World) (buf : jsstring) :
  findCompleteBlock buf = Some (BlockInfo nocontent_block (Z.of_nat (length buf - 44))) ->
  44 <= length buf ->
  skipn (length buf - 44) buf = nocontent_block ->
  exists evs w',
    runB c w buf = Some (evs, w', []) /\
    calls evs = [ToolArgs (lit "a.md") [] false; ToolArgs (lit "a.md") [] false].
Proof.
  intros Hf Hlen Hrest.
  assert (Hh : forall w0,
             handle c w0 nocontent_block
             = disp c w0 (ToolArgs (lit "a.md") [] false)) by reflexivity.
  rewrite run_blocks_step, Hf. cbn [block endIdx].
  rewrite Hh, dispatch_eq. cbv beta iota.
  unfold substring. rewrite Nat2Z.id, Hrest.
  rewrite (run_blocks_directive_block c _ nocontent_block nocontent_block_directive).
  rewrite Hh, dispatch_eq. cbn [fst snd].
  eexists. eexists. split; reflexivity.
Qed.

(** C7. A block with a path and without a content field is not always
    dispatched exactly once.  With a closing tag in front of it the buffer
    is cut after that tag, the block is found a second time, and the tool
    is invoked twice, both times with the empty string as content and
    confirmation switched off.  The closing tag in front can be what an
    earlier block left behind: a block whose content mentions the closing
    tag ends at that mention, and the next block is dispatched twice. *)
Theorem stray_close_tag_dispatches_empty_content_twice (w : World) (x : Extra) :
  (exists evs st',
      process (State [] w) (Chunk (Text stray_nocontent_input) x) = Some (evs, st') /\
      calls evs = [ToolArgs (lit "a.md") [] false;
                   ToolArgs (lit "a.md") [] false] /\
      buffer st' = []) /\
  (exists evs st',
      stream (State [] w) [Chunk (Text doc_block) x; Chunk (Text nocontent_block) x]
      = Some (evs, st') /\
      calls evs = [ToolArgs (lit "doc.md") [] false;
                   ToolArgs (lit "a.md") [] false;
                   ToolArgs (lit "a.md") [] false] /\
      buffer st' = []).
Proof.
  split.
  - rewrite processChunk_appends.
    change (buffer (State [] w) ++ chunkContent (Chunk (Text stray_nocontent_input) x))
      with stray_nocontent_input.
    destruct (nocontent_block_twice (Chunk (Text stray_nocontent_input) x) w
                stray_nocontent_input)
      as (evs & w' & Hrun & Hcalls);
      [vm_compute; reflexivity|vm_compute; lia|vm_compute; reflexivity|].
    cbn [world]. rewrite Hrun.
    exists (Yield (Chunk (Text stray_nocontent_input) x) :: evs), (State [] w').
    repeat split. exact Hcalls.
  - cbn [processStream]. rewrite processChunk_appends.
    change (buffer (State [] w) ++ chunkContent (Chunk (Text doc_block) x)) with doc_block.
    cbn [world].
    assert (Hh : forall c0 w0,
               handle c0 w0 (lit "<writeToFile><path>doc.md</path><content>end with </writeToFile>")
               = disp c0 w0 (ToolArgs (lit "doc.md") [] false)) by reflexivity.
    rewrite run_blocks_step, doc_block_found. cbn [block endIdx].
    rewrite Hh, dispatch_eq.
    change (substring doc_block 64) with doc_rest.
    rewrite (run_blocks_none _ _ _ doc_rest_found).
    rewrite processChunk_appends.
    change (buffer (State doc_rest _) ++ chunkContent (Chunk (Text nocontent_block) x))
      with (doc_rest ++ nocontent_block).
    cbn [world].
    match goal with
    | |- context [runB ?c ?w0 (doc_rest ++ nocontent_block)] =>
        destruct (nocontent_block_twice c w0 (doc_rest ++ nocontent_block))
          as (evs & w' & Hrun & Hcalls);
          [exact doc_rest_nocontent_found|vm_compute; lia|vm_compute; reflexivity|];
          rewrite Hrun
    end.
    eexists. eexists. split; [reflexivity|]. split; [|reflexivity].
    rewrite !app_nil_r, calls_app.
    change (calls (Yield (Chunk (Text nocontent_block) x) :: evs)) with (calls evs).
    rewrite Hcalls. reflexivity.
Qed.
End StreamerFacts.

(** ** The theorems at sample inputs *)


Lemma unterminated_block_stays_witness :
  exists evs st',
    sample_processStream (sample_state "junk</writeToFile>x<wr")
      [sample_chunk "iteToFile><path>a.md</path>"; sample_chunk "<content>hi"]
    = Some (evs, st') /\
    calls evs = [] /\
    evs = map Yield [sample_chunk "iteToFile><path>a.md</path>"; sample_chunk "<content>hi"] /\
    buffer st' = lit "junk</writeToFile>x" ++ open_tag ++ lit "<path>a.md</path><content>hi".
Proof.
  exact (@unterminated_block_stays unit nat jsstring sample_callTool sample_format
           (sample_state "junk</writeToFile>x<wr")
           [sample_chunk "iteToFile><path>a.md</path>"; sample_chunk "<content>hi"]
           (lit "junk</writeToFile>x") (lit "<path>a.md</path><content>hi")
           ltac:(vm_compute; reflexivity) ltac:(vm_compute; reflexivity)
           ltac:(vm_compute; reflexivity)).
Defined.

Lemma split_block_same_dispatch_witness :
  exists evs1 st1 evs2 st2,
    sample_processChunk (sample_state "see: ")
      (sample_chunk "<writeToFile><path>a.md</path><content>hi</content></writeToFile>")
    = Some (evs1, st1) /\
    sample_processStream (sample_state "see: ")
      [sample_chunk "<write"; sample_chunk "ToFile><path>a.md</pa";
       sample_chunk "th><content>hi</content></writeToFile>"]
    = Some (evs2, st2) /\
    dispatches evs2 = dispatches evs1 /\
    calls evs2 = calls evs1 /\
    st2 = st1 /\
    (lit "see: " = [] ->
     dispatches evs1 = block_outcome sample_callTool sample_format 0 sample_block).
Proof.
  exact (@split_block_same_dispatch unit nat jsstring sample_callTool sample_format
           (sample_state "see: ") sample_block
           (sample_chunk "<writeToFile><path>a.md</path><content>hi</content></writeToFile>")
           [sample_chunk "<write"; sample_chunk "ToFile><path>a.md</pa";
            sample_chunk "th><content>hi</content></writeToFile>"]
           ltac:(vm_compute; reflexivity)
           (is_directive_block_sound sample_block ltac:(vm_compute; reflexivity))
           ltac:(vm_compute; reflexivity) ltac:(vm_compute; reflexivity)).
Defined.


(** C8, as first stated, fails: a block with its content field before its
    path field does not follow the fixed-order grammar, and yet both fields
    are extracted from it and the tool is invoked with them. *)
Lemma content_first_block_is_dispatched :
  satisfies_fixed_order content_first_block = false /\
  satisfies_fixed_order sample_block = true /\
  filePath content_first_block = Some (lit "a.md") /\
  fileContent content_first_block = Some (lit "hi") /\
  option_map (fun r => calls (fst r))
    (sample_processChunk (sample_state "") (Chunk (Text content_first_block) tt))
  = Some [ToolArgs (lit "a.md") (lit "hi") false].
Proof. vm_compute. repeat split. Qed.

Lemma field_order_is_not_checked_witness :
  filePath content_first_block = Some (lit "a.md") /\
  fileContent content_first_block = Some (lit "hi") /\
  filePath sample_block = Some (lit "a.md") /\
  fileContent sample_block = Some (lit "hi") /\
  handle_block sample_callTool sample_format (sample_chunk "") 0 content_first_block
  = handle_block sample_callTool sample_format (sample_chunk "") 0 sample_block.
Proof.
  exact (@field_order_is_not_checked unit nat jsstring sample_callTool sample_format
           (sample_chunk "") 0 [] (lit "a.md") [] (lit "hi") []
           ltac:(vm_compute; reflexivity) ltac:(vm_compute; reflexivity)
           ltac:(vm_compute; reflexivity) ltac:(vm_compute; reflexivity)).
Defined.

Lemma dispatched_fields_are_trimmed_witness :
  exists raw,
    Some (lit " a.md ") = Some raw /\
    between_tags (lit "<path>") (lit "</path>") padded_block raw /\
    is_trim_of raw (trim raw) /\
    (forallb is_space raw = true ->
     sample_run_blocks (sample_chunk "") 0 padded_block
     = sample_run_blocks (sample_chunk "") 0 []) /\
    (forallb is_space raw = false ->
     exists cont text evs w2 buf2,
       content_argument padded_block cont /\
       sample_run_blocks (sample_chunk "") 0 padded_block =
         Some (Call (ToolArgs (trim raw) cont false)
                 :: Yield (with_content (sample_chunk "") text) :: evs, w2, buf2)).
Proof.
  exact (@dispatched_fields_are_trimmed unit nat jsstring sample_callTool sample_format
           (sample_chunk "") 0 padded_block (BlockInfo padded_block 67)
           (MatchResult 13 (lit "<path> a.md </path>") (Some (lit " a.md ")))
           ltac:(vm_compute; reflexivity) ltac:(vm_compute; reflexivity)).
Defined.

(** ** The further properties at sample inputs *)

Lemma found_block_is_directive_block_witness :
  findCompleteBlock sample_fenced_buffer = Some (BlockInfo sample_block 80) /\
  directive_block sample_block /\
  is_directive_block sample_block = true /\
  (exists u v,
      stripCodeFences sample_fenced_buffer = u ++ sample_block ++ v /\
      forall j, j < length u ->
                starts_with open_tag (skipn j (stripCodeFences sample_fenced_buffer)) = false) /\
  has_block sample_fenced_buffer.
Proof.
  assert (Hf : findCompleteBlock sample_fenced_buffer = Some (BlockInfo sample_block 80))
    by (vm_compute; reflexivity).
  split; [exact Hf|].
  exact (found_block_is_directive_block sample_fenced_buffer _ Hf).
Defined.

Lemma cut_follows_first_closing_tag_witness :
  findCompleteBlock stray_input = Some (BlockInfo sample_block 14) /\
  exists q,
    first_at close_tag stray_input q /\
    indexOf stray_input close_tag = Z.of_nat q /\
    14%Z = Z.of_nat (q + 14 + fence_tail (skipn (q + 14) stray_input)) /\
    (14 <= 14 <= Z.of_nat (length stray_input))%Z /\
    substring stray_input 14
    = skipn (fence_tail (skipn (q + 14) stray_input)) (skipn (q + 14) stray_input).
Proof.
  assert (Hf : findCompleteBlock stray_input = Some (BlockInfo sample_block 14))
    by (vm_compute; reflexivity).
  split; [exact Hf|].
  exact (cut_follows_first_closing_tag stray_input _ Hf).
Defined.

Lemma buffer_never_keeps_a_block_witness :
  ~ has_block (buffer (sample_state "")) /\
  exists evs st',
    sample_processStream (sample_state "")
      [sample_chunk "<writeToFile><path>a.md</path>";
       sample_chunk "<content>hi</content></writeToFile> and <writeToFile>"]
    = Some (evs, st') /\
    ~ has_block (buffer st').
Proof.
  assert (H0 : ~ has_block (buffer (sample_state "")))
    by (apply exec_block_none; vm_compute; reflexivity).
  split; [exact H0|].
  exact (@buffer_never_keeps_a_block unit nat jsstring sample_callTool sample_format
           [sample_chunk "<writeToFile><path>a.md</path>";
            sample_chunk "<content>hi</content></writeToFile> and <writeToFile>"]
           (sample_state "") H0).
Defined.

Lemma blocks_are_handled_in_order_witness :
  sample_processChunk (sample_state "First: ")
    (Chunk (Text (skipn 7 sample_two_blocks_text)) tt)
  = Some (Yield (Chunk (Text (skipn 7 sample_two_blocks_text)) tt)
            :: fst (handle_blocks sample_callTool sample_format
                      (Chunk (Text (skipn 7 sample_two_blocks_text)) tt) 0
                      [sample_block; padded_block]),
          State (lit " rest")
                (snd (handle_blocks sample_callTool sample_format
                        (Chunk (Text (skipn 7 sample_two_blocks_text)) tt) 0
                        [sample_block; padded_block]))).
Proof.
  refine (@blocks_are_handled_in_order unit nat jsstring sample_callTool sample_format
            (sample_state "First: ")
            (Chunk (Text (skipn 7 sample_two_blocks_text)) tt)
            sample_two_blocks (lit " rest") _ _ _ _).
  - vm_compute; reflexivity.
  - repeat constructor; try apply is_directive_block_sound; vm_compute; reflexivity.
  - vm_compute; reflexivity.
  - apply exec_block_none; vm_compute; reflexivity.
Defined.



Lemma silent_chunk_changes_nothing_witness :
  sample_processChunk (sample_state "<writeToFile><path>a") (Chunk Absent tt)
  = Some ([Yield (Chunk Absent tt)], sample_state "<writeToFile><path>a") /\
  sample_processChunk (sample_state "<writeToFile><path>a")
    (Chunk (Segments [Item (lit "image_url") (Some (lit "x"))]) tt)
  = Some ([Yield (Chunk (Segments [Item (lit "image_url") (Some (lit "x"))]) tt)],
          sample_state "<writeToFile><path>a").
Proof.
  assert (H0 : ~ has_block (buffer (sample_state "<writeToFile><path>a")))
    by (apply exec_block_none; vm_compute; reflexivity).
  split.
  - exact (@silent_chunk_changes_nothing unit nat jsstring sample_callTool sample_format
             (sample_state "<writeToFile><path>a") (Chunk Absent tt) H0 eq_refl).
  - exact (@silent_chunk_changes_nothing unit nat jsstring sample_callTool sample_format
             (sample_state "<writeToFile><path>a")
             (Chunk (Segments [Item (lit "image_url") (Some (lit "x"))]) tt) H0 eq_refl).
Defined.

Lemma stray_close_tag_repeats_block_witness :
  sample_processChunk (sample_state "</writeTo") (Chunk (Text (skipn 9 stray_input)) tt)
  = Some (Yield (Chunk (Text (skipn 9 stray_input)) tt)
            :: fst (handle_blocks sample_callTool sample_format
                      (Chunk (Text (skipn 9 stray_input)) tt) 0
                      [sample_block; sample_block]),
          State [] (snd (handle_blocks sample_callTool sample_format
                           (Chunk (Text (skipn 9 stray_input)) tt) 0
                           [sample_block; sample_block]))) /\
  calls (fst (handle_blocks sample_callTool sample_format
                (Chunk (Text (skipn 9 stray_input)) tt) 0
                [sample_block; sample_block]))
  = [ToolArgs (lit "a.md") (or_empty (fileContent sample_block)) false;
     ToolArgs (lit "a.md") (or_empty (fileContent sample_block)) false].
Proof.
  refine (@stray_close_tag_repeats_block unit nat jsstring sample_callTool sample_format
            (sample_state "</writeTo") (Chunk (Text (skipn 9 stray_input)) tt)
            sample_block 97%N (lit ".md") _ _ _ _).
  - apply is_directive_block_sound; vm_compute; reflexivity.
  - vm_compute; reflexivity.
  - vm_compute; reflexivity.
  - vm_compute; reflexivity.
Defined.

Lemma fence_after_bare_block_is_consumed_witness :
  sample_processChunk (sample_state "") (Chunk (Text sample_block_then_fence) tt)
  = Some (Yield (Chunk (Text sample_block_then_fence) tt)
            :: fst (handle_block sample_callTool sample_format
                      (Chunk (Text sample_block_then_fence) tt) 0 sample_block),
          State (lit " done")
                (snd (handle_block sample_callTool sample_format
                        (Chunk (Text sample_block_then_fence) tt) 0 sample_block))).
Proof.
  refine (@fence_after_bare_block_is_consumed unit nat jsstring sample_callTool sample_format
            (sample_state "") (Chunk (Text sample_block_then_fence) tt)
            (lit "ok: ") sample_block (lit "  ") (lit " done") _ _ _ _ _ _ _ _).
  - vm_compute; reflexivity.
  - vm_compute; reflexivity.
  - vm_compute; reflexivity.
  - apply is_directive_block_sound; vm_compute; reflexivity.
  - vm_compute; reflexivity.
  - vm_compute; reflexivity.
  - vm_compute; reflexivity.
  - apply exec_block_none; vm_compute; reflexivity.
Defined.

Lemma stripCodeFences_unwraps_fence_witness :
  stripCodeFences sample_fenced_buffer = lit "see " ++ sample_block ++ lit " done".
Proof.
  refine (stripCodeFences_unwraps_fence (lit "see ") (lit " ") (lit " ") sample_block
            (lit " done") true _ _ _ _ _).
  - vm_compute; reflexivity.
  - apply is_directive_block_sound; vm_compute; reflexivity.
  - vm_compute; reflexivity.
  - vm_compute; reflexivity.
  - vm_compute; lia.
Defined.

Lemma chunking_does_not_change_calls_witness :
  exists evs st',
    sample_processStream (sample_state "")
      [sample_chunk "First: <writeTo";
       sample_chunk "File><path>a.md</path><content>hi</content></writeToFile> then <writeToFile><path> a.md </pa";
       sample_chunk "th><content>  </content></writeToFile> rest"]
    = Some (evs, st') /\
    calls evs = calls (fst (handle_blocks sample_callTool sample_format (sample_chunk "") 0
                              [sample_block; padded_block])) /\
    world st' = snd (handle_blocks sample_callTool sample_format (sample_chunk "") 0
                       [sample_block; padded_block]) /\
    buffer st' = lit " rest".
Proof.
  refine (@chunking_does_not_change_calls unit nat jsstring sample_callTool sample_format
            (sample_chunk "") (lit " rest")
            [sample_chunk "First: <writeTo";
             sample_chunk "File><path>a.md</path><content>hi</content></writeToFile> then <writeToFile><path> a.md </pa";
             sample_chunk "th><content>  </content></writeToFile> rest"]
            sample_two_blocks (sample_state "") _ _ _ _ _).
  - apply exec_block_none; vm_compute; reflexivity.
  - vm_compute; reflexivity.
  - repeat constructor; try apply is_directive_block_sound; vm_compute; reflexivity.
  - vm_compute; reflexivity.
  - apply exec_block_none; vm_compute; reflexivity.
Defined.

Lemma missing_path_block_discarded_witness :
  sample_run_blocks (sample_chunk "") 0 (pathless_pre ++ nopath_block ++ pathless_tail)
  = Some ([Call (ToolArgs (lit "a.md") (lit "hi") false);
           Yield (with_content (sample_chunk "")
                    (newline ++ lit "writeToFile: hi" ++ newline))], 1, []) /\
  sample_run_blocks (sample_chunk "") 0 (pathless_pre ++ nopath_block ++ lit " ``` after")
  = Some ([], 0, lit " after").
Proof.
  assert (Hd : directive_block nopath_block)
    by (apply is_directive_block_sound; vm_compute; reflexivity).
  assert (Hp : exec path_re nopath_block = None) by (vm_compute; reflexivity).
  assert (Hno : ~ occurs open_tag pathless_pre)
    by (apply indexOf_absent_inv; vm_compute; reflexivity).
  split.
  - etransitivity.
    + exact (proj1 (proj2 (proj2
               (@missing_path_block_discarded unit nat jsstring sample_callTool sample_format
                  (sample_chunk "") 0 pathless_pre nopath_block pathless_tail
                  Hd Hp Hno eq_refl ltac:(vm_compute; lia))))).
    + vm_compute. reflexivity.
  - exact (proj2 (proj2 (proj2 (proj2
             (@missing_path_block_discarded unit nat jsstring sample_callTool sample_format
                (sample_chunk "") 0 pathless_pre nopath_block (lit " ``` after")
                Hd Hp Hno eq_refl ltac:(vm_compute; lia)))))
             ltac:(apply exec_block_none; vm_compute; reflexivity)).
Defined.
